(** * 1D two-stream instability PIC simulation: model of [simulation.py]

    Numbers.  Python integers are [Z].  Python/NumPy floats are modelled by
    the exact rationals [Q] compared with [==]: a statement over this model
    is about the arithmetic the program writes down, carried out exactly,
    and says what the program computes up to the rounding of its doubles.
    Where rounding decides an outcome (an index, a wrap, an error), the
    lines concerned are given a second time on primitive binary64 floats
    ([deposit64], [np_mod64], [wrap64]), and what the program does there on
    a given input is computed with them.

    Errors.  A Python exception is a [Raise e] result.

    Arrays.  A NumPy array of shape (N,) or (N,1) is a [list]; arrays that
    the program mutates in place live in a heap of array objects and are
    named by their address. *)

From stdpp Require Import list gmap strings.
From Stdlib Require Import ZArith QArith Qround Lia Lqa Floats.

Open Scope Q_scope.

(** ** Exceptions and results *)

(** The Python exceptions the program can raise.  [Dangling] is not a Python
    exception: it marks an address that names no array, which no run of the
    program produces. *)
Inductive exn : Set :=
| ZeroDivisionError
| ValueError
| IndexError
| Dangling.

Inductive result (A : Type) : Type :=
| Ok (a : A)
| Raise (e : exn).
Arguments Ok {A} a.
Arguments Raise {A} e.

#[global] Instance result_ret : MRet result := fun A a => Ok a.
#[global] Instance result_bind : MBind result := fun A B f x =>
  match x with
  | Ok a => f a
  | Raise e => Raise e
  end.

(** Python's [a / b] on scalars. *)
Definition pydiv (a b : Q) : result Q :=
  if Qeq_bool b 0 then Raise ZeroDivisionError else Ok (a / b).

(** ** Sparse matrices (scipy.sparse)

    A square sparse matrix is kept as its shape and its list of constant
    diagonals [(offset, value)]: the entry at row [r], column [c] is the sum
    of the values of the diagonals of offset [c - r].  The storage format
    (DIA, CSR) does not change the entries, so [tocsr] is the identity. *)

Record spmatrix : Type := {
  shape : Z;
  bands : list (Z * Q)
}.

Fixpoint sumQ (l : list Q) : Q :=
  match l with
  | [] => 0
  | x :: l' => x + sumQ l'
  end.

Definition zrange (n : Z) : list Z := map Z.of_nat (seq 0 (Z.to_nat n)).

Definition in_shape (M : spmatrix) (r c : Z) : bool :=
  ((0 <=? r) && (r <? shape M) && (0 <=? c) && (c <? shape M))%Z.

Definition entry (M : spmatrix) (r c : Z) : Q :=
  if in_shape M r c
  then sumQ (map snd (List.filter (fun b => (fst b =? c - r)%Z) (bands M)))
  else 0.

Fixpoint distinct (l : list Z) : bool :=
  match l with
  | [] => true
  | k :: l' => negb (existsb (Z.eqb k) l') && distinct l'
  end.

(** [sp.diags(vals, offsets, shape=(n, n))] with scalar diagonals, which are
    broadcast along their diagonal.  It raises [ValueError] for a negative
    shape, for an offset beyond the matrix and for a repeated offset. *)
Definition diags (vals : list Q) (offsets : list Z) (n : Z) : result spmatrix :=
  if negb (length vals =? length offsets)%nat then Raise ValueError
  else if (n <? 0)%Z then Raise ValueError
  else if existsb (fun k => (n <? Z.abs k)%Z) offsets then Raise ValueError
  else if negb (distinct offsets) then Raise ValueError
  else Ok {| shape := n; bands := combine offsets vals |}.

(** [M / d] for a scalar [d]: scipy multiplies the stored values by
    [1./d]. *)
Definition mdiv (M : spmatrix) (d : Q) : result spmatrix :=
  s ← pydiv 1 d;
  Ok {| shape := shape M; bands := map (fun b => (fst b, snd b * s)) (bands M) |}.

(** [A + B]. *)
Definition madd (A B : spmatrix) : result spmatrix :=
  if (shape A =? shape B)%Z
  then Ok {| shape := shape A; bands := bands A ++ bands B |}
  else Raise ValueError.

Definition tocsr (M : spmatrix) : spmatrix := M.

(** [- M]. *)
Definition mneg (M : spmatrix) : spmatrix :=
  {| shape := shape M; bands := map (fun b => (fst b, - snd b)) (bands M) |}.

(** [x[i]] for a Python integer index (negative indices count from the
    end). *)
Definition getitem (x : list Q) (i : Z) : result Q :=
  let len := Z.of_nat (length x) in
  let k := if (i <? 0)%Z then (i + len)%Z else i in
  if ((0 <=? k) && (k <? len))%Z
  then match x !! Z.to_nat k with
       | Some v => Ok v
       | None => Raise IndexError
       end
  else Raise IndexError.

(** [M @ x]. *)
Definition matvec (M : spmatrix) (x : list Q) : result (list Q) :=
  if (Z.of_nat (length x) =? shape M)%Z
  then Ok (map (fun r => sumQ (map (fun c => entry M r c * nth (Z.to_nat c) x 0)
                                   (zrange (shape M))))
               (zrange (shape M)))
  else Raise ValueError.

(** ** create_matrices *)

Definition create_matrices (Nx : Z) (boxsize : Q) : result (spmatrix * spmatrix) :=
  dx ← pydiv boxsize (inject_Z Nx);
  G0 ← diags [-1; 1] [0; 1]%Z Nx;
  Gmtx ← mdiv G0 dx;
  L0 ← diags [1; -2; 1] [-1; 0; 1]%Z Nx;
  Lmtx ← mdiv L0 (dx ^ 2);
  L1 ← diags [1; 1] [-Nx + 1; Nx - 1]%Z Nx;
  L2 ← mdiv L1 (dx ^ 2);
  Lmtx ← madd Lmtx L2;
  let Gmtx := tocsr Gmtx in
  let Lmtx := tocsr Lmtx in
  Ok (Gmtx, Lmtx).

(** ** NumPy array operations *)

(** [np.bincount(x, weights=w, minlength=m)]: the output has
    [max(m, max(x)+1)] bins and bin [k] accumulates the weights of the
    positions holding [k], added one after the other. *)
Definition scatter_add (out : list Q) (x : list Z) (w : list Q) : list Q :=
  fold_left (fun acc kw => alter (fun v => v + snd kw) (Z.to_nat (fst kw)) acc)
            (combine x w) out.

Definition bincount (x : list Z) (w : list Q) (minlength : Z) : result (list Q) :=
  if existsb (fun k => (k <? 0)%Z) x then Raise ValueError
  else if negb (length x =? length w)%nat then Raise ValueError
  else if (minlength <? 0)%Z then Raise ValueError
  else
    let len := fold_right Z.max minlength (map (fun k => (k + 1)%Z) x) in
    Ok (scatter_add (repeat 0 (Z.to_nat len)) x w).

(** [x[idx]] for an integer index array. *)
Fixpoint take_at (x : list Q) (idx : list Z) : result (list Q) :=
  match idx with
  | [] => Ok []
  | i :: idx' => v ← getitem x i; vs ← take_at x idx'; Ok (v :: vs)
  end.

(** The value of [x + w] under broadcasting, as the in-place [x += w]
    computes it: [w] has the length of [x], or length one. *)
Definition broadcast_add (x w : list Q) : result (list Q) :=
  if (length w =? length x)%nat then Ok (zip_with Qplus x w)
  else match w with
       | [w0] => Ok (map (fun v => v + w0) x)
       | _ => Raise ValueError
       end.

(** [np.mod(x, b)] on a float, for [b] other than zero: the remainder with
    the sign of [b], computed exactly.  It lies in [[0, b)] for [b > 0];
    NumPy's rounded result, [np_mod64] below, can be [b] itself. *)
Definition npmod (x b : Q) : Q := x - inject_Z (Qfloor (x / b)) * b.

(** ** The store: array objects and rendered figures *)

(** Addresses of array objects. *)
Abbreviation loc := nat (only parsing).

(** What [plot_data] is handed: positions, velocities, time, box size and
    number of cells. *)
Definition figure : Type := list Q * list Q * Q * Q * Z.

Record world : Type := {
  arrays : list (list Q);
  figures : list figure
}.

(** A statement of the program: from a world to a result and the world it
    leaves, also when it raises. *)
Definition prog (A : Type) : Type := world -> result A * world.

#[global] Instance prog_ret : MRet prog := fun A a w => (Ok a, w).
#[global] Instance prog_bind : MBind prog := fun A B f m w =>
  match m w with
  | (Ok a, w') => f a w'
  | (Raise e, w') => (Raise e, w')
  end.

Definition lift {A} (r : result A) : prog A := fun w => (r, w).

(** A new array object, at the next free address. *)
Definition new_array (v : list Q) : prog loc := fun w =>
  (Ok (length (arrays w)), {| arrays := arrays w ++ [v]; figures := figures w |}).

Definition read (l : loc) : prog (list Q) := fun w =>
  match arrays w !! l with
  | Some v => (Ok v, w)
  | None => (Raise Dangling, w)
  end.

Definition overwrite (l : loc) (v : list Q) : prog unit := fun w =>
  (Ok tt, {| arrays := <[l := v]> (arrays w); figures := figures w |}).

(** [x += w] and [x *= s]: the object at [x] is updated in place. *)
Definition iadd (x : loc) (w : list Q) : prog unit :=
  v ← read x; v' ← lift (broadcast_add v w); overwrite x v'.

Definition imul (x : loc) (s : Q) : prog unit :=
  v ← read x; overwrite x (map (fun a => a * s) v).

(** ** getAcc *)

(** What the deposition leaves for the rest of [getAcc]: the density array
    [n] and the per-particle node indices and weights. *)
Record deposited : Type := {
  n_ : loc;
  j_ : list Z;
  jp1_ : list Z;
  weight_j_ : list Q;
  weight_jp1_ : list Q
}.

(** Lines 31-40: electron number density on the mesh.  ([dx] is zero only
    for [boxsize = 0]; NumPy's array divisions by it then give inf and nan,
    which [Q] does not have, and no statement below is about that case.)
    The quotient [pos / dx] is floored exactly here; the program floors its
    rounded value, which can be a node off ([deposit64] below). *)
Definition deposit (pos : loc) (Nx : Z) (boxsize n0 : Q) : prog deposited :=
  p ← read pos;
  let N := Z.of_nat (length p) in
  dx ← lift (pydiv boxsize (inject_Z Nx));
  let j := map (fun x => Qfloor (x / dx)) p in
  let jp1 := map (fun k => (k + 1)%Z) j in
  let weight_j := zip_with (fun k x => (inject_Z k * dx - x) / dx) jp1 p in
  let weight_jp1 := zip_with (fun x k => (x - inject_Z k * dx) / dx) p j in
  let jp1 := map (fun k => (k mod Nx)%Z) jp1 in
  b ← lift (bincount j weight_j Nx);
  n ← new_array b;
  b' ← lift (bincount jp1 weight_jp1 Nx);
  iadd n b';;
  s ← lift (q ← pydiv (n0 * boxsize) (inject_Z N); pydiv q dx);
  imul n s;;
  mret {| n_ := n; j_ := j; jp1_ := jp1;
          weight_j_ := weight_j; weight_jp1_ := weight_jp1 |}.

(** Lines 45-46: the electric field on the mesh from the potential,
    [- Gmtx @ phi_grid], which Python reads as [(- Gmtx) @ phi_grid]. *)
Definition electric_field (Gmtx : spmatrix) (phi_grid : list Q) : result (list Q) :=
  matvec (mneg Gmtx) phi_grid.

(** Lines 49-51: the field at the particles, and the acceleration. *)
Definition interpolate (d : deposited) (E_grid : list Q) : result (list Q) :=
  Ej ← take_at E_grid (j_ d);
  Ejp1 ← take_at E_grid (jp1_ d);
  let E := zip_with Qplus (zip_with Qmult (weight_j_ d) Ej)
                          (zip_with Qmult (weight_jp1_ d) Ejp1) in
  Ok (map Qopp E).

Section Simulation.

(** [scipy.sparse.linalg.spsolve(Lmtx, b, permc_spec=...)], a library
    routine outside the program. *)
Variable spsolve : spmatrix -> list Q -> result (list Q).

(** The draws of [np.random.rand(N,1)] and [np.random.randn(N,1)] after
    [np.random.seed(42)], as functions of the number of samples. *)
Variable uniform_samples : nat -> list Q.
Variable normal_samples : nat -> list Q.

Definition getAcc (pos : loc) (Nx : Z) (boxsize n0 : Q)
    (Gmtx Lmtx : spmatrix) : prog loc :=
  d ← deposit pos Nx boxsize n0;
  n ← read (n_ d);
  phi_grid ← lift (spsolve Lmtx (map (fun v => v - n0) n));
  E_grid ← lift (electric_field Gmtx phi_grid);
  a ← lift (interpolate d E_grid);
  new_array a.

(** ** main *)

Record config : Type := {
  N : Z;
  Nx : Z;
  tEnd : Q;
  dt : Q;
  boxsize : Q;
  n0 : Q;
  vb : Q;
  vth : Q;
  plotRealTime : bool
}.

(** The parameters written in [main] (the perturbation [A = 0.1] is never
    used). *)
Definition default_config : config :=
  {| N := 40000; Nx := 400; tEnd := 50; dt := 1; boxsize := 50;
     n0 := 1; vb := 3; vth := 1; plotRealTime := true |}.

(** The driver's local variables. *)
Record locals : Type := {
  pos : loc;
  vel : loc;
  t : Q
}.

(** [plot_data] hands a snapshot to the renderer (matplotlib), which lies
    outside the program. *)
Definition render (fig : figure) : prog unit := fun w =>
  (Ok tt, {| arrays := arrays w; figures := figures w ++ [fig] |}).

Definition plot_data (pos vel : loc) (t boxsize : Q) (Nx : Z) : prog unit :=
  p ← read pos; v ← read vel; render (p, v, t, boxsize, Nx).

(** Lines 82-97: the body of the [while] loop. *)
Definition timestep (c : config) (Gmtx Lmtx : spmatrix) (s : locals) : prog locals :=
  a ← getAcc (pos s) (Nx c) (boxsize c) (n0 c) Gmtx Lmtx;
  v ← read (vel s);
  iadd (pos s) (map (Qmult (dt c)) v);;
  av ← read a;
  iadd (vel s) (map (Qmult (dt c)) av);;
  p ← read (pos s);
  pos' ← new_array (map (fun x => npmod x (boxsize c)) p);
  let t' := t s + dt c in
  (if plotRealTime c then plot_data pos' (vel s) t' (boxsize c) (Nx c) else mret tt);;
  mret {| pos := pos'; vel := vel s; t := t' |}.

(** Whether the [while] loop was left, or is still running when the fuel of
    the model is spent.  The clock [t += dt] is exact: it is the program's
    clock for integer [dt], as [main] has it, and for a [dt] such as [0.1]
    the program's rounded clock can need one pass more. *)
Inductive status : Set := Finished | Running.

Fixpoint loop (fuel : nat) (c : config) (Gmtx Lmtx : spmatrix) (s : locals)
    : prog (status * locals) :=
  if Qlt_le_dec (t s) (tEnd c) then
    match fuel with
    | O => mret (Running, s)
    | S fuel' => s' ← timestep c Gmtx Lmtx s; loop fuel' c Gmtx Lmtx s'
    end
  else mret (Finished, s).

(** [np.random.rand(N,1)] and [np.random.randn(N,1)] reject a negative
    dimension. *)
Definition np_random (samples : nat -> list Q) (N : Z) : result (list Q) :=
  if (N <? 0)%Z then Raise ValueError else Ok (samples (Z.to_nat N)).

Definition main_with (fuel : nat) (c : config) : prog (status * locals) :=
  let t0 := 0 in
  u ← lift (np_random uniform_samples (N c));
  pos0 ← new_array (map (fun x => x * boxsize c) u);
  g ← lift (np_random normal_samples (N c));
  vel0 ← new_array (map (fun x => vth c * x + vb c) g);
  '(Gmtx, Lmtx) ← lift (create_matrices (Nx c) (boxsize c));
  '(st, s) ← loop fuel c Gmtx Lmtx {| pos := pos0; vel := vel0; t := t0 |};
  match st with
  | Finished =>
      (if negb (plotRealTime c)
       then plot_data (pos s) (vel s) (t s) (boxsize c) (Nx c)
       else mret tt);;
      mret (st, s)
  | Running => mret (st, s)
  end.

Definition main (fuel : nat) : prog (status * locals) := main_with fuel default_config.

Definition empty_world : world := {| arrays := []; figures := [] |}.

End Simulation.

(** ** Definitions used in the statements *)

(** The mesh width [dx = boxsize / Nx] computed in [create_matrices] and in
    [getAcc]. *)
Definition mesh_dx (Nx : Z) (boxsize : Q) : Q := boxsize / inject_Z Nx.

(** The operators [create_matrices] returns when it succeeds. *)
Definition gradient_of (Nx : Z) (dx : Q) : spmatrix :=
  {| shape := Nx; bands := [(0%Z, -1 * (1 / dx)); (1%Z, 1 * (1 / dx))] |}.

Definition laplacian_of (Nx : Z) (dx : Q) : spmatrix :=
  {| shape := Nx;
     bands := [((-1)%Z, 1 * (1 / dx ^ 2)); (0%Z, -2 * (1 / dx ^ 2));
               (1%Z, 1 * (1 / dx ^ 2));
               ((- Nx + 1)%Z, 1 * (1 / dx ^ 2)); ((Nx - 1)%Z, 1 * (1 / dx ^ 2))] |}.

(** [w'] keeps every array object of [w] as it is (it may hold more) and
    the same figures. *)
Definition extends (w w' : world) : Prop :=
  (exists ext, arrays w' = arrays w ++ ext) /\ figures w' = figures w.

(** A statement frames the store when it only adds array objects. *)
Definition frames {A} (m : prog A) : Prop := forall w, extends w (snd (m w)).

(** A uniform ensemble on four cells: the density equals the background, and
    the zero potential solves the Poisson equation. *)
Definition uniform_world : world :=
  {| arrays := [[1 # 2; 3 # 2; 5 # 2; 7 # 2]; [3; -11; 9; 3]]; figures := [] |}.

Definition small_config : config :=
  {| N := 4; Nx := 4; tEnd := 1; dt := 1; boxsize := 4;
     n0 := 1; vb := 3; vth := 0; plotRealTime := true |}.

Definition zero_potential (L : spmatrix) (b : list Q) : result (list Q) :=
  Ok (map (fun _ => 0) b).



(** ** Definitions used in the further properties *)

(** The driver's ensemble in a world: [n] positions and [n] velocities, held
    by two different array objects. *)
Definition particles (n : nat) (s : locals) (w : world) : Prop :=
  exists P V,
    arrays w !! pos s = Some P /\ arrays w !! vel s = Some V /\
    pos s <> vel s /\ length P = n /\ length V = n.

(** The draws [main] starts from, scaled as lines 75-76 do. *)
Definition initial_world (uniform_samples normal_samples : nat -> list Q) (c : config)
    : world :=
  {| arrays := [map (fun x => x * boxsize c) (uniform_samples (Z.to_nat (N c)));
                map (fun x => vth c * x + vb c) (normal_samples (Z.to_nat (N c)))];
     figures := [] |}.

Definition initial_locals : locals := {| pos := 0%nat; vel := 1%nat; t := 0 |}.

(** Evenly spaced draws in [0,1) and draws that are all zero, for concrete
    runs of [main]. *)
Definition grid_samples (n : nat) : list Q :=
  map (fun i => (2 * inject_Z (Z.of_nat i) + 1) / (2 * inject_Z (Z.of_nat n))) (seq 0 n).

Definition zero_samples (n : nat) : list Q := repeat 0 n.

Definition empty_config : config :=
  {| N := 0; Nx := 4; tEnd := 1; dt := 1; boxsize := 4;
     n0 := 1; vb := 3; vth := 0; plotRealTime := true |}.

(** A solver that answers every right-hand side of [Nx] entries with a
    potential of [Nx] entries. *)
Definition solves (spsolve : spmatrix -> list Q -> result (list Q)) (Lmtx : spmatrix)
    (Nx : Z) : Prop :=
  forall b, Z.of_nat (length b) = Nx ->
    exists phi, spsolve Lmtx b = Ok phi /\ Z.of_nat (length phi) = Nx.

(** * The program's arithmetic in binary64

    The model above computes with exact rationals.  The program computes
    with IEEE doubles, and the two part where a rounded value is floored
    ([np.floor(pos/dx)]), wrapped ([np.mod]) or compared.  The definitions
    below are the same lines of the program on primitive binary64 floats,
    whose [+], [-], [*] and [/] are the IEEE operations rounded to nearest;
    they decide what the program does on a given input where rounding
    matters. *)

(** [np.floor(x).astype(int)] on a double.  The C cast of an infinity, of a
    NaN or of a value outside the 64-bit integers is not defined; x86-64
    gives [-2^63]. *)
Definition floor64 (x : float) : Z :=
  match Prim2SF x with
  | S754_zero _ => 0
  | S754_finite s m e =>
      let v := if s then Z.neg m else Z.pos m in
      let k := if (0 <=? e)%Z then v * 2 ^ e else v / 2 ^ (- e) in
      if ((- 2 ^ 63 <=? k) && (k <? 2 ^ 63))%Z then k else - 2 ^ 63
  | _ => - 2 ^ 63
  end%Z.

(** A Python or NumPy integer as a double: exact below [2^53], rounded to
    nearest above. *)
Definition of_int64 (k : Z) : float :=
  let x := PrimFloat.of_uint63 (Uint63.of_Z (Z.abs k)) in
  if (k <? 0)%Z then PrimFloat.opp x else x.

(** C's [fmod]: the exact remainder of [a / b] truncated towards zero, with
    the sign of [a]. *)
Definition fmod64 (a b : float) : float :=
  match Prim2SF a, Prim2SF b with
  | S754_finite sa ma ea, S754_finite _ mb eb =>
      let e := Z.min ea eb in
      let r := ((Z.pos ma * 2 ^ (ea - e)) mod (Z.pos mb * 2 ^ (eb - e)))%Z in
      let x := Z.ldexp (PrimFloat.of_uint63 (Uint63.of_Z r)) e in
      if sa then PrimFloat.opp x else x
  | S754_zero _, S754_finite _ _ _ => a
  | S754_zero _, S754_infinity _ => a
  | S754_finite _ _ _, S754_infinity _ => a
  | _, _ => PrimFloat.nan
  end.

(** [np.mod(a, b)] on doubles, as NumPy's [npy_divmod] computes the
    remainder: [fmod], then [b] added when the signs differ. *)
Definition np_mod64 (a b : float) : float :=
  let m := fmod64 a b in
  if PrimFloat.eqb b 0 then m
  else if PrimFloat.eqb m 0 then (if PrimFloat.ltb b 0 then (-0)%float else 0%float)
  else if Bool.eqb (PrimFloat.ltb b 0) (PrimFloat.ltb m 0) then m
  else PrimFloat.add m b.

(** Python's [a / b] on floats. *)
Definition pydiv64 (a b : float) : result float :=
  if PrimFloat.eqb b 0 then Raise ZeroDivisionError else Ok (PrimFloat.div a b).

(** [np.bincount] with double weights: each bin adds its weights one after
    the other, rounding every addition. *)
Definition scatter_add64 (out : list float) (x : list Z) (w : list float) : list float :=
  fold_left (fun acc kw => alter (fun v => PrimFloat.add v (snd kw)) (Z.to_nat (fst kw)) acc)
            (combine x w) out.

Definition bincount64 (x : list Z) (w : list float) (minlength : Z) : result (list float) :=
  if existsb (fun k => (k <? 0)%Z) x then Raise ValueError
  else if negb (length x =? length w)%nat then Raise ValueError
  else if (minlength <? 0)%Z then Raise ValueError
  else
    let len := fold_right Z.max minlength (map (fun k => (k + 1)%Z) x) in
    Ok (scatter_add64 (repeat 0%float (Z.to_nat len)) x w).

(** The in-place [x += w] on arrays of doubles. *)
Definition broadcast_add64 (x w : list float) : result (list float) :=
  if (length w =? length x)%nat then Ok (zip_with PrimFloat.add x w)
  else match w with
       | [w0] => Ok (map (fun v => PrimFloat.add v w0) x)
       | _ => Raise ValueError
       end.

(** Lines 31-40 of [getAcc] on doubles: the node indices, the weights and
    the density. *)
Record deposited64 : Type := {
  j64 : list Z;
  jp1_64 : list Z;
  weight_j64 : list float;
  weight_jp1_64 : list float;
  n64 : list float
}.

Definition deposit64 (pos : list float) (Nx : Z) (boxsize n0 : float)
    : result deposited64 :=
  let N := Z.of_nat (length pos) in
  dx ← pydiv64 boxsize (of_int64 Nx);
  let j := map (fun x => floor64 (PrimFloat.div x dx)) pos in
  let jp1 := map (fun k => (k + 1)%Z) j in
  let weight_j :=
    zip_with (fun k x => PrimFloat.div (PrimFloat.sub (PrimFloat.mul (of_int64 k) dx) x) dx)
             jp1 pos in
  let weight_jp1 :=
    zip_with (fun x k => PrimFloat.div (PrimFloat.sub x (PrimFloat.mul (of_int64 k) dx)) dx)
             pos j in
  let jp1 := map (fun k => (k mod Nx)%Z) jp1 in
  n ← bincount64 j weight_j Nx;
  b' ← bincount64 jp1 weight_jp1 Nx;
  n ← broadcast_add64 n b';
  q ← pydiv64 (PrimFloat.mul n0 boxsize) (of_int64 N);
  s ← pydiv64 q dx;
  Ok {| j64 := j; jp1_64 := jp1; weight_j64 := weight_j; weight_jp1_64 := weight_jp1;
        n64 := map (fun a => PrimFloat.mul a s) n |}.

(** Lines 86 and 90 of [main] on doubles: the raw update of the positions
    and the wrap. *)
Definition drift64 (pos vel : list float) (dt : float) : list float :=
  zip_with (fun x v => PrimFloat.add x (PrimFloat.mul dt v)) pos vel.

Definition wrap64 (pos : list float) (boxsize : float) : list float :=
  map (fun x => np_mod64 x boxsize) pos.

(** [sum(x)] of a few doubles, added one after the other. *)
Definition sum64 (x : list float) : float := fold_left PrimFloat.add x 0%float.

(** * The project scaffold of system_creator.py *)

(** ** The directory tree below the working directory *)

(** The errors of the calls the script makes. *)
Inductive oserror : Set :=
  | FileExistsError | FileNotFoundError | NotADirectoryError | IsADirectoryError.

Inductive node : Set :=
  | Dir
  | File (content : string).

(** A path relative to the working directory is the list of its components;
    the tree maps the paths that exist to what they hold.  Symbolic links,
    permissions and other processes are not modelled. *)
Abbreviation tree := (gmap (list string) node) (only parsing).

(** What is at a path; the empty path is the working directory. *)
Definition stat (f : tree) (p : list string) : option node :=
  match p with
  | [] => Some Dir
  | _ => f !! p
  end.

(** The head of [os.path.split]. *)
Definition dirname (p : list string) : list string := removelast p.

(** In a tree every entry sits in a directory. *)
Definition well_formed (f : tree) : Prop :=
  forall p n, f !! p = Some n -> p <> [] /\ stat f (dirname p) = Some Dir.

Inductive outcome (A : Type) : Type :=
  | Done (a : A)
  | Failed (e : oserror).
Arguments Done {A} a.
Arguments Failed {A} e.

(** A statement of the script: it returns or raises, and leaves a tree. *)
Definition io (A : Type) : Type := tree -> outcome A * tree.

#[global] Instance io_ret : MRet io := fun A a f => (Done a, f).

#[global] Instance io_bind : MBind io := fun A B k m f =>
  match m f with
  | (Done a, f') => k a f'
  | (Failed e, f') => (Failed e, f')
  end.

(** [os.path.exists(p)]; the empty path does not exist. *)
Definition path_exists (p : list string) : io bool := fun f =>
  (Done (match p with
         | [] => false
         | _ => match f !! p with Some _ => true | None => false end
         end), f).

(** [os.mkdir(p)]. *)
Definition mkdir (p : list string) : io unit := fun f =>
  match p with
  | [] => (Failed FileNotFoundError, f)
  | _ =>
      match stat f (dirname p) with
      | None => (Failed FileNotFoundError, f)
      | Some (File _) => (Failed NotADirectoryError, f)
      | Some Dir =>
          match f !! p with
          | Some _ => (Failed FileExistsError, f)
          | None => (Done tt, <[p := Dir]> f)
          end
      end
  end.

(** [try: m except FileExistsError: pass]. *)
Definition except_exists (m : io unit) : io unit := fun f =>
  match m f with
  | (Failed FileExistsError, f') => (Done tt, f')
  | r => r
  end.

(** [os.makedirs(p)] with [exist_ok=False]: the missing ancestors are made
    first, by a recursive call on the head of the path; [k] bounds the depth
    of the recursion. *)
Fixpoint makedirs_from (k : nat) (p : list string) : io unit :=
  match k with
  | O => mkdir p
  | S k' =>
      let head := dirname p in
      (match head with
       | [] => mret tt
       | _ =>
           e ← path_exists head;
           if (e : bool) then mret tt else except_exists (makedirs_from k' head)
       end : io unit);;
      mkdir p
  end.

Definition makedirs (p : list string) : io unit := makedirs_from (length p) p.

(** [with open(p, "w") as f: f.write(text)]. *)
Definition write_file (p : list string) (text : string) : io unit := fun f =>
  match p with
  | [] => (Failed FileNotFoundError, f)
  | _ =>
      match f !! p with
      | Some Dir => (Failed IsADirectoryError, f)
      | _ =>
          match stat f (dirname p) with
          | None => (Failed FileNotFoundError, f)
          | Some (File _) => (Failed NotADirectoryError, f)
          | Some Dir => (Done tt, <[p := File text]> f)
          end
      end
  end.

(** [for x in l: body(x)]. *)
Fixpoint for_each {A} (l : list A) (body : A -> io unit) : io unit :=
  match l with
  | [] => mret tt
  | x :: l' => body x;; for_each l' body
  end.

(** ** The script *)

Definition newline : string := String (Ascii.ascii_of_nat 10) EmptyString.

(** [sep.join(l)]. *)
Fixpoint join (sep : string) (l : list string) : string :=
  match l with
  | [] => EmptyString
  | [x] => x
  | x :: l' => x +:+ sep +:+ join sep l'
  end.

Definition project_name : string := "1D-Two-Stream-Instability-Simulation".

Definition dirs : list string := ["data"; "notebooks"; "scripts"]%string.

Definition description : string :=
  "1D-Two-Stream-Instability-Simulation is a simulation of the 1D-Two-Stream-Instability problem.".

Definition readme : string :=
  "# " +:+ project_name +:+ newline +:+ newline +:+ description.

Definition requirements : list string := ["numpy"; "matplotlib"; "scipy"]%string.

Definition license_text : string := "MIT License".

Definition gitignore_text : string :=
  "data/" +:+ newline +:+ "*.pyc" +:+ newline +:+ "__pycache__/" +:+ newline.

Definition main_script : string :=
  join newline
       ["import numpy as np";
        "import matplotlib.pyplot as plt";
        "import scipy.sparse as sp";
        "from scipy.sparse.linalg import spsolve";
        "";
        "# Your code here";
        "";
        "if __name__ == '__main__':";
        "    main()";
        ""]%string.

(** [if not os.path.exists(p): os.makedirs(p)]. *)
Definition make_missing (p : list string) : io unit :=
  e ← path_exists p;
  if (e : bool) then mret tt else makedirs p.

Definition system_creator : io unit :=
  make_missing [project_name];;
  for_each dirs (fun d => make_missing [project_name; d]);;
  write_file [project_name; "README.md"%string] readme;;
  write_file [project_name; "requirements.txt"%string] (join newline requirements);;
  write_file [project_name; "LICENSE"%string] license_text;;
  write_file [project_name; ".gitignore"%string] gitignore_text;;
  write_file [project_name; "scripts"%string; "main.py"%string] main_script.

(** The files the script writes, with their texts. *)
Definition written : list (list string * string) :=
  [([project_name; "README.md"], readme);
   ([project_name; "requirements.txt"], join newline requirements);
   ([project_name; "LICENSE"], license_text);
   ([project_name; ".gitignore"], gitignore_text);
   ([project_name; "scripts"; "main.py"], main_script)]%string.

(** ** Definitions used in the statements about the script *)

(** [p] is added as a directory unless something is there. *)
Definition add_dir (p : list string) (f : tree) : tree :=
  match f !! p with
  | Some _ => f
  | None => <[p := Dir]> f
  end.

(** The tree a run that returns leaves. *)
Definition scaffold (f : tree) : tree :=
  foldl (fun g pt => <[pt.1 := File pt.2]> g)
        (foldl (fun g d => add_dir [project_name; d] g) (add_dir [project_name] f) dirs)
        written.

(** The trees in which the script returns. *)
Definition can_scaffold (f : tree) : Prop :=
  (forall c, f !! [project_name] <> Some (File c)) /\
  (forall c, f !! [project_name; "scripts"%string] <> Some (File c)) /\
  Forall (fun pt => f !! pt.1 <> Some Dir) written.

(** [f'] holds every entry of [f]: unchanged, or a regular file among [W]
    with a new text. *)
Definition kept (W : list (list string)) (f f' : tree) : Prop :=
  forall p n, f !! p = Some n ->
    f' !! p = Some n \/
    (p ∈ W /\ exists c c', n = File c /\ f' !! p = Some (File c')).

(** A statement that takes trees to trees and removes nothing, whatever its
    outcome. *)
Definition keeps {A} (W : list (list string)) (m : io A) : Prop :=
  forall f, well_formed f -> well_formed (m f).2 /\ kept W f (m f).2.

(** A project in which [scripts/main.py] has been edited, and a working
    directory in which the project name is taken by a regular file. *)
Definition edited_project : tree :=
  <[[project_name; "scripts"; "main.py"]%string := File "print(1)"]>
    (<[[project_name; "scripts"%string] := Dir]> (<[[project_name] := Dir]> ∅)).

Definition name_taken : tree := <[[project_name] := File "notes"]> ∅.

(** * Properties *)

(** Case analysis on every comparison of diagonal offsets in the goal. *)
Ltac decide_offsets :=
  repeat match goal with
         | |- context [(?a =? ?b)%Z] => destruct (Z.eqb_spec a b); try lia
         end.

(** ** Sums, bins and node indices *)

Lemma sumQ_app (a b : list Q) : sumQ (a ++ b) == sumQ a + sumQ b.
Proof. induction a as [|x a IH]; cbn [sumQ app]; [ring | rewrite IH; ring]. Qed.

Lemma sumQ_repeat_zero (n : nat) : sumQ (repeat 0 n) == 0.
Proof. induction n as [|n IH]; cbn [sumQ repeat]; [reflexivity | rewrite IH; ring]. Qed.

Lemma sumQ_alter (l : list Q) (i : nat) (a : Q) :
  (i < length l)%nat -> sumQ (alter (fun v => v + a) i l) == sumQ l + a.
Proof.
  revert i. induction l as [|x l IH]; intros i Hi; cbn in Hi; [lia|].
  destruct i as [|i]; cbn [alter list_alter sumQ].
  - ring.
  - rewrite IH by lia. ring.
Qed.

Lemma scatter_add_length (x : list Z) (w out : list Q) :
  length (scatter_add out x w) = length out.
Proof.
  unfold scatter_add. revert out. generalize (combine x w) as kw.
  induction kw as [|[k a] kw IH]; intros out; cbn; [reflexivity|].
  rewrite IH. apply length_alter.
Qed.

Lemma sumQ_scatter_add (x : list Z) : forall (w out : list Q),
  Forall (fun k => (0 <= k < Z.of_nat (length out))%Z) x ->
  length x = length w ->
  sumQ (scatter_add out x w) == sumQ out + sumQ w.
Proof.
  unfold scatter_add.
  induction x as [|k x IH]; intros w out Hx Hlen; destruct w as [|a w];
    cbn in Hlen; try discriminate; cbn [combine fold_left sumQ fst snd].
  - ring.
  - inversion Hx as [|? ? Hk Hx']; subst.
    rewrite IH.
    + rewrite sumQ_alter by lia. ring.
    + rewrite length_alter. exact Hx'.
    + lia.
Qed.

Lemma sumQ_zip_plus (a : list Q) : forall b : list Q,
  length a = length b -> sumQ (zip_with Qplus a b) == sumQ a + sumQ b.
Proof.
  induction a as [|x a IH]; intros [|y b] Hlen; cbn in Hlen; try discriminate;
    cbn [zip_with sumQ].
  - ring.
  - rewrite IH by lia. ring.
Qed.

Lemma sumQ_scale (l : list Q) (s : Q) : sumQ (map (fun a => a * s) l) == sumQ l * s.
Proof. induction l as [|x l IH]; cbn [sumQ map]; [ring | rewrite IH; ring]. Qed.

Lemma max_bins (x : list Z) (m : Z) :
  Forall (fun k => (k < m)%Z) x ->
  fold_right Z.max m (map (fun k => (k + 1)%Z) x) = m.
Proof.
  induction 1 as [|k x Hk Hx IH]; cbn; [reflexivity|]. rewrite IH. lia.
Qed.

Lemma no_negative (x : list Z) :
  Forall (fun k => (0 <= k)%Z) x -> existsb (fun k => (k <? 0)%Z) x = false.
Proof.
  induction 1 as [|k x Hk Hx IH]; cbn; [reflexivity|]. rewrite IH.
  replace (k <? 0)%Z with false by lia. reflexivity.
Qed.

Lemma bincount_in_range (x : list Z) (w : list Q) (m : Z) :
  Forall (fun k => (0 <= k < m)%Z) x -> length x = length w -> (0 <= m)%Z ->
  bincount x w m = Ok (scatter_add (repeat 0 (Z.to_nat m)) x w).
Proof.
  intros Hx Hlen Hm. unfold bincount.
  rewrite no_negative by (eapply Forall_impl; [exact Hx | cbn; intros; lia]).
  rewrite Hlen, Nat.eqb_refl. cbn [negb].
  replace (m <? 0)%Z with false by lia.
  rewrite max_bins by (eapply Forall_impl; [exact Hx | cbn; intros; lia]).
  reflexivity.
Qed.

Lemma sumQ_bincount_bins (x : list Z) (w : list Q) (m : Z) :
  Forall (fun k => (0 <= k < m)%Z) x -> length x = length w ->
  sumQ (scatter_add (repeat 0 (Z.to_nat m)) x w) == sumQ w.
Proof.
  intros Hx Hlen. rewrite sumQ_scatter_add, sumQ_repeat_zero; [ring | | exact Hlen].
  eapply Forall_impl; [exact Hx|]. cbn. intros k Hk. rewrite repeat_length. lia.
Qed.

(** The left node of a position inside the box is a node of the mesh. *)
Lemma floor_index (p dx : Q) (Nx : Z) :
  0 < dx -> 0 <= p -> p < inject_Z Nx * dx ->
  (0 <= Qfloor (p / dx) < Nx)%Z.
Proof.
  intros Hdx Hp Hlt. split.
  - change 0%Z with (Qfloor 0). apply Qfloor_resp_le.
    apply Qle_shift_div_l; [exact Hdx | lra].
  - rewrite Zlt_Qlt. apply Qle_lt_trans with (p / dx).
    + apply Qfloor_le.
    + apply Qlt_shift_div_r; [exact Hdx | exact Hlt].
Qed.

(** The two weights of a particle add up to one. *)
Lemma weights_total (dx : Q) (p : list Q) :
  ~ dx == 0 ->
  sumQ (zip_with (fun k x => (inject_Z k * dx - x) / dx)
                 (map (fun k => (k + 1)%Z) (map (fun x => Qfloor (x / dx)) p)) p)
  + sumQ (zip_with (fun x k => (x - inject_Z k * dx) / dx) p
                   (map (fun x => Qfloor (x / dx)) p))
  == inject_Z (Z.of_nat (length p)).
Proof.
  intros Hdx. induction p as [|x p IH].
  - cbn. reflexivity.
  - cbn [map zip_with sumQ length].
    rewrite Nat2Z.inj_succ. unfold Z.succ. rewrite !inject_Z_plus.
    rewrite <- IH. field. exact Hdx.
Qed.

(** ** The operators built by [create_matrices] *)

Lemma pydiv_ok (a b : Q) : ~ b == 0 -> pydiv a b = Ok (a / b).
Proof.
  intros Hb. unfold pydiv.
  destruct (Qeq_bool b 0) eqn:E; [|reflexivity].
  apply Qeq_bool_iff in E. contradiction.
Qed.

Lemma pydiv_zero (a b : Q) : b == 0 -> pydiv a b = Raise ZeroDivisionError.
Proof.
  intros Hb. unfold pydiv. apply Qeq_bool_iff in Hb. now rewrite Hb.
Qed.

Lemma inject_Z_nonzero (z : Z) : z <> 0%Z -> ~ inject_Z z == 0.
Proof.
  intros Hz H. apply Hz. unfold Qeq in H. simpl in H. lia.
Qed.

Lemma mesh_dx_pos Nx boxsize : (1 <= Nx)%Z -> 0 < boxsize -> 0 < mesh_dx Nx boxsize.
Proof.
  intros HN Hb. unfold mesh_dx. apply Qlt_shift_div_l.
  - change 0 with (inject_Z 0). rewrite <- Zlt_Qlt. lia.
  - lra.
Qed.

(** From two cells on, [create_matrices] returns, and returns these
    diagonals. *)
Lemma create_matrices_ok Nx boxsize :
  (2 <= Nx)%Z -> ~ boxsize == 0 ->
  create_matrices Nx boxsize =
  Ok (gradient_of Nx (mesh_dx Nx boxsize), laplacian_of Nx (mesh_dx Nx boxsize)).
Proof.
  intros HN Hb.
  assert (Hn : ~ inject_Z Nx == 0) by (apply inject_Z_nonzero; lia).
  assert (Hdx : ~ mesh_dx Nx boxsize == 0).
  { unfold mesh_dx. intros H. apply Hb.
    rewrite <- (Qmult_div_r boxsize (inject_Z Nx)) by exact Hn.
    rewrite H. ring. }
  assert (Hdx2 : ~ mesh_dx Nx boxsize ^ 2 == 0).
  { simpl. intros H. apply Qmult_integral in H. tauto. }
  unfold create_matrices.
  rewrite (pydiv_ok _ _ Hn). cbn [mbind result_bind].
  fold (mesh_dx Nx boxsize).
  unfold diags. cbn [length Nat.eqb negb existsb distinct orb andb].
  replace (Nx <? 0)%Z with false by lia.
  replace (Nx <? Z.abs 0)%Z with false by lia.
  replace (Nx <? Z.abs 1)%Z with false by lia.
  replace (Nx <? Z.abs (-1))%Z with false by lia.
  replace (Nx <? Z.abs (- Nx + 1))%Z with false by lia.
  replace (Nx <? Z.abs (Nx - 1))%Z with false by lia.
  replace (- Nx + 1 =? Nx - 1)%Z with false by lia.
  cbn [negb orb andb Z.eqb Pos.eqb mbind result_bind combine].
  unfold mdiv. rewrite (pydiv_ok _ _ Hdx), (pydiv_ok _ _ Hdx2).
  cbn [mbind result_bind shape bands map fst snd].
  unfold madd. cbn [shape bands]. rewrite Z.eqb_refl. reflexivity.
Qed.

Lemma in_shape_true M r c :
  (0 <= r < shape M)%Z -> (0 <= c < shape M)%Z -> in_shape M r c = true.
Proof. intros Hr Hc. unfold in_shape. repeat (apply andb_true_intro; split); lia. Qed.

Lemma entry_gradient Nx dx r c :
  (0 <= r < Nx)%Z -> (0 <= c < Nx)%Z ->
  entry (gradient_of Nx dx) r c ==
  (if (c =? r)%Z then - (1 / dx) else 0) + (if (c =? r + 1)%Z then 1 / dx else 0).
Proof.
  intros Hr Hc. unfold entry. rewrite in_shape_true by assumption.
  cbn [gradient_of bands List.filter fst snd].
  decide_offsets; cbn; ring.
Qed.

Lemma entry_laplacian Nx dx r c :
  (0 <= r < Nx)%Z -> (0 <= c < Nx)%Z ->
  entry (laplacian_of Nx dx) r c ==
  (if (c =? r - 1)%Z then 1 / dx ^ 2 else 0) + (if (c =? r)%Z then - 2 / dx ^ 2 else 0)
  + (if (c =? r + 1)%Z then 1 / dx ^ 2 else 0)
  + (if (c - r =? - Nx + 1)%Z then 1 / dx ^ 2 else 0)
  + (if (c - r =? Nx - 1)%Z then 1 / dx ^ 2 else 0).
Proof.
  intros Hr Hc. unfold entry. rewrite in_shape_true by assumption.
  cbn [laplacian_of bands List.filter fst snd].
  decide_offsets; cbn; unfold Qdiv; ring.
Qed.

Lemma prev_mod Nx i :
  (0 <= i < Nx)%Z -> ((i - 1) mod Nx = if i =? 0 then Nx - 1 else i - 1)%Z.
Proof.
  intros Hi. destruct (Z.eqb_spec i 0) as [->|Hne].
  - replace (0 - 1)%Z with (Nx - 1 + (-1) * Nx)%Z by lia.
    rewrite Z_mod_plus_full. apply Z.mod_small. lia.
  - apply Z.mod_small. lia.
Qed.

Lemma next_mod Nx i :
  (0 <= i < Nx)%Z -> ((i + 1) mod Nx = if i =? Nx - 1 then 0 else i + 1)%Z.
Proof.
  intros Hi. destruct (Z.eqb_spec i (Nx - 1)) as [->|Hne].
  - replace (Nx - 1 + 1)%Z with (0 + 1 * Nx)%Z by lia.
    rewrite Z_mod_plus_full. apply Z.mod_small. lia.
  - apply Z.mod_small. lia.
Qed.

Lemma Qinv_nonzero (x : Q) : 0 < x -> ~ 0 == 1 / x.
Proof.
  intros Hx H. assert (0 < 1 / x).
  { unfold Qdiv. rewrite Qmult_1_l. now apply Qinv_lt_0_compat. }
  lra.
Qed.

(** C1 (the code departs from the claim).  For [Nx >= 2] and [boxsize > 0]
    the gradient built by [create_matrices] has [-1/dx] at column [i] and
    [+1/dx] at column [(i+1) mod Nx] in every row [i < Nx-1], but its last row
    [Nx-1] has only the diagonal [-1/dx]: the entry at column
    [(Nx-1+1) mod Nx = 0] is [0], not [+1/dx].  The stencil does not wrap. *)
Theorem gradient_last_row_not_periodic (Nx : Z) (boxsize : Q) :
  (2 <= Nx)%Z -> 0 < boxsize ->
  exists Gmtx Lmtx,
    create_matrices Nx boxsize = Ok (Gmtx, Lmtx) /\
    (forall i, (0 <= i < Nx - 1)%Z ->
       entry Gmtx i i == -1 / (boxsize / inject_Z Nx) /\
       entry Gmtx i ((i + 1) mod Nx) == 1 / (boxsize / inject_Z Nx)) /\
    entry Gmtx (Nx - 1) (Nx - 1) == -1 / (boxsize / inject_Z Nx) /\
    entry Gmtx (Nx - 1) ((Nx - 1 + 1) mod Nx) == 0 /\
    ~ entry Gmtx (Nx - 1) ((Nx - 1 + 1) mod Nx) == 1 / (boxsize / inject_Z Nx).
Proof.
  intros HN Hb.
  pose proof (mesh_dx_pos Nx boxsize ltac:(lia) Hb) as Hdx.
  exists (gradient_of Nx (mesh_dx Nx boxsize)), (laplacian_of Nx (mesh_dx Nx boxsize)).
  split; [apply create_matrices_ok; [lia | lra]|].
  fold (mesh_dx Nx boxsize).
  assert (Hlast : entry (gradient_of Nx (mesh_dx Nx boxsize)) (Nx - 1)
                        ((Nx - 1 + 1) mod Nx) == 0).
  { rewrite next_mod by lia. rewrite Z.eqb_refl.
    rewrite entry_gradient by lia. decide_offsets. ring. }
  split; [|split; [|split]].
  - intros i Hi. rewrite next_mod by lia.
    replace (i =? Nx - 1)%Z with false by lia.
    rewrite !entry_gradient by lia. decide_offsets.
    split; unfold Qdiv; ring.
  - rewrite entry_gradient by lia. decide_offsets. unfold Qdiv; ring.
  - exact Hlast.
  - rewrite Hlast. now apply Qinv_nonzero.
Qed.

Lemma gradient_last_row_witness :
  (2 <= 4)%Z /\ 0 < 4 /\
  exists Gmtx Lmtx,
    create_matrices 4 4 = Ok (Gmtx, Lmtx) /\
    (forall i, (0 <= i < 4 - 1)%Z ->
       entry Gmtx i i == -1 / (4 / inject_Z 4) /\
       entry Gmtx i ((i + 1) mod 4) == 1 / (4 / inject_Z 4)) /\
    entry Gmtx (4 - 1) (4 - 1) == -1 / (4 / inject_Z 4) /\
    entry Gmtx (4 - 1) ((4 - 1 + 1) mod 4) == 0 /\
    ~ entry Gmtx (4 - 1) ((4 - 1 + 1) mod 4) == 1 / (4 / inject_Z 4).
Proof.
  split; [lia|]. split; [reflexivity|].
  apply (gradient_last_row_not_periodic 4 4); [lia | reflexivity].
Defined.

(** C8 fails as stated for [Nx = 2]: with [boxsize = 2] (so [dx = 1]), row [0]
    has [2], not [1/dx^2 = 1], at column [(0-1) mod 2 = 1]. *)
Lemma laplacian_two_cells_counterexample :
  exists Gmtx Lmtx,
    create_matrices 2 2 = Ok (Gmtx, Lmtx) /\
    entry Lmtx 0 ((0 - 1) mod 2) == 2 /\
    ~ entry Lmtx 0 ((0 - 1) mod 2) == 1 / (2 / inject_Z 2) ^ 2.
Proof.
  eexists _, _. split; [reflexivity|]. split.
  - vm_compute. reflexivity.
  - vm_compute. discriminate.
Qed.

(** C8 (amended).  For [Nx >= 2] and [boxsize > 0] every row [i] of the
    Laplacian built by [create_matrices] has [-2/dx^2] on the diagonal and is
    zero away from the columns [(i-1) mod Nx], [i], [(i+1) mod Nx].  For
    [Nx >= 3] it has [+1/dx^2] at column [(i-1) mod Nx] and at column
    [(i+1) mod Nx] (so rows [0] and [Nx-1] wrap to the opposite edge); for
    [Nx = 2] these two columns are the same one and its entry is
    [+2/dx^2]. *)
Theorem laplacian_stencil (Nx : Z) (boxsize : Q) :
  (2 <= Nx)%Z -> 0 < boxsize ->
  exists Gmtx Lmtx,
    create_matrices Nx boxsize = Ok (Gmtx, Lmtx) /\
    forall i, (0 <= i < Nx)%Z ->
      entry Lmtx i i == -2 / (boxsize / inject_Z Nx) ^ 2 /\
      ((3 <= Nx)%Z ->
         entry Lmtx i ((i - 1) mod Nx) == 1 / (boxsize / inject_Z Nx) ^ 2 /\
         entry Lmtx i ((i + 1) mod Nx) == 1 / (boxsize / inject_Z Nx) ^ 2) /\
      (Nx = 2%Z ->
         ((i - 1) mod Nx = (i + 1) mod Nx)%Z /\
         entry Lmtx i ((i + 1) mod Nx) == 2 / (boxsize / inject_Z Nx) ^ 2) /\
      (forall c, (0 <= c < Nx)%Z -> c <> i ->
         c <> ((i - 1) mod Nx)%Z -> c <> ((i + 1) mod Nx)%Z -> entry Lmtx i c == 0).
Proof.
  intros HN Hb.
  exists (gradient_of Nx (mesh_dx Nx boxsize)), (laplacian_of Nx (mesh_dx Nx boxsize)).
  split; [apply create_matrices_ok; [lia | lra]|].
  fold (mesh_dx Nx boxsize). intros i Hi.
  rewrite prev_mod, next_mod by lia.
  split; [|split; [|split]].
  - rewrite entry_laplacian by lia. decide_offsets. unfold Qdiv; ring.
  - intros H3. split.
    + destruct (Z.eqb_spec i 0); rewrite entry_laplacian by lia;
        decide_offsets; unfold Qdiv; ring.
    + destruct (Z.eqb_spec i (Nx - 1)); rewrite entry_laplacian by lia;
        decide_offsets; unfold Qdiv; ring.
  - intros ->. split.
    + destruct (Z.eqb_spec i 0); destruct (Z.eqb_spec i (2 - 1)); lia.
    + destruct (Z.eqb_spec i (2 - 1)); rewrite entry_laplacian by lia;
        decide_offsets; unfold Qdiv; ring.
  - intros c Hc H1 H2 H3. rewrite entry_laplacian by lia.
    destruct (Z.eqb_spec i 0); destruct (Z.eqb_spec i (Nx - 1));
      decide_offsets; unfold Qdiv; ring.
Qed.

Lemma laplacian_stencil_witness :
  (2 <= 4)%Z /\ 0 < 4 /\
  exists Gmtx Lmtx,
    create_matrices 4 4 = Ok (Gmtx, Lmtx) /\
    entry Lmtx 0 0 == -2 / (4 / inject_Z 4) ^ 2 /\
    entry Lmtx 0 ((0 - 1) mod 4) == 1 / (4 / inject_Z 4) ^ 2 /\
    entry Lmtx 0 ((0 + 1) mod 4) == 1 / (4 / inject_Z 4) ^ 2 /\
    entry Lmtx 3 ((3 - 1) mod 4) == 1 / (4 / inject_Z 4) ^ 2 /\
    entry Lmtx 3 ((3 + 1) mod 4) == 1 / (4 / inject_Z 4) ^ 2 /\
    entry Lmtx 0 2 == 0.
Proof.
  split; [lia|]. split; [reflexivity|].
  destruct (laplacian_stencil 4 4) as (G & L & Hc & Hrows); [lia | reflexivity |].
  exists G, L. split; [exact Hc|].
  destruct (Hrows 0%Z) as (Hd0 & Hn0 & _ & Hz0); [lia|].
  destruct (Hrows 3%Z) as (_ & Hn3 & _ & _); [lia|].
  destruct Hn0 as [Hl0 Hr0]; [lia|].
  destruct Hn3 as [Hl3 Hr3]; [lia|].
  repeat (split; [assumption|]).
  apply Hz0; [lia | discriminate | vm_compute; discriminate | vm_compute; discriminate].
Defined.

(** ** The electric field on the mesh *)

Lemma zrange_of_nat (n : nat) : zrange (Z.of_nat n) = map Z.of_nat (seq 0 n).
Proof. unfold zrange. now rewrite Nat2Z.id. Qed.

Lemma sumQ_map_ext {A} (f g : A -> Q) (l : list A) :
  (forall c, In c l -> f c == g c) -> sumQ (map f l) == sumQ (map g l).
Proof.
  induction l as [|c l IH]; intros H; cbn [map sumQ]; [reflexivity|].
  rewrite H by (left; reflexivity). rewrite IH; [reflexivity|].
  intros c' Hc'. apply H. now right.
Qed.

Lemma sumQ_map_plus {A} (f g : A -> Q) (l : list A) :
  sumQ (map (fun c => f c + g c) l) == sumQ (map f l) + sumQ (map g l).
Proof. induction l as [|c l IH]; cbn [map sumQ]; [ring | rewrite IH; ring]. Qed.

Lemma in_range_spec (k m : Z) :
  ((0 <=? k) && (k <? m))%Z = true <-> (0 <= k < m)%Z.
Proof. rewrite andb_true_iff, Z.leb_le, Z.ltb_lt. tauto. Qed.

Lemma in_range_true (k m : Z) : (0 <= k < m)%Z -> ((0 <=? k) && (k <? m))%Z = true.
Proof. apply in_range_spec. Qed.

Lemma in_range_false (k m : Z) : ~ (0 <= k < m)%Z -> ((0 <=? k) && (k <? m))%Z = false.
Proof.
  intros H. destruct ((0 <=? k) && (k <? m))%Z eqn:E; [|reflexivity].
  apply in_range_spec in E. contradiction.
Qed.

Lemma sumQ_indicator (k : Z) (h : Z -> Q) (m : nat) :
  sumQ (map (fun c => if (c =? k)%Z then h c else 0) (map Z.of_nat (seq 0 m)))
  == if ((0 <=? k) && (k <? Z.of_nat m))%Z then h k else 0.
Proof.
  induction m as [|m IH].
  - cbn [seq map sumQ]. rewrite in_range_false by lia. reflexivity.
  - rewrite seq_S, !map_app, sumQ_app, IH. cbn [Nat.add map sumQ].
    destruct (Z.eqb_spec (Z.of_nat m) k) as [<-|Hne].
    + rewrite in_range_false, in_range_true by lia. ring.
    + destruct (Z_lt_dec k (Z.of_nat m)) as [Hlt|Hge];
        destruct (Z_le_dec 0 k) as [Hk|Hk].
      * rewrite !in_range_true by lia. ring.
      * rewrite !in_range_false by lia. ring.
      * rewrite !in_range_false by lia. ring.
      * rewrite !in_range_false by lia. ring.
Qed.

(** One row of the gradient applied to a vector. *)
Lemma gradient_row (n : nat) (dx : Q) (x : Z -> Q) (r : Z) :
  (0 <= r < Z.of_nat n)%Z ->
  sumQ (map (fun c => entry (gradient_of (Z.of_nat n) dx) r c * x c)
            (map Z.of_nat (seq 0 n)))
  == - (1 / dx) * x r + (if (r + 1 <? Z.of_nat n)%Z then 1 / dx * x (r + 1)%Z else 0).
Proof.
  intros Hr.
  rewrite (sumQ_map_ext _
             (fun c => (if (c =? r)%Z then - (1 / dx) * x c else 0)
                       + (if (c =? r + 1)%Z then 1 / dx * x c else 0))).
  - rewrite sumQ_map_plus, !sumQ_indicator.
    rewrite in_range_true by lia.
    destruct (Z_lt_dec (r + 1) (Z.of_nat n)) as [Hlt|Hge].
    + rewrite in_range_true by lia.
      replace (r + 1 <? Z.of_nat n)%Z with true by lia. reflexivity.
    + rewrite in_range_false by lia.
      replace (r + 1 <? Z.of_nat n)%Z with false by lia. reflexivity.
  - intros c Hc. apply in_map_iff in Hc as (i & <- & Hi). apply in_seq in Hi.
    rewrite entry_gradient by lia.
    destruct (Z.of_nat i =? r)%Z, (Z.of_nat i =? r + 1)%Z; ring.
Qed.

(** The rows telescope: all that is left is the first column. *)
Lemma gradient_rows_total (n : nat) (s : Q) (x : Z -> Q) (m : nat) :
  (1 <= n)%nat -> (m <= n)%nat ->
  sumQ (map (fun r => - s * x r
                      + (if (r + 1 <? Z.of_nat n)%Z then s * x (r + 1)%Z else 0))
            (map Z.of_nat (seq 0 m)))
  == - s * x 0%Z + (if (Z.of_nat m <? Z.of_nat n)%Z then s * x (Z.of_nat m) else 0).
Proof.
  intros Hn. induction m as [|m IH]; intros Hm.
  - cbn [seq map sumQ]. change (Z.of_nat 0) with 0%Z.
    replace (0 <? Z.of_nat n)%Z with true by lia. ring.
  - rewrite seq_S, !map_app, sumQ_app, IH by lia. cbn [Nat.add map sumQ].
    replace (Z.of_nat m <? Z.of_nat n)%Z with true by lia.
    replace (Z.of_nat m + 1)%Z with (Z.of_nat (S m)) by lia.
    destruct (Z.of_nat (S m) <? Z.of_nat n)%Z; ring.
Qed.

Lemma entry_mneg (M : spmatrix) (r c : Z) : entry (mneg M) r c == - entry M r c.
Proof.
  unfold entry, in_shape. cbn [mneg shape bands].
  destruct ((0 <=? r) && (r <? shape M) && (0 <=? c) && (c <? shape M))%Z; [|ring].
  induction (bands M) as [|[k v] l IH]; cbn [map List.filter fst snd]; [cbn; ring|].
  destruct (k =? c - r)%Z; cbn [map sumQ snd]; rewrite IH; ring.
Qed.

Lemma sumQ_map_opp {A} (f : A -> Q) (l : list A) :
  sumQ (map (fun c => - f c) l) == - sumQ (map f l).
Proof. induction l as [|c l IH]; cbn [map sumQ]; [ring | rewrite IH; ring]. Qed.

Lemma field_total (n : nat) (dx : Q) (phi : list Q) :
  (1 <= n)%nat -> length phi = n ->
  exists E,
    electric_field (gradient_of (Z.of_nat n) dx) phi = Ok E /\
    sumQ E == nth 0 phi 0 / dx.
Proof.
  intros Hn Hlen. unfold electric_field, matvec. cbn [shape mneg gradient_of].
  rewrite Hlen, Z.eqb_refl.
  eexists. split; [reflexivity|].
  fold (gradient_of (Z.of_nat n) dx). rewrite zrange_of_nat.
  rewrite (sumQ_map_ext _
      (fun r => - (- (1 / dx) * nth (Z.to_nat r) phi 0
                   + (if (r + 1 <? Z.of_nat n)%Z
                      then 1 / dx * nth (Z.to_nat (r + 1)) phi 0 else 0)))).
  - rewrite sumQ_map_opp.
    rewrite (gradient_rows_total n (1 / dx) (fun r => nth (Z.to_nat r) phi 0) n) by lia.
    rewrite Z.ltb_irrefl. change (Z.to_nat 0) with 0%nat. unfold Qdiv. ring.
  - intros r Hr. apply in_map_iff in Hr as (i & <- & Hi). apply in_seq in Hi.
    rewrite <- (gradient_row n dx (fun c => nth (Z.to_nat c) phi 0) (Z.of_nat i)) by lia.
    rewrite <- sumQ_map_opp. apply sumQ_map_ext. intros c _.
    change (entry (mneg (gradient_of (Z.of_nat n) dx)) (Z.of_nat i) c
            * nth (Z.to_nat c) phi 0
            == - (entry (gradient_of (Z.of_nat n) dx) (Z.of_nat i) c
                  * nth (Z.to_nat c) phi 0)).
    rewrite entry_mneg. ring.
Qed.

(** C4 (the code departs from the claim).  For [Nx >= 2], [boxsize > 0] and
    every potential [phi_grid] of length [Nx], the field
    [E_grid = - Gmtx @ phi_grid] exists and its entries sum to
    [phi_grid[0] / dx], which is not zero in general: column [0] of the
    gradient built by [create_matrices] sums to [-1/dx]. *)
Theorem field_sum_is_first_potential (Nx : Z) (boxsize : Q) :
  (2 <= Nx)%Z -> 0 < boxsize ->
  exists Gmtx Lmtx,
    create_matrices Nx boxsize = Ok (Gmtx, Lmtx) /\
    forall phi_grid, Z.of_nat (length phi_grid) = Nx ->
      exists E_grid,
        electric_field Gmtx phi_grid = Ok E_grid /\
        sumQ E_grid == nth 0 phi_grid 0 / (boxsize / inject_Z Nx).
Proof.
  intros HN Hb.
  exists (gradient_of Nx (mesh_dx Nx boxsize)), (laplacian_of Nx (mesh_dx Nx boxsize)).
  split; [apply create_matrices_ok; [lia | lra]|].
  intros phi Hlen. fold (mesh_dx Nx boxsize). rewrite <- Hlen.
  apply field_total; lia.
Qed.

Lemma field_sum_witness :
  (2 <= 4)%Z /\ 0 < 4 /\
  exists Gmtx Lmtx,
    create_matrices 4 4 = Ok (Gmtx, Lmtx) /\
    exists E_grid,
      electric_field Gmtx [1; 0; 0; 0] = Ok E_grid /\
      sumQ E_grid == nth 0 [1; 0; 0; 0] 0 / (4 / inject_Z 4) /\
      ~ sumQ E_grid == 0.
Proof.
  split; [lia|]. split; [reflexivity|].
  destruct (field_sum_is_first_potential 4 4) as (G & L & Hc & Hf); [lia | reflexivity |].
  exists G, L. split; [exact Hc|].
  destruct (Hf [1; 0; 0; 0] eq_refl) as (E & HE & Hs).
  exists E. split; [exact HE|]. split; [exact Hs|].
  rewrite Hs. discriminate.
Defined.

(** ** Charge deposition *)

Lemma lookup_fresh (h : list (list Q)) (v : list Q) : (h ++ [v]) !! length h = Some v.
Proof. apply list_lookup_middle. reflexivity. Qed.

Lemma insert_fresh (h : list (list Q)) (v v' : list Q) :
  <[length h := v']> (h ++ [v]) = h ++ [v'].
Proof. rewrite insert_app_r_alt by lia. rewrite Nat.sub_diag. reflexivity. Qed.

Lemma node_indices_in_range (P : list Q) (Nx : Z) (boxsize : Q) :
  (1 <= Nx)%Z -> 0 < boxsize ->
  Forall (fun p => 0 <= p /\ p < boxsize) P ->
  Forall (fun k => (0 <= k < Nx)%Z) (map (fun x => Qfloor (x / (boxsize / inject_Z Nx))) P).
Proof.
  intros HN Hb HP. pose proof (mesh_dx_pos Nx boxsize HN Hb) as Hdx. unfold mesh_dx in Hdx.
  apply Forall_map. eapply Forall_impl; [exact HP|].
  cbn. intros p [Hp0 Hp1]. apply floor_index; [exact Hdx | exact Hp0 |].
  assert (E : inject_Z Nx * (boxsize / inject_Z Nx) == boxsize).
  { field. apply inject_Z_nonzero. lia. }
  rewrite E. exact Hp1.
Qed.

Lemma wrapped_indices_in_range (x : list Z) (Nx : Z) :
  (1 <= Nx)%Z -> Forall (fun k => (0 <= k < Nx)%Z) (map (fun k => (k mod Nx)%Z) x).
Proof.
  intros HN. apply Forall_map. apply Forall_forall. intros k _. cbn.
  apply Z.mod_pos_bound. lia.
Qed.

(** The deposition run on an in-range, non-empty ensemble: it returns, the
    only change to the store is the new density array, and the array sums to
    the number of particles times the normalisation. *)
Lemma deposit_in_range (w : world) (pos : loc) (P : list Q) (Nx : Z) (boxsize n0 : Q) :
  arrays w !! pos = Some P ->
  (1 <= Nx)%Z -> 0 < boxsize -> P <> [] ->
  Forall (fun p => 0 <= p /\ p < boxsize) P ->
  exists d n,
    deposit pos Nx boxsize n0 w =
      (Ok d, {| arrays := arrays w ++ [n]; figures := figures w |}) /\
    n_ d = length (arrays w) /\
    length n = Z.to_nat Nx /\
    sumQ n == inject_Z (Z.of_nat (length P))
              * (n0 * boxsize / inject_Z (Z.of_nat (length P)) / (boxsize / inject_Z Nx)).
Proof.
  intros Hpos HN Hb Hne HP.
  pose proof (mesh_dx_pos Nx boxsize HN Hb) as Hdx. unfold mesh_dx in Hdx.
  pose proof (node_indices_in_range P Nx boxsize HN Hb HP) as Hj.
  unfold deposit. cbv [mbind prog_bind read lift]. rewrite Hpos.
  rewrite pydiv_ok by (apply inject_Z_nonzero; lia).
  set (dx := boxsize / inject_Z Nx) in *.
  set (j := map (fun x => Qfloor (x / dx)) P) in *.
  set (wj := zip_with _ (map _ j) P).
  set (wjp1 := zip_with _ P j).
  assert (Hlj : length j = length P) by (subst j; apply length_map).
  assert (Hlwj : length wj = length P).
  { subst wj. rewrite length_zip_with, length_map. lia. }
  assert (Hlwjp1 : length wjp1 = length P).
  { subst wjp1. rewrite length_zip_with. lia. }
  rewrite (bincount_in_range j wj Nx) by (try assumption; lia).
  rewrite (bincount_in_range (map _ (map _ j)) wjp1 Nx);
    [| apply wrapped_indices_in_range; lia | rewrite !length_map; lia | lia].
  cbv [new_array iadd imul mbind prog_bind read lift overwrite arrays figures].
  rewrite lookup_fresh.
  unfold broadcast_add. rewrite !scatter_add_length, Nat.eqb_refl.
  rewrite insert_fresh, lookup_fresh.
  assert (HNp : ~ inject_Z (Z.of_nat (length P)) == 0).
  { apply inject_Z_nonzero. destruct P; [congruence | cbn; lia]. }
  rewrite (pydiv_ok _ _ HNp). cbn [result_bind].
  rewrite pydiv_ok by lra.
  rewrite insert_fresh.
  eexists _, _. split; [reflexivity|]. cbn [n_]. split; [reflexivity|]. split.
  - rewrite length_map, length_zip_with, !scatter_add_length, repeat_length. lia.
  - rewrite sumQ_scale, sumQ_zip_plus by (rewrite !scatter_add_length; reflexivity).
    rewrite !sumQ_bincount_bins;
      [| apply wrapped_indices_in_range; lia | rewrite !length_map; lia
       | exact Hj | lia].
    subst wj wjp1 j. rewrite weights_total by lra. reflexivity.
Qed.

Lemma ensemble_box_positive (P : list Q) (boxsize : Q) :
  P <> [] -> Forall (fun p => 0 <= p /\ p < boxsize) P -> 0 < boxsize.
Proof.
  intros Hne HP. destruct P as [|p P]; [congruence|].
  inversion HP as [|? ? [H0 H1] _]; subst. lra.
Qed.

Lemma broadcast_add_same_length (x w : list Q) :
  length w = length x -> broadcast_add x w = Ok (zip_with Qplus x w).
Proof. intros H. unfold broadcast_add. now rewrite H, Nat.eqb_refl. Qed.

Lemma deposit_empty (w : world) (pos : loc) (Nx : Z) (boxsize n0 : Q) :
  arrays w !! pos = Some [] -> (1 <= Nx)%Z ->
  fst (deposit pos Nx boxsize n0 w) = Raise ZeroDivisionError.
Proof.
  intros Hpos HN. unfold deposit. cbv [mbind prog_bind read lift]. rewrite Hpos.
  rewrite pydiv_ok by (apply inject_Z_nonzero; lia).
  cbn [map zip_with length].
  rewrite !(bincount_in_range [] [] Nx) by (try constructor; lia).
  cbv [new_array iadd imul mbind prog_bind read lift overwrite]. cbn [arrays figures].
  rewrite lookup_fresh.
  rewrite broadcast_add_same_length by reflexivity.
  cbn [arrays figures]. rewrite pydiv_zero by reflexivity. reflexivity.
Qed.

(** Whenever the deposition returns, the ensemble is not empty and the
    density array is the one of [deposit_in_range]. *)
Lemma deposit_total_density (w : world) (pos : loc) (P : list Q)
    (Nx : Z) (boxsize n0 : Q) (d : deposited) (w' : world) :
  arrays w !! pos = Some P ->
  (1 <= Nx)%Z ->
  Forall (fun p => 0 <= p /\ p < boxsize) P ->
  deposit pos Nx boxsize n0 w = (Ok d, w') ->
  exists n,
    arrays w' !! n_ d = Some n /\
    0 < boxsize /\ ~ inject_Z (Z.of_nat (length P)) == 0 /\
    sumQ n == inject_Z (Z.of_nat (length P))
              * (n0 * boxsize / inject_Z (Z.of_nat (length P)) / (boxsize / inject_Z Nx)).
Proof.
  intros Hpos HN HP Hrun.
  assert (Hne : P <> []).
  { intros ->. pose proof (deposit_empty w pos Nx boxsize n0 Hpos HN) as He.
    rewrite Hrun in He. discriminate. }
  pose proof (ensemble_box_positive P boxsize Hne HP) as Hb.
  destruct (deposit_in_range w pos P Nx boxsize n0 Hpos HN Hb Hne HP)
    as (d0 & n & Hrun0 & Hn & _ & Hsum).
  rewrite Hrun0 in Hrun. injection Hrun as <- <-.
  exists n. split; [|split; [|split]].
  - rewrite Hn. cbn [arrays]. apply lookup_fresh.
  - exact Hb.
  - apply inject_Z_nonzero. destruct P; [congruence | cbn; lia].
  - exact Hsum.
Qed.

(** C2 fails as stated, twice.  In binary64 the total is not exactly
    [n0 * Nx]: three particles at [0], [0], [0.125] in a box of length [4]
    on [4] cells give a density that sums to [3.9999999999999996].  And the
    deposition does not return for every ensemble inside the box: for the
    position [0.9999999999999999] in a box of length [1] on [3] cells the
    quotient [pos / dx] rounds to [3 = Nx] and the in-place addition raises
    [ValueError]. *)
Lemma density_total_rounded :
  forallb (fun p => PrimFloat.leb 0 p && PrimFloat.ltb p 4) [0; 0; 0.125]%float = true /\
  (exists r,
     deposit64 [0; 0; 0.125]%float 4 4 1 = Ok r /\
     sum64 (n64 r) = 0x1.fffffffffffffp+1%float /\
     PrimFloat.eqb (sum64 (n64 r)) (PrimFloat.mul 1 (of_int64 4)) = false) /\
  PrimFloat.leb 0 0x1.fffffffffffffp-1 && PrimFloat.ltb 0x1.fffffffffffffp-1 1 = true /\
  deposit64 [0x1.fffffffffffffp-1]%float 3 1 1 = Raise ValueError.
Proof.
  split; [vm_compute; reflexivity|]. split.
  - eexists. split; [vm_compute; reflexivity|].
    split; vm_compute; reflexivity.
  - split; vm_compute; reflexivity.
Qed.

(** C2 (amended).  For every ensemble whose positions all lie in
    [[0, boxsize)], on a mesh of [Nx >= 1] cells: whenever the deposition of
    [getAcc] returns, the density array it leaves (before [n0] is
    subtracted) sums to [n0 * Nx] in exact arithmetic, whatever the
    positions are. *)
Theorem deposit_conserves_charge (w : world) (pos : loc) (P : list Q)
    (Nx : Z) (boxsize n0 : Q) (d : deposited) (w' : world) :
  arrays w !! pos = Some P ->
  (1 <= Nx)%Z ->
  Forall (fun p => 0 <= p /\ p < boxsize) P ->
  deposit pos Nx boxsize n0 w = (Ok d, w') ->
  exists n, arrays w' !! n_ d = Some n /\ sumQ n == n0 * inject_Z Nx.
Proof.
  intros Hpos HN HP Hrun.
  destruct (deposit_total_density w pos P Nx boxsize n0 d w' Hpos HN HP Hrun)
    as (n & Hn & Hb & HNp & Hsum).
  assert (HNx : ~ inject_Z Nx == 0) by (apply inject_Z_nonzero; lia).
  exists n. split; [exact Hn|].
  rewrite Hsum. field. repeat split; solve [exact HNx | exact HNp | lra].
Qed.

Lemma deposit_conserves_charge_witness :
  let w := {| arrays := [[1 # 2; 7 # 2; 3]]; figures := [] |} in
  arrays w !! 0%nat = Some [1 # 2; 7 # 2; 3] /\
  (1 <= 4)%Z /\
  Forall (fun p => 0 <= p /\ p < 4) [1 # 2; 7 # 2; 3] /\
  exists d w',
    deposit 0%nat 4 4 1 w = (Ok d, w') /\
    exists n, arrays w' !! n_ d = Some n /\ sumQ n == 1 * inject_Z 4.
Proof.
  intros w.
  assert (H1 : arrays w !! 0%nat = Some [1 # 2; 7 # 2; 3]) by reflexivity.
  assert (H2 : (1 <= 4)%Z) by lia.
  assert (H3 : Forall (fun p => 0 <= p /\ p < 4) [1 # 2; 7 # 2; 3]).
  { repeat constructor; discriminate. }
  repeat (split; [assumption|]).
  let r := eval vm_compute in (deposit 0%nat 4 4 1 w) in
  lazymatch r with
  | (Ok ?d, ?w') =>
      assert (Hrun : deposit 0%nat 4 4 1 w = (Ok d, w')) by (vm_compute; reflexivity);
      exists d, w'; split; [exact Hrun|];
      exact (deposit_conserves_charge w 0%nat _ 4 4 1 d w' H1 H2 H3 Hrun)
  end.
Defined.

(** C3 fails as stated: with the mesh of [main] ([Nx = 400], [boxsize = 50],
    [n0 = 1]) and two in-range particles the density sums to [400], not to
    [n0 * boxsize = 50]. *)
Lemma density_total_counterexample :
  let w := {| arrays := [[0; 25]]; figures := [] |} in
  Forall (fun p => 0 <= p /\ p < 50) [0; 25] /\
  exists d w' n,
    deposit 0%nat 400 50 1 w = (Ok d, w') /\
    arrays w' !! n_ d = Some n /\
    sumQ n == 400 /\
    ~ sumQ n == 1 * 50.
Proof.
  intros w. split.
  - repeat constructor; discriminate.
  - eexists _, _, _. split; [vm_compute; reflexivity|].
    split; [reflexivity|]. split; vm_compute; [reflexivity | discriminate].
Qed.

(** C3 (amended).  For every ensemble whose positions all lie in
    [[0, boxsize)], on a mesh of [Nx >= 1] cells: whenever the deposition of
    [getAcc] returns, the density array sums, in exact arithmetic, to
    [n0 * boxsize / dx] before [n0] is subtracted: it is the sum times the
    cell width [dx] that equals [n0 * boxsize]. *)
Theorem density_integrates_to_charge (w : world) (pos : loc) (P : list Q)
    (Nx : Z) (boxsize n0 : Q) (d : deposited) (w' : world) :
  arrays w !! pos = Some P ->
  (1 <= Nx)%Z ->
  Forall (fun p => 0 <= p /\ p < boxsize) P ->
  deposit pos Nx boxsize n0 w = (Ok d, w') ->
  exists n,
    arrays w' !! n_ d = Some n /\
    sumQ n == n0 * boxsize / (boxsize / inject_Z Nx) /\
    sumQ n * (boxsize / inject_Z Nx) == n0 * boxsize.
Proof.
  intros Hpos HN HP Hrun.
  destruct (deposit_total_density w pos P Nx boxsize n0 d w' Hpos HN HP Hrun)
    as (n & Hn & Hb & HNp & Hsum).
  assert (HNx : ~ inject_Z Nx == 0) by (apply inject_Z_nonzero; lia).
  exists n. split; [exact Hn|]. split.
  - rewrite Hsum. field. repeat split; solve [exact HNx | exact HNp | lra].
  - rewrite Hsum. field. repeat split; solve [exact HNx | exact HNp | lra].
Qed.

Lemma density_integrates_to_charge_witness :
  let w := {| arrays := [[0; 25]]; figures := [] |} in
  arrays w !! 0%nat = Some [0; 25] /\
  (1 <= 400)%Z /\
  Forall (fun p => 0 <= p /\ p < 50) [0; 25] /\
  exists d w',
    deposit 0%nat 400 50 1 w = (Ok d, w') /\
    exists n,
      arrays w' !! n_ d = Some n /\
      sumQ n == 1 * 50 / (50 / inject_Z 400) /\
      sumQ n * (50 / inject_Z 400) == 1 * 50.
Proof.
  intros w.
  assert (H1 : arrays w !! 0%nat = Some [0; 25]) by reflexivity.
  assert (H2 : (1 <= 400)%Z) by lia.
  assert (H3 : Forall (fun p => 0 <= p /\ p < 50) [0; 25]).
  { repeat constructor; discriminate. }
  repeat (split; [assumption|]).
  let r := eval vm_compute in (deposit 0%nat 400 50 1 w) in
  lazymatch r with
  | (Ok ?d, ?w') =>
      assert (Hrun : deposit 0%nat 400 50 1 w = (Ok d, w')) by (vm_compute; reflexivity);
      exists d, w'; split; [exact Hrun|];
      exact (density_integrates_to_charge w 0%nat _ 400 50 1 d w' H1 H2 H3 Hrun)
  end.
Defined.

(** ** A position on the right edge of the box *)

Lemma floor_at_boxsize (p boxsize : Q) (Nx : Z) :
  (1 <= Nx)%Z -> 0 < boxsize -> p == boxsize ->
  Qfloor (p / (boxsize / inject_Z Nx)) = Nx.
Proof.
  intros HN Hb Hp.
  assert (E : p / (boxsize / inject_Z Nx) == inject_Z Nx).
  { rewrite Hp. field. split; [apply inject_Z_nonzero; lia | lra]. }
  rewrite E. apply Qfloor_Z.
Qed.

Lemma max_bins_overflow (x : list Z) (m : Z) :
  Forall (fun k => (k <= m)%Z) x -> Exists (fun k => k = m) x ->
  fold_right Z.max m (map (fun k => (k + 1)%Z) x) = (m + 1)%Z.
Proof.
  intros Hall Hex. induction Hall as [|k x Hk Hall IH]; [inversion Hex|].
  cbn [map fold_right].
  assert (Hge : (m <= fold_right Z.max m (map (fun k => (k + 1)%Z) x))%Z).
  { clear. induction x as [|k x IH]; cbn [map fold_right]; lia. }
  assert (Hle : (fold_right Z.max m (map (fun k => (k + 1)%Z) x) <= m + 1)%Z).
  { clear -Hall. induction Hall as [|k x Hk Hall IH]; cbn [map fold_right]; lia. }
  inversion Hex as [? ? Hm | ? ? Hx]; subst; [lia | specialize (IH Hx); lia].
Qed.

Lemma bincount_overflow (x : list Z) (w : list Q) (m : Z) :
  Forall (fun k => (0 <= k <= m)%Z) x -> Exists (fun k => k = m) x ->
  length x = length w -> (0 <= m)%Z ->
  exists b, bincount x w m = Ok b /\ length b = Z.to_nat (m + 1).
Proof.
  intros Hx Hex Hlen Hm. unfold bincount.
  rewrite no_negative by (eapply Forall_impl; [exact Hx | cbn; intros; lia]).
  rewrite Hlen, Nat.eqb_refl. cbn [negb].
  replace (m <? 0)%Z with false by lia.
  rewrite max_bins_overflow;
    [| eapply Forall_impl; [exact Hx | cbn; intros; lia] | exact Hex].
  eexists. split; [reflexivity|].
  rewrite scatter_add_length, repeat_length. reflexivity.
Qed.

Lemma broadcast_add_mismatch (x w : list Q) :
  length w <> length x -> length w <> 1%nat -> broadcast_add x w = Raise ValueError.
Proof.
  intros H1 H2. unfold broadcast_add.
  destruct (Nat.eqb_spec (length w) (length x)); [contradiction|].
  destruct w as [|? [|? ?]]; cbn in *; congruence.
Qed.

Section AtBoxsize.

Variable spsolve : spmatrix -> list Q -> result (list Q).

(** C7 (the code departs from the claim).  When some position equals
    [boxsize] (the others lying in [[0, boxsize]]) and [Nx >= 2], the
    left-node index computed for it is [Nx], outside [0..Nx-1]: it is not
    wrapped to node [0].  The first [bincount] then has [Nx+1] bins, the
    in-place addition of the second one raises [ValueError], and so does
    [getAcc]. *)
Theorem deposit_at_boxsize_overflows (w : world) (pos : loc) (P : list Q)
    (Nx : Z) (boxsize n0 : Q) (Gmtx Lmtx : spmatrix) :
  arrays w !! pos = Some P ->
  (2 <= Nx)%Z -> 0 < boxsize ->
  Forall (fun p => 0 <= p /\ p <= boxsize) P ->
  Exists (fun p => p == boxsize) P ->
  Exists (fun k => k = Nx) (map (fun x => Qfloor (x / (boxsize / inject_Z Nx))) P) /\
  fst (deposit pos Nx boxsize n0 w) = Raise ValueError /\
  fst (getAcc spsolve pos Nx boxsize n0 Gmtx Lmtx w) = Raise ValueError.
Proof.
  intros Hpos HN Hb HP Hex.
  assert (HN1 : (1 <= Nx)%Z) by lia.
  pose proof (mesh_dx_pos Nx boxsize HN1 Hb) as Hdx. unfold mesh_dx in Hdx.
  assert (Hjex : Exists (fun k => k = Nx)
                   (map (fun x => Qfloor (x / (boxsize / inject_Z Nx))) P)).
  { clear -Hex HN1 Hb.
    induction Hex as [p P Hp | p P _ IH]; cbn [map];
      [left; now apply floor_at_boxsize | right; exact IH]. }
  assert (Hjall : Forall (fun k => (0 <= k <= Nx)%Z)
                    (map (fun x => Qfloor (x / (boxsize / inject_Z Nx))) P)).
  { apply Forall_map. eapply Forall_impl; [exact HP|]. cbv beta. intros p [Hp0 Hp1]. split.
    - change 0%Z with (Qfloor 0). apply Qfloor_resp_le.
      apply Qle_shift_div_l; [exact Hdx | lra].
    - rewrite <- (floor_at_boxsize boxsize boxsize Nx HN1 Hb) at 2 by reflexivity.
      apply Qfloor_resp_le. apply Qmult_le_compat_r; [exact Hp1|].
      apply Qlt_le_weak. now apply Qinv_lt_0_compat. }
  assert (Hdep : fst (deposit pos Nx boxsize n0 w) = Raise ValueError).
  { unfold deposit. cbv [mbind prog_bind read lift]. rewrite Hpos.
    rewrite pydiv_ok by (apply inject_Z_nonzero; lia).
    set (dx := boxsize / inject_Z Nx) in *.
    set (j := map (fun x => Qfloor (x / dx)) P) in *.
    set (wj := zip_with _ (map _ j) P).
    set (wjp1 := zip_with _ P j).
    assert (Hlj : length j = length P) by (subst j; apply length_map).
    destruct (bincount_overflow j wj Nx Hjall Hjex) as (b & -> & Hlb); [| lia |].
    { subst wj. rewrite length_zip_with, length_map. lia. }
    rewrite (bincount_in_range (map _ (map _ j)) wjp1 Nx);
      [| apply wrapped_indices_in_range; lia
       | subst wjp1; rewrite length_zip_with, !length_map; lia | lia].
    cbv [new_array iadd mbind prog_bind read lift overwrite arrays figures].
    rewrite lookup_fresh.
    rewrite broadcast_add_mismatch; [reflexivity | |];
      rewrite scatter_add_length, repeat_length; lia. }
  split; [exact Hjex|]. split; [exact Hdep|].
  unfold getAcc. cbv [mbind prog_bind].
  destruct (deposit pos Nx boxsize n0 w) as [[d|e] w']; cbn in Hdep; [discriminate|].
  cbn. congruence.
Qed.

End AtBoxsize.

Lemma deposit_at_boxsize_witness :
  let w := {| arrays := [[4]]; figures := [] |} in
  arrays w !! 0%nat = Some [4] /\
  (2 <= 4)%Z /\ 0 < 4 /\
  Forall (fun p => 0 <= p /\ p <= 4) [4] /\
  Exists (fun p => p == 4) [4] /\
  forall spsolve Gmtx Lmtx,
  Exists (fun k => k = 4%Z) (map (fun x => Qfloor (x / (4 / inject_Z 4))) [4]) /\
  fst (deposit 0%nat 4 4 1 w) = Raise ValueError /\
  fst (getAcc spsolve 0%nat 4 4 1 Gmtx Lmtx w) = Raise ValueError.
Proof.
  intros w.
  assert (H1 : arrays w !! 0%nat = Some [4]) by reflexivity.
  assert (H2 : (2 <= 4)%Z) by lia.
  assert (H3 : 0 < 4) by reflexivity.
  assert (H4 : Forall (fun p => 0 <= p /\ p <= 4) [4]).
  { repeat constructor; discriminate. }
  assert (H5 : Exists (fun p => p == 4) [4]) by (constructor; reflexivity).
  repeat (split; [assumption|]).
  intros spsolve Gmtx Lmtx.
  exact (deposit_at_boxsize_overflows spsolve w 0%nat [4] 4 4 1 Gmtx Lmtx H1 H2 H3 H4 H5).
Defined.

(** ** What [getAcc] leaves untouched *)

Lemma extends_refl w : extends w w.
Proof. split; [exists []; now rewrite app_nil_r | reflexivity]. Qed.

Lemma extends_trans w1 w2 w3 : extends w1 w2 -> extends w2 w3 -> extends w1 w3.
Proof.
  intros [[e1 H1] F1] [[e2 H2] F2]. split.
  - exists (e1 ++ e2). rewrite H2, H1. now rewrite app_assoc.
  - congruence.
Qed.

Lemma extends_alloc w v :
  extends w {| arrays := arrays w ++ [v]; figures := figures w |}.
Proof. split; [now exists [v] | reflexivity]. Qed.

Lemma frames_bind {A B} (m : prog A) (f : A -> prog B) :
  frames m -> (forall a, frames (f a)) -> frames (m ≫= f).
Proof.
  intros Hm Hf w. unfold mbind, prog_bind. specialize (Hm w).
  destruct (m w) as [[a|e] w1]; cbn [snd] in *; [|exact Hm].
  eapply extends_trans; [exact Hm | apply Hf].
Qed.

Lemma frames_lift {A} (r : result A) : frames (lift r).
Proof. intros w. apply extends_refl. Qed.

Lemma frames_read l : frames (read l).
Proof. intros w. unfold read. destruct (arrays w !! l); apply extends_refl. Qed.

Lemma frames_new_array v : frames (new_array v).
Proof. intros w. apply extends_alloc. Qed.

Lemma deposit_frame pos Nx boxsize n0 : frames (deposit pos Nx boxsize n0).
Proof.
  intros w. unfold deposit. cbv [mbind prog_bind read lift].
  destruct (arrays w !! pos) as [P|]; [|apply extends_refl].
  destruct (pydiv boxsize (inject_Z Nx)) as [dx|e]; [|apply extends_refl].
  destruct (bincount _ _ Nx) as [b|e]; [|apply extends_refl].
  cbv [new_array]. 
  destruct (bincount _ _ Nx) as [b'|e]; [|apply extends_alloc].
  cbv [iadd mbind prog_bind read lift overwrite arrays figures].
  rewrite lookup_fresh.
  destruct (broadcast_add b b') as [b''|e]; [|apply extends_alloc].
  rewrite insert_fresh.
  destruct (result_bind _ _ _ _) as [s|e]; [|apply extends_alloc].
  cbv [imul mbind prog_bind read lift overwrite arrays figures].
  rewrite lookup_fresh, insert_fresh. apply extends_alloc.
Qed.

Lemma deposit_returns pos Nx boxsize n0 w d w1 P :
  arrays w !! pos = Some P ->
  deposit pos Nx boxsize n0 w = (Ok d, w1) ->
  exists n,
    w1 = {| arrays := arrays w ++ [n]; figures := figures w |} /\
    n_ d = length (arrays w) /\
    length (j_ d) = length P /\ length (jp1_ d) = length P /\
    length (weight_j_ d) = length P /\ length (weight_jp1_ d) = length P.
Proof.
  intros Hpos. unfold deposit. cbv [mbind prog_bind read lift]. rewrite Hpos.
  destruct (pydiv boxsize (inject_Z Nx)) as [dx|e]; [|discriminate].
  destruct (bincount _ _ Nx) as [b|e]; [|discriminate].
  cbv [new_array].
  destruct (bincount _ _ Nx) as [b'|e]; [|discriminate].
  cbv [iadd mbind prog_bind read lift overwrite arrays figures].
  rewrite lookup_fresh.
  destruct (broadcast_add b b') as [b''|e]; [|discriminate].
  rewrite insert_fresh.
  destruct (result_bind _ _ _ _) as [s|e]; [|discriminate].
  cbv [imul mbind prog_bind read lift overwrite arrays figures mret prog_ret].
  rewrite lookup_fresh, insert_fresh.
  intros [= <- <-]. eexists. split; [reflexivity|]. cbn [n_ j_ jp1_ weight_j_ weight_jp1_].
  rewrite !length_zip_with, !length_map. repeat split; lia.
Qed.

Lemma take_at_length (x : list Q) (idx : list Z) : forall vs,
  take_at x idx = Ok vs -> length vs = length idx.
Proof.
  induction idx as [|i idx IH]; intros vs; cbn [take_at].
  - intros [= <-]. reflexivity.
  - cbv [mbind result_bind]. destruct (getitem x i) as [v|e]; [|discriminate].
    destruct (take_at x idx) as [vs'|e]; [|discriminate].
    intros [= <-]. cbn [length]. now rewrite (IH vs').
Qed.

Lemma interpolate_length d E a (P : list Q) :
  length (j_ d) = length P -> length (jp1_ d) = length P ->
  length (weight_j_ d) = length P -> length (weight_jp1_ d) = length P ->
  interpolate d E = Ok a -> length a = length P.
Proof.
  intros H1 H2 H3 H4. unfold interpolate. cbv [mbind result_bind].
  destruct (take_at E (j_ d)) as [Ej|e] eqn:Hj; [|discriminate].
  destruct (take_at E (jp1_ d)) as [Ejp1|e] eqn:Hjp1; [|discriminate].
  intros [= <-]. apply take_at_length in Hj, Hjp1.
  rewrite length_map, !length_zip_with. lia.
Qed.

Section GetAcc.

Variable spsolve : spmatrix -> list Q -> result (list Q).

Lemma getAcc_returns pos Nx boxsize n0 Gmtx Lmtx w a w1 P :
  arrays w !! pos = Some P ->
  getAcc spsolve pos Nx boxsize n0 Gmtx Lmtx w = (Ok a, w1) ->
  exists n acc,
    w1 = {| arrays := arrays w ++ [n; acc]; figures := figures w |} /\
    a = S (length (arrays w)) /\ length acc = length P.
Proof.
  intros Hpos. unfold getAcc. unfold mbind at 1, prog_bind at 1.
  destruct (deposit pos Nx boxsize n0 w) as [[d|e] w0] eqn:Hd; [|discriminate].
  destruct (deposit_returns _ _ _ _ _ _ _ _ Hpos Hd)
    as (n & -> & Hn & Hl1 & Hl2 & Hl3 & Hl4).
  cbv [mbind prog_bind read lift new_array arrays figures].
  rewrite Hn, lookup_fresh.
  destruct (spsolve Lmtx _) as [phi|e]; [|discriminate].
  destruct (electric_field Gmtx phi) as [E|e]; [|discriminate].
  destruct (interpolate d E) as [acc|e] eqn:Hi; [|discriminate].
  intros [= <- <-]. exists n, acc. split; [|split].
  - now rewrite <- app_assoc.
  - rewrite length_app. cbn. lia.
  - eapply interpolate_length; eassumption.
Qed.

(** C10.  For every input and whatever its outcome, [getAcc] leaves every
    array object of the store it was called in unchanged (the position array
    it is passed, the velocities and any other) and renders nothing; the
    array it returns is a new object. *)
Theorem getAcc_frame (pos : loc) (Nx : Z) (boxsize n0 : Q) (Gmtx Lmtx : spmatrix)
    (w : world) :
  (exists ext,
     arrays (snd (getAcc spsolve pos Nx boxsize n0 Gmtx Lmtx w)) = arrays w ++ ext) /\
  figures (snd (getAcc spsolve pos Nx boxsize n0 Gmtx Lmtx w)) = figures w /\
  match fst (getAcc spsolve pos Nx boxsize n0 Gmtx Lmtx w) with
  | Ok a => (length (arrays w) <= a)%nat
  | Raise _ => True
  end.
Proof.
  assert (Hframe : frames (getAcc spsolve pos Nx boxsize n0 Gmtx Lmtx)).
  { unfold getAcc.
    apply frames_bind; [apply deposit_frame | intros d].
    apply frames_bind; [apply frames_read | intros n].
    apply frames_bind; [apply frames_lift | intros phi].
    apply frames_bind; [apply frames_lift | intros E].
    apply frames_bind; [apply frames_lift | intros a].
    apply frames_new_array. }
  destruct (Hframe w) as [Hext Hfig].
  split; [exact Hext|]. split; [exact Hfig|].
  destruct (getAcc spsolve pos Nx boxsize n0 Gmtx Lmtx w) as [[a|e] w1] eqn:Hrun;
    cbn [fst]; [|exact I].
  destruct (arrays w !! pos) as [P|] eqn:Hpos.
  - destruct (getAcc_returns _ _ _ _ _ _ _ _ _ _ Hpos Hrun) as (n & acc & _ & -> & _).
    lia.
  - exfalso. unfold getAcc, deposit in Hrun. cbv [mbind prog_bind read] in Hrun.
    rewrite Hpos in Hrun. discriminate.
Qed.

End GetAcc.

(** ** One timestep *)

Section Timestep.

Variable spsolve : spmatrix -> list Q -> result (list Q).

(** C5.  One pass through the loop body, from positions [P] and velocities
    [V] held in two different arrays of the same length: if [getAcc], run on
    the store as it is before any update, returns the acceleration [acc], then
    the step returns; the new positions are [mod(P + dt*V, boxsize)] with the
    velocities [V] of before the step, the new velocities are [V + dt*acc],
    and the clock advances by [dt]. *)
Theorem timestep_order (c : config) (Gmtx Lmtx : spmatrix) (s : locals) (w : world)
    (P V : list Q) (a : loc) (w1 : world) (acc : list Q) :
  arrays w !! pos s = Some P ->
  arrays w !! vel s = Some V ->
  pos s <> vel s ->
  length P = length V ->
  getAcc spsolve (pos s) (Nx c) (boxsize c) (n0 c) Gmtx Lmtx w = (Ok a, w1) ->
  arrays w1 !! a = Some acc ->
  exists s' w',
    timestep spsolve c Gmtx Lmtx s w = (Ok s', w') /\
    arrays w' !! pos s' =
      Some (map (fun x => npmod x (boxsize c)) (zip_with Qplus P (map (Qmult (dt c)) V))) /\
    arrays w' !! vel s' = Some (zip_with Qplus V (map (Qmult (dt c)) acc)) /\
    t s' = t s + dt c.
Proof.
  intros Hpos Hvel Hne Hlen Hacc Ha.
  destruct (getAcc_returns spsolve _ _ _ _ _ _ _ _ _ _ Hpos Hacc)
    as (n & acc' & -> & -> & Hlacc).
  pose proof (lookup_lt_Some _ _ _ Hpos) as Hp_lt.
  pose proof (lookup_lt_Some _ _ _ Hvel) as Hv_lt.
  cbn [arrays] in Ha.
  assert (acc' = acc) as ->.
  { rewrite (lookup_app_r (arrays w) [n; acc']) in Ha by lia.
    replace (S (length (arrays w)) - length (arrays w))%nat with 1%nat in Ha by lia.
    cbn in Ha. congruence. }
  unfold timestep. unfold mbind at 1, prog_bind at 1. rewrite Hacc.
  set (h1 := arrays w ++ [n; acc]).
  assert (H1p : h1 !! pos s = Some P) by (subst h1; rewrite lookup_app_l; assumption).
  assert (H1v : h1 !! vel s = Some V) by (subst h1; rewrite lookup_app_l; assumption).
  assert (H1a : h1 !! S (length (arrays w)) = Some acc) by exact Ha.
  assert (Hl1 : length h1 = S (S (length (arrays w)))).
  { subst h1. rewrite length_app. cbn. lia. }
  clearbody h1.
  cbv [mbind prog_bind read iadd lift overwrite]. cbn [arrays figures].
  rewrite H1v. cbn [arrays figures]. rewrite H1p.
  rewrite broadcast_add_same_length by (rewrite length_map; lia).
  set (P' := zip_with Qplus P (map (Qmult (dt c)) V)). cbn [arrays figures].
  rewrite (list_lookup_insert_ne h1 (pos s) (S (length (arrays w)))) by lia.
  rewrite H1a. cbn [arrays figures].
  rewrite (list_lookup_insert_ne h1 (pos s) (vel s)) by exact Hne. rewrite H1v.
  rewrite broadcast_add_same_length by (rewrite length_map; lia).
  set (V' := zip_with Qplus V (map (Qmult (dt c)) acc)). cbn [arrays figures].
  rewrite (list_lookup_insert_ne _ (vel s) (pos s)) by congruence.
  rewrite (list_lookup_insert_eq h1 (pos s)) by lia.
  cbv [new_array]. cbn [arrays figures].
  set (h2 := <[vel s := V']> (<[pos s := P']> h1)).
  assert (Hv2 : h2 !! vel s = Some V').
  { subst h2. apply list_lookup_insert_eq. rewrite length_insert. lia. }
  assert (Hl2 : (vel s < length h2)%nat).
  { subst h2. rewrite !length_insert. lia. }
  clearbody h2.
  destruct (plotRealTime c).
  - cbv [plot_data mbind prog_bind read render]. cbn [arrays figures].
    rewrite lookup_fresh. cbn [arrays figures].
    rewrite lookup_app_l by exact Hl2. rewrite Hv2.
    cbv [mret prog_ret]. eexists _, _. split; [reflexivity|].
    cbn [pos vel t arrays]. rewrite lookup_fresh.
    rewrite lookup_app_l by exact Hl2. auto.
  - cbv [mret prog_ret]. eexists _, _. split; [reflexivity|].
    cbn [pos vel t arrays]. rewrite lookup_fresh.
    rewrite lookup_app_l by exact Hl2. auto.
Qed.

End Timestep.

Lemma bind_returns {A B} (m : prog A) (f : A -> prog B) (w : world) b w' :
  (m ≫= f) w = (Ok b, w') ->
  exists a w1, m w = (Ok a, w1) /\ f a w1 = (Ok b, w').
Proof.
  unfold mbind, prog_bind. destruct (m w) as [[a|e] w1]; [|discriminate].
  intros H. now exists a, w1.
Qed.

Lemma plot_data_arrays p v tm b n w r w' :
  plot_data p v tm b n w = (r, w') -> arrays w' = arrays w.
Proof.
  unfold plot_data. cbv [mbind prog_bind read render].
  destruct (arrays w !! p); [|now intros [= _ <-]].
  destruct (arrays w !! v); now intros [= _ <-].
Qed.

(** ** The wrap in binary64 *)

(** C6.  The wrap of line 90 does not keep the positions below [boxsize].
    With the parameters of [main] and a particle drawn at position [0] with
    the normal draw [-3.0000000000000004], the velocity is
    [vth * g + vb = -2^-51], the first pass moves the particle to
    [-2^-51], and [np.mod] returns [50.0], the box length itself.  The first
    deposition returns; the deposition of the second pass, on the wrapped
    position, raises [ValueError]. *)
Theorem wrap_returns_boxsize :
  let pos0 := [PrimFloat.mul 0 50] in
  let vel0 := [PrimFloat.add (PrimFloat.mul 1 (-0x1.8000000000001p+1)) 3] in
  let raw := drift64 pos0 vel0 1 in
  raw = [(-0x1p-51)%float] /\
  wrap64 raw 50 = [50%float] /\
  forallb (fun p => PrimFloat.ltb p 50) (wrap64 raw 50) = false /\
  (exists r, deposit64 pos0 400 50 1 = Ok r) /\
  deposit64 (wrap64 raw 50) 400 50 1 = Raise ValueError.
Proof.
  cbv zeta. split; [vm_compute; reflexivity|]. split; [vm_compute; reflexivity|].
  split; [vm_compute; reflexivity|]. split.
  - eexists. vm_compute. reflexivity.
  - vm_compute. reflexivity.
Qed.

(** ** The driver *)

Section Driver.

Variable spsolve : spmatrix -> list Q -> result (list Q).
Variable uniform_samples : nat -> list Q.
Variable normal_samples : nat -> list Q.


Lemma timestep_time c Gmtx Lmtx s w s' w' :
  timestep spsolve c Gmtx Lmtx s w = (Ok s', w') -> t s' = t s + dt c.
Proof.
  unfold timestep. intros H.
  do 8 (apply bind_returns in H as (? & ? & _ & H)).
  cbv [mret prog_ret] in H. now injection H as <- _.
Qed.





Lemma main_negative_N fuel c :
  (N c < 0)%Z ->
  fst (main_with spsolve uniform_samples normal_samples fuel c empty_world)
  = Raise ValueError.
Proof.
  intros HN. unfold main_with, np_random.
  replace (N c <? 0)%Z with true by lia. reflexivity.
Qed.

Lemma main_zero_Nx fuel c :
  (0 <= N c)%Z -> Nx c = 0%Z ->
  fst (main_with spsolve uniform_samples normal_samples fuel c empty_world)
  = Raise ZeroDivisionError.
Proof.
  intros HN HNx. unfold main_with, np_random.
  replace (N c <? 0)%Z with false by lia.
  unfold create_matrices. rewrite HNx. rewrite pydiv_zero by reflexivity. reflexivity.
Qed.

End Driver.

(** ** Concrete runs *)

Lemma timestep_order_witness :
  let s := {| pos := 0%nat; vel := 1%nat; t := 0 |} in
  let G := gradient_of 4 1 in
  let L := laplacian_of 4 1 in
  exists a w1 acc,
    getAcc zero_potential (pos s) (Nx small_config) (boxsize small_config)
           (n0 small_config) G L uniform_world = (Ok a, w1) /\
    arrays w1 !! a = Some acc /\
    exists s' w',
      timestep zero_potential small_config G L s uniform_world = (Ok s', w') /\
      arrays w' !! pos s' =
        Some (map (fun x => npmod x (boxsize small_config))
                  (zip_with Qplus [1 # 2; 3 # 2; 5 # 2; 7 # 2]
                            (map (Qmult (dt small_config)) [3; -11; 9; 3]))) /\
      arrays w' !! vel s' =
        Some (zip_with Qplus [3; -11; 9; 3] (map (Qmult (dt small_config)) acc)) /\
      t s' = t s + dt small_config.
Proof.
  intros s G L.
  let r := eval vm_compute in
    (getAcc zero_potential 0%nat 4 4 1 G L uniform_world) in
  lazymatch r with
  | (Ok ?a, ?w1) =>
      assert (Hacc : getAcc zero_potential (pos s) (Nx small_config)
                       (boxsize small_config) (n0 small_config) G L uniform_world
                     = (Ok a, w1)) by (vm_compute; reflexivity);
      let o := eval vm_compute in (arrays w1 !! a) in
      lazymatch o with
      | Some ?acc =>
          assert (Ha : arrays w1 !! a = Some acc) by (vm_compute; reflexivity);
          exists a, w1, acc; split; [exact Hacc|]; split; [exact Ha|];
          refine (timestep_order zero_potential small_config G L s uniform_world
                    [1 # 2; 3 # 2; 5 # 2; 7 # 2] [3; -11; 9; 3] a w1 acc
                    _ _ _ _ Hacc Ha);
          [reflexivity | reflexivity | discriminate | reflexivity]
      end
  end.
Defined.


(** ** Further properties: the operators of [create_matrices] *)

Lemma pydiv_raises (a b : Q) : pydiv a b = Raise ZeroDivisionError \/ pydiv a b = Ok (a / b).
Proof. unfold pydiv. destruct (Qeq_bool b 0); auto. Qed.

Lemma mesh_dx_zero (Nx : Z) (boxsize : Q) : boxsize == 0 -> boxsize / inject_Z Nx == 0.
Proof. intros ->. unfold Qdiv. ring. Qed.




Lemma in_shape_sym (M : spmatrix) (r c : Z) : in_shape M r c = in_shape M c r.
Proof.
  unfold in_shape.
  destruct (0 <=? r)%Z, (r <? shape M)%Z, (0 <=? c)%Z, (c <? shape M)%Z; reflexivity.
Qed.

Lemma in_shape_range (M : spmatrix) (r c : Z) :
  in_shape M r c = true -> (0 <= r < shape M)%Z /\ (0 <= c < shape M)%Z.
Proof.
  unfold in_shape. rewrite !andb_true_iff, !Z.leb_le, !Z.ltb_lt. tauto.
Qed.

(** X2.  With [Nx >= 2] and [boxsize <> 0] the Laplacian [create_matrices]
    returns is symmetric. *)
Theorem laplacian_symmetric (Nx : Z) (boxsize : Q) :
  (2 <= Nx)%Z -> ~ boxsize == 0 ->
  exists Gmtx Lmtx,
    create_matrices Nx boxsize = Ok (Gmtx, Lmtx) /\
    forall r c, entry Lmtx r c == entry Lmtx c r.
Proof.
  intros HN Hb.
  exists (gradient_of Nx (mesh_dx Nx boxsize)), (laplacian_of Nx (mesh_dx Nx boxsize)).
  split; [now apply create_matrices_ok|].
  intros r c.
  destruct (in_shape (laplacian_of Nx (mesh_dx Nx boxsize)) r c) eqn:Hin.
  - apply in_shape_range in Hin as [Hr Hc]. cbn [shape laplacian_of] in Hr, Hc.
    rewrite !entry_laplacian by assumption.
    decide_offsets; ring.
  - unfold entry. rewrite (in_shape_sym _ c r), Hin. reflexivity.
Qed.

Lemma laplacian_symmetric_witness :
  (2 <= 4)%Z /\ ~ 4 == 0 /\
  exists Gmtx Lmtx,
    create_matrices 4 4 = Ok (Gmtx, Lmtx) /\
    entry Lmtx 0 3 == entry Lmtx 3 0 /\ entry Lmtx 1 2 == entry Lmtx 2 1.
Proof.
  split; [lia|]. split; [discriminate|].
  destruct (laplacian_symmetric 4 4) as (G & L & Hc & Hs); [lia | discriminate |].
  exists G, L. auto.
Defined.

Lemma nth_map_range (f : Z -> Q) (n i : nat) :
  (i < n)%nat -> nth i (map f (map Z.of_nat (seq 0 n))) 0 = f (Z.of_nat i).
Proof.
  intros Hi. rewrite map_map.
  rewrite (nth_indep _ 0 ((fun x => f (Z.of_nat x)) 0%nat))
    by (rewrite length_map, length_seq; exact Hi).
  rewrite (map_nth (fun x => f (Z.of_nat x))). rewrite seq_nth by exact Hi.
  reflexivity.
Qed.

Lemma electric_field_rows (n : nat) (dx : Q) (phi : list Q) :
  length phi = n ->
  exists E,
    electric_field (gradient_of (Z.of_nat n) dx) phi = Ok E /\
    length E = n /\
    forall i, (i < n)%nat ->
      nth i E 0 ==
      1 / dx * nth i phi 0
      - (if (Z.of_nat i + 1 <? Z.of_nat n)%Z then 1 / dx * nth (S i) phi 0 else 0).
Proof.
  intros Hlen. unfold electric_field, matvec. cbn [shape mneg gradient_of].
  rewrite Hlen, Z.eqb_refl.
  eexists. split; [reflexivity|].
  fold (gradient_of (Z.of_nat n) dx). rewrite zrange_of_nat. split.
  - rewrite !length_map, length_seq. reflexivity.
  - intros i Hi.
    rewrite (nth_map_range
               (fun r => sumQ (map (fun c => entry (mneg (gradient_of (Z.of_nat n) dx)) r c
                                             * nth (Z.to_nat c) phi 0)
                                   (map Z.of_nat (seq 0 n))))) by exact Hi.
    rewrite (sumQ_map_ext _
               (fun c => - (entry (gradient_of (Z.of_nat n) dx) (Z.of_nat i) c
                            * nth (Z.to_nat c) phi 0))).
    + rewrite sumQ_map_opp.
      rewrite (gradient_row n dx (fun c => nth (Z.to_nat c) phi 0) (Z.of_nat i)) by lia.
      rewrite Nat2Z.id. replace (Z.to_nat (Z.of_nat i + 1)) with (S i) by lia.
      destruct (Z.of_nat i + 1 <? Z.of_nat n)%Z; ring.
    + intros c _. rewrite entry_mneg. ring.
Qed.

(** X5.  With the gradient of [create_matrices], line 46 gives at every
    node but the last the forward difference
    [E[i] = -(phi[i+1] - phi[i]) / dx], and at the last node
    [E[Nx-1] = phi[Nx-1] / dx], with no term of the first node. *)
Theorem electric_field_forward_difference (Nx : Z) (boxsize : Q) :
  (2 <= Nx)%Z -> ~ boxsize == 0 ->
  exists Gmtx Lmtx,
    create_matrices Nx boxsize = Ok (Gmtx, Lmtx) /\
    forall phi_grid, Z.of_nat (length phi_grid) = Nx ->
      exists E_grid,
        electric_field Gmtx phi_grid = Ok E_grid /\
        Z.of_nat (length E_grid) = Nx /\
        (forall i, (S i < length phi_grid)%nat ->
           nth i E_grid 0 ==
           - ((nth (S i) phi_grid 0 - nth i phi_grid 0) / (boxsize / inject_Z Nx))) /\
        (forall i, S i = length phi_grid ->
           nth i E_grid 0 == nth i phi_grid 0 / (boxsize / inject_Z Nx)).
Proof.
  intros HN Hb.
  exists (gradient_of Nx (mesh_dx Nx boxsize)), (laplacian_of Nx (mesh_dx Nx boxsize)).
  split; [now apply create_matrices_ok|].
  intros phi Hlen. fold (mesh_dx Nx boxsize). subst Nx.
  destruct (electric_field_rows (length phi) (mesh_dx (Z.of_nat (length phi)) boxsize)
              phi eq_refl)
    as (E & HE & HlE & Hrows).
  exists E. split; [exact HE|]. split; [now rewrite HlE|]. split.
  - intros i Hi. rewrite Hrows by lia.
    replace (Z.of_nat i + 1 <? Z.of_nat (length phi))%Z with true by lia.
    unfold Qdiv. ring.
  - intros i Hi. rewrite Hrows by lia.
    replace (Z.of_nat i + 1 <? Z.of_nat (length phi))%Z with false by lia.
    unfold Qdiv. ring.
Qed.

Lemma electric_field_forward_difference_witness :
  (2 <= 4)%Z /\ ~ 4 == 0 /\
  exists Gmtx Lmtx,
    create_matrices 4 4 = Ok (Gmtx, Lmtx) /\
    exists E_grid,
      electric_field Gmtx [5; 7; 4; 9] = Ok E_grid /\
      Z.of_nat (length E_grid) = 4%Z /\
      nth 0 E_grid 0 == - ((7 - 5) / (4 / inject_Z 4)) /\
      nth 3 E_grid 0 == 9 / (4 / inject_Z 4).
Proof.
  split; [lia|]. split; [discriminate|].
  destruct (electric_field_forward_difference 4 4) as (G & L & Hc & Hf);
    [lia | discriminate |].
  exists G, L. split; [exact Hc|].
  destruct (Hf [5; 7; 4; 9] eq_refl) as (E & HE & Hl & Hin & Hlast).
  exists E. split; [exact HE|]. split; [exact Hl|]. split.
  - apply (Hin 0%nat). cbn. lia.
  - apply (Hlast 3%nat). reflexivity.
Defined.

(** One row of the Laplacian applied to a vector: the cyclic second
    difference. *)
Lemma laplacian_row (n : nat) (dx : Q) (x : Z -> Q) (r : Z) :
  (2 <= n)%nat -> (0 <= r < Z.of_nat n)%Z ->
  sumQ (map (fun c => entry (laplacian_of (Z.of_nat n) dx) r c * x c)
            (map Z.of_nat (seq 0 n)))
  == 1 / dx ^ 2
     * ((if (1 <=? r)%Z then x (r - 1)%Z else x (Z.of_nat n - 1)%Z)
        - 2 * x r
        + (if (r + 1 <? Z.of_nat n)%Z then x (r + 1)%Z else x 0%Z)).
Proof.
  intros Hn Hr.
  rewrite (sumQ_map_ext _
     (fun c => (if (c =? r - 1)%Z then 1 / dx ^ 2 * x c else 0)
               + ((if (c =? r)%Z then - 2 / dx ^ 2 * x c else 0)
                  + ((if (c =? r + 1)%Z then 1 / dx ^ 2 * x c else 0)
                     + ((if (c =? r - Z.of_nat n + 1)%Z then 1 / dx ^ 2 * x c else 0)
                        + (if (c =? r + Z.of_nat n - 1)%Z
                           then 1 / dx ^ 2 * x c else 0)))))).
  - rewrite !sumQ_map_plus, !sumQ_indicator.
    rewrite (in_range_true r) by lia.
    destruct (Z.eq_dec r 0) as [->|Hr0].
    + rewrite (in_range_false (0 - 1)) by lia.
      rewrite (in_range_true (0 + 1)) by lia.
      rewrite (in_range_false (0 - Z.of_nat n + 1)) by lia.
      rewrite (in_range_true (0 + Z.of_nat n - 1)) by lia.
      replace (1 <=? 0)%Z with false by lia.
      replace (0 + 1 <? Z.of_nat n)%Z with true by lia.
      replace (0 + Z.of_nat n - 1)%Z with (Z.of_nat n - 1)%Z by lia.
      unfold Qdiv. ring.
    + rewrite (in_range_true (r - 1)) by lia.
      rewrite (in_range_false (r + Z.of_nat n - 1)) by lia.
      replace (1 <=? r)%Z with true by lia.
      destruct (Z.eq_dec r (Z.of_nat n - 1)) as [->|Hr1].
      * rewrite (in_range_false (Z.of_nat n - 1 + 1)) by lia.
        rewrite (in_range_true (Z.of_nat n - 1 - Z.of_nat n + 1)) by lia.
        replace (Z.of_nat n - 1 + 1 <? Z.of_nat n)%Z with false by lia.
        replace (Z.of_nat n - 1 - Z.of_nat n + 1)%Z with 0%Z by lia.
        unfold Qdiv. ring.
      * rewrite (in_range_true (r + 1)) by lia.
        rewrite (in_range_false (r - Z.of_nat n + 1)) by lia.
        replace (r + 1 <? Z.of_nat n)%Z with true by lia.
        unfold Qdiv. ring.
  - intros c Hc. apply in_map_iff in Hc as (i & <- & Hi). apply in_seq in Hi.
    rewrite entry_laplacian by lia.
    decide_offsets; ring.
Qed.

Lemma forall_rows (P : Q -> Prop) (f : Z -> Q) (n : nat) :
  (forall r, (0 <= r < Z.of_nat n)%Z -> P (f r)) ->
  Forall P (map f (map Z.of_nat (seq 0 n))).
Proof.
  intros H. rewrite map_map. apply Forall_map.
  apply List.Forall_forall. intros i Hi. apply in_seq in Hi. apply H. lia.
Qed.

Lemma nth_constant (k : Q) (n : nat) (c : Z) :
  (0 <= c < Z.of_nat n)%Z -> nth (Z.to_nat c) (repeat k n) 0 = k.
Proof. intros Hc. apply nth_repeat_lt. lia. Qed.

Lemma laplacian_constant (n : nat) (dx k : Q) :
  (2 <= n)%nat ->
  exists z,
    matvec (laplacian_of (Z.of_nat n) dx) (repeat k n) = Ok z /\
    length z = n /\ Forall (fun v => v == 0) z.
Proof.
  intros Hn. unfold matvec. cbn [shape laplacian_of].
  rewrite repeat_length, Z.eqb_refl.
  eexists. split; [reflexivity|].
  fold (laplacian_of (Z.of_nat n) dx). rewrite zrange_of_nat. split.
  - rewrite !length_map, length_seq. reflexivity.
  - apply forall_rows. intros r Hr.
    rewrite (laplacian_row n dx (fun c => nth (Z.to_nat c) (repeat k n) 0) r) by lia.
    rewrite (nth_constant k n r) by lia.
    rewrite (nth_constant k n 0) by lia.
    rewrite (nth_constant k n (Z.of_nat n - 1)) by lia.
    destruct (Z.leb_spec 1 r), (Z.ltb_spec (r + 1) (Z.of_nat n));
      rewrite ?(nth_constant k n (r - 1)), ?(nth_constant k n (r + 1)) by lia; ring.
Qed.

(** X3.  The Laplacian of [create_matrices] sends every constant potential
    to the zero vector: the matrix handed to [spsolve] is singular. *)
Theorem laplacian_annihilates_constants (Nx : Z) (boxsize k : Q) :
  (2 <= Nx)%Z -> ~ boxsize == 0 ->
  exists Gmtx Lmtx,
    create_matrices Nx boxsize = Ok (Gmtx, Lmtx) /\
    exists z,
      matvec Lmtx (repeat k (Z.to_nat Nx)) = Ok z /\
      Z.of_nat (length z) = Nx /\ Forall (fun v => v == 0) z.
Proof.
  intros HN Hb.
  exists (gradient_of Nx (mesh_dx Nx boxsize)), (laplacian_of Nx (mesh_dx Nx boxsize)).
  split; [now apply create_matrices_ok|].
  destruct (laplacian_constant (Z.to_nat Nx) (mesh_dx Nx boxsize) k) as (z & Hz & Hl & H0);
    [lia|].
  rewrite Z2Nat.id in Hz by lia.
  exists z. split; [exact Hz|]. split; [lia | exact H0].
Qed.

Lemma laplacian_annihilates_constants_witness :
  (2 <= 4)%Z /\ ~ 4 == 0 /\
  exists Gmtx Lmtx,
    create_matrices 4 4 = Ok (Gmtx, Lmtx) /\
    exists z,
      matvec Lmtx (repeat 7 (Z.to_nat 4)) = Ok z /\
      Z.of_nat (length z) = 4%Z /\ Forall (fun v => v == 0) z.
Proof.
  split; [lia|]. split; [discriminate|].
  apply (laplacian_annihilates_constants 4 4 7); [lia | discriminate].
Defined.

Lemma sumQ_scale_l {A} (s : Q) (f : A -> Q) (l : list A) :
  sumQ (map (fun r => s * f r) l) == s * sumQ (map f l).
Proof. induction l as [|c l IH]; cbn [map sumQ]; [ring | rewrite IH; ring]. Qed.

Lemma sumQ_map_minus {A} (f g : A -> Q) (l : list A) :
  sumQ (map (fun c => f c - g c) l) == sumQ (map f l) - sumQ (map g l).
Proof. induction l as [|c l IH]; cbn [map sumQ]; [ring | rewrite IH; ring]. Qed.

(** Summing the left neighbours around the ring. *)
Lemma sum_shift_down (x : Z -> Q) (a : Q) (m : nat) :
  sumQ (map (fun r => if (1 <=? r)%Z then x (r - 1)%Z else a)
            (map Z.of_nat (seq 0 (S m))))
  == a + sumQ (map x (map Z.of_nat (seq 0 m))).
Proof.
  induction m as [|m IH].
  - cbn [seq map sumQ]. change (1 <=? Z.of_nat 0)%Z with false. cbv iota. ring.
  - rewrite seq_S, !map_app, sumQ_app, IH.
    rewrite (seq_S m), !map_app, sumQ_app. cbn [Nat.add map sumQ].
    replace (1 <=? Z.of_nat (S m))%Z with true by (symmetry; apply Z.leb_le; lia).
    replace (Z.of_nat (S m) - 1)%Z with (Z.of_nat m) by lia. ring.
Qed.

(** Summing the right neighbours around the ring. *)
Lemma sum_shift_up (x : Z -> Q) (n m : nat) :
  (m < n)%nat ->
  sumQ (map (fun r => if (r + 1 <? Z.of_nat n)%Z then x (r + 1)%Z else x 0%Z)
            (map Z.of_nat (seq 0 m)))
  + x 0%Z
  == sumQ (map x (map Z.of_nat (seq 0 (S m)))).
Proof.
  induction m as [|m IH]; intros Hm.
  - cbn [seq map sumQ]. change (Z.of_nat 0) with 0%Z. ring.
  - rewrite seq_S, !map_app, sumQ_app. cbn [Nat.add map sumQ].
    rewrite (seq_S (S m)), !map_app, sumQ_app. cbn [Nat.add map sumQ].
    rewrite <- IH by lia.
    replace (Z.of_nat m + 1 <? Z.of_nat n)%Z with true by (symmetry; apply Z.ltb_lt; lia).
    replace (Z.of_nat m + 1)%Z with (Z.of_nat (S m)) by lia. ring.
Qed.

Lemma sum_ring_neighbours (x : Z -> Q) (n : nat) :
  (1 <= n)%nat ->
  sumQ (map (fun r => (if (1 <=? r)%Z then x (r - 1)%Z else x (Z.of_nat n - 1)%Z)
                      - 2 * x r
                      + (if (r + 1 <? Z.of_nat n)%Z then x (r + 1)%Z else x 0%Z))
            (map Z.of_nat (seq 0 n)))
  == 0.
Proof.
  intros Hn. destruct n as [|m]; [lia|].
  rewrite (sumQ_map_plus
             (fun r => (if (1 <=? r)%Z then x (r - 1)%Z else x (Z.of_nat (S m) - 1)%Z)
                       - 2 * x r)).
  rewrite (sumQ_map_minus
             (fun r => if (1 <=? r)%Z then x (r - 1)%Z else x (Z.of_nat (S m) - 1)%Z)).
  rewrite (sumQ_scale_l 2 x).
  rewrite sum_shift_down.
  pose proof (sum_shift_up x (S m) m ltac:(lia)) as Hup.
  rewrite !(seq_S m), !map_app, !sumQ_app in *. cbn [Nat.add map sumQ] in *.
  replace (Z.of_nat m + 1 <? Z.of_nat (S m))%Z with false
    by (symmetry; apply Z.ltb_ge; lia).
  replace (Z.of_nat (S m) - 1)%Z with (Z.of_nat m) by lia.
  set (A := sumQ (map _ (map Z.of_nat (seq 0 m)))) in *.
  set (B := sumQ (map x (map Z.of_nat (seq 0 m)))) in *.
  lra.
Qed.

Lemma laplacian_total (n : nat) (dx : Q) (phi : list Q) :
  (2 <= n)%nat -> length phi = n ->
  exists b,
    matvec (laplacian_of (Z.of_nat n) dx) phi = Ok b /\
    length b = n /\ sumQ b == 0.
Proof.
  intros Hn Hlen. unfold matvec. cbn [shape laplacian_of].
  rewrite Hlen, Z.eqb_refl.
  eexists. split; [reflexivity|].
  fold (laplacian_of (Z.of_nat n) dx). rewrite zrange_of_nat. split.
  - rewrite !length_map, length_seq. reflexivity.
  - rewrite (sumQ_map_ext _
       (fun r => 1 / dx ^ 2
                 * ((if (1 <=? r)%Z then nth (Z.to_nat (r - 1)) phi 0
                     else nth (Z.to_nat (Z.of_nat n - 1)) phi 0)
                    - 2 * nth (Z.to_nat r) phi 0
                    + (if (r + 1 <? Z.of_nat n)%Z then nth (Z.to_nat (r + 1)) phi 0
                       else nth (Z.to_nat 0) phi 0)))).
    + rewrite (sumQ_scale_l (1 / dx ^ 2)).
      rewrite (sum_ring_neighbours (fun c => nth (Z.to_nat c) phi 0) n) by lia. ring.
    + intros r Hr. apply in_map_iff in Hr as (i & <- & Hi). apply in_seq in Hi.
      apply (laplacian_row n dx (fun c => nth (Z.to_nat c) phi 0) (Z.of_nat i)); lia.
Qed.

(** X4.  The entries of [Lmtx @ phi] sum to zero for every potential of
    [Nx] entries: only right-hand sides of zero sum have a solution. *)
Theorem laplacian_image_sums_to_zero (Nx : Z) (boxsize : Q) :
  (2 <= Nx)%Z -> ~ boxsize == 0 ->
  exists Gmtx Lmtx,
    create_matrices Nx boxsize = Ok (Gmtx, Lmtx) /\
    forall phi_grid, Z.of_nat (length phi_grid) = Nx ->
      exists b,
        matvec Lmtx phi_grid = Ok b /\
        Z.of_nat (length b) = Nx /\ sumQ b == 0.
Proof.
  intros HN Hb.
  exists (gradient_of Nx (mesh_dx Nx boxsize)), (laplacian_of Nx (mesh_dx Nx boxsize)).
  split; [now apply create_matrices_ok|].
  intros phi Hlen. subst Nx.
  destruct (laplacian_total (length phi) (mesh_dx (Z.of_nat (length phi)) boxsize) phi)
    as (b & Hm & Hl & Hs); [lia | reflexivity |].
  exists b. split; [exact Hm|]. split; [now rewrite Hl | exact Hs].
Qed.

Lemma laplacian_image_sums_to_zero_witness :
  (2 <= 4)%Z /\ ~ 4 == 0 /\
  exists Gmtx Lmtx,
    create_matrices 4 4 = Ok (Gmtx, Lmtx) /\
    exists b,
      matvec Lmtx [5; 7; 4; 9] = Ok b /\
      Z.of_nat (length b) = 4%Z /\ sumQ b == 0.
Proof.
  split; [lia|]. split; [discriminate|].
  destruct (laplacian_image_sums_to_zero 4 4) as (G & L & Hc & Hf);
    [lia | discriminate |].
  exists G, L. split; [exact Hc|]. exact (Hf [5; 7; 4; 9] eq_refl).
Defined.

(** ** Further properties: the deposition and the gather *)

Lemma pydiv_returns (a b q : Q) : pydiv a b = Ok q -> ~ b == 0 /\ q = a / b.
Proof.
  unfold pydiv. destruct (Qeq_bool b 0) eqn:E; [discriminate|].
  intros [= <-]. split; [|reflexivity].
  intros H. apply Qeq_bool_iff in H. congruence.
Qed.

(** Everything a returning deposition has computed. *)
Lemma deposit_inversion pos Nx boxsize n0 w d w' :
  deposit pos Nx boxsize n0 w = (Ok d, w') ->
  exists P b b' b2,
    arrays w !! pos = Some P /\
    ~ inject_Z Nx == 0 /\ ~ boxsize / inject_Z Nx == 0 /\
    ~ inject_Z (Z.of_nat (length P)) == 0 /\
    j_ d = map (fun x => Qfloor (x / (boxsize / inject_Z Nx))) P /\
    jp1_ d = map (fun k => (k mod Nx)%Z) (map (fun k => (k + 1)%Z) (j_ d)) /\
    weight_j_ d =
      zip_with (fun k x => (inject_Z k * (boxsize / inject_Z Nx) - x)
                           / (boxsize / inject_Z Nx))
               (map (fun k => (k + 1)%Z) (j_ d)) P /\
    weight_jp1_ d =
      zip_with (fun x k => (x - inject_Z k * (boxsize / inject_Z Nx))
                           / (boxsize / inject_Z Nx))
               P (j_ d) /\
    bincount (j_ d) (weight_j_ d) Nx = Ok b /\
    bincount (jp1_ d) (weight_jp1_ d) Nx = Ok b' /\
    broadcast_add b b' = Ok b2 /\
    n_ d = length (arrays w) /\
    w' = {| arrays := arrays w
                      ++ [map (fun a => a * (n0 * boxsize / inject_Z (Z.of_nat (length P))
                                             / (boxsize / inject_Z Nx))) b2];
            figures := figures w |}.
Proof.
  unfold deposit. cbv [mbind prog_bind read lift].
  destruct (arrays w !! pos) as [P|]; [|discriminate].
  destruct (pydiv boxsize (inject_Z Nx)) as [dx|e] eqn:Hdx; [|discriminate].
  apply pydiv_returns in Hdx as [HNx ->].
  destruct (bincount _ _ Nx) as [b|e] eqn:Hb; [|discriminate].
  cbv [new_array].
  destruct (bincount _ _ Nx) as [b'|e] eqn:Hb' in |- *; [|discriminate].
  cbv [iadd mbind prog_bind read lift overwrite]. cbn [arrays figures].
  rewrite lookup_fresh.
  destruct (broadcast_add b b') as [b2|e] eqn:Hb2; [|discriminate].
  cbn [arrays figures]. rewrite insert_fresh.
  destruct (pydiv (n0 * boxsize) _) as [q|e] eqn:Hq; cbn [result_bind]; [|discriminate].
  apply pydiv_returns in Hq as [HN ->].
  destruct (pydiv _ (boxsize / inject_Z Nx)) as [s|e] eqn:Hs; [|discriminate].
  apply pydiv_returns in Hs as [Hdx0 ->].
  cbv [imul mbind prog_bind read lift overwrite mret prog_ret]. cbn [arrays figures].
  rewrite lookup_fresh. cbn [arrays figures]. rewrite insert_fresh.
  intros [= <- <-]. cbn [n_ j_ jp1_ weight_j_ weight_jp1_].
  exists P, b, b', b2. repeat split; try assumption; reflexivity.
Qed.

Lemma weights_sum (dx x : Q) (k : Z) :
  ~ dx == 0 ->
  (inject_Z (k + 1) * dx - x) / dx + (x - inject_Z k * dx) / dx == 1.
Proof.
  intros Hdx. rewrite inject_Z_plus. change (inject_Z 1) with 1. field. exact Hdx.
Qed.

Lemma weights_of_ensemble (dx : Q) (P : list Q) :
  ~ dx == 0 ->
  let j := map (fun x => Qfloor (x / dx)) P in
  let wj := zip_with (fun k x => (inject_Z k * dx - x) / dx)
                     (map (fun k => (k + 1)%Z) j) P in
  let wjp1 := zip_with (fun x k => (x - inject_Z k * dx) / dx) P j in
  Forall (fun a => a == 1) (zip_with Qplus wj wjp1).
Proof.
  intros Hdx. cbv zeta. induction P as [|x P IH]; cbn [map zip_with].
  - constructor.
  - constructor; [now apply weights_sum | exact IH].
Qed.

Lemma weights_add_up (pos : loc) (Nx : Z) (boxsize n0 : Q) (w w' : world)
    (d : deposited) :
  deposit pos Nx boxsize n0 w = (Ok d, w') ->
  length (weight_j_ d) = length (j_ d) /\
  length (weight_jp1_ d) = length (j_ d) /\
  Forall (fun a => a == 1) (zip_with Qplus (weight_j_ d) (weight_jp1_ d)).
Proof.
  intros Hrun.
  destruct (deposit_inversion _ _ _ _ _ _ _ Hrun)
    as (P & b & b' & b2 & _ & _ & Hdx & _ & Hj & _ & Hwj & Hwjp1 & _).
  rewrite Hwj, Hwjp1, Hj.
  split; [|split].
  - rewrite length_zip_with, !length_map. lia.
  - rewrite length_zip_with, !length_map. lia.
  - apply (weights_of_ensemble (boxsize / inject_Z Nx) P Hdx).
Qed.

(** X6.  Whenever the deposition of lines 31-40 returns, every particle
    has one weight of either kind and, in exact arithmetic, its two weights
    add up to one. *)
Theorem deposit_weights (pos : loc) (Nx : Z) (boxsize n0 : Q) (w w' : world)
    (d : deposited) (P : list Q) :
  arrays w !! pos = Some P ->
  deposit pos Nx boxsize n0 w = (Ok d, w') ->
  length (weight_j_ d) = length P /\
  length (weight_jp1_ d) = length P /\
  Forall (fun a => a == 1) (zip_with Qplus (weight_j_ d) (weight_jp1_ d)).
Proof.
  intros Hpos Hrun.
  destruct (deposit_returns _ _ _ _ _ _ _ _ Hpos Hrun) as (n & _ & _ & _ & _ & Hl1 & Hl2).
  destruct (deposit_inversion _ _ _ _ _ _ _ Hrun)
    as (P' & b & b' & b2 & _ & _ & Hdx & _ & Hj & _ & Hwj & Hwjp1 & _).
  split; [exact Hl1|]. split; [exact Hl2|].
  rewrite Hwj, Hwjp1, Hj.
  apply (weights_of_ensemble (boxsize / inject_Z Nx) P' Hdx).
Qed.

Lemma deposit_weights_witness :
  let w := {| arrays := [[1 # 2; 7 # 2; 3]]; figures := [] |} in
  arrays w !! 0%nat = Some [1 # 2; 7 # 2; 3] /\
  exists d w',
    deposit 0%nat 4 4 1 w = (Ok d, w') /\
    length (weight_j_ d) = length [1 # 2; 7 # 2; 3] /\
    length (weight_jp1_ d) = length [1 # 2; 7 # 2; 3] /\
    Forall (fun a => a == 1) (zip_with Qplus (weight_j_ d) (weight_jp1_ d)).
Proof.
  intros w.
  assert (H1 : arrays w !! 0%nat = Some [1 # 2; 7 # 2; 3]) by reflexivity.
  split; [exact H1|].
  let r := eval vm_compute in (deposit 0%nat 4 4 1 w) in
  lazymatch r with
  | (Ok ?d, ?w') =>
      assert (Hrun : deposit 0%nat 4 4 1 w = (Ok d, w')) by (vm_compute; reflexivity);
      exists d, w'; split; [exact Hrun|];
      exact (deposit_weights 0%nat 4 4 1 w w' d _ H1 Hrun)
  end.
Defined.

Lemma has_negative (x : list Z) :
  existsb (fun k => (k <? 0)%Z) x = false -> Forall (fun k => (0 <= k)%Z) x.
Proof.
  induction x as [|k x IH]; cbn [existsb]; intros H; [constructor|].
  apply orb_false_iff in H as [Hk Hx]. constructor; [lia | auto].
Qed.

Lemma max_bins_lower (x : list Z) (m : Z) :
  (m <= fold_right Z.max m (map (fun k => (k + 1)%Z) x))%Z /\
  Forall (fun k => (k + 1 <= fold_right Z.max m (map (fun k => (k + 1)%Z) x))%Z) x.
Proof.
  induction x as [|k x [IH1 IH2]]; cbn [map fold_right]; split; try lia.
  - constructor.
  - constructor; [lia|]. eapply Forall_impl; [exact IH2|]. cbv beta. intros; lia.
Qed.

Lemma bincount_returns (x : list Z) (w : list Q) (m : Z) (b : list Q) :
  bincount x w m = Ok b ->
  Forall (fun k => (0 <= k)%Z) x /\ length x = length w /\ (0 <= m)%Z /\
  b = scatter_add
        (repeat 0 (Z.to_nat (fold_right Z.max m (map (fun k => (k + 1)%Z) x)))) x w.
Proof.
  unfold bincount.
  destruct (existsb _ x) eqn:Hneg; [discriminate|].
  destruct (Nat.eqb_spec (length x) (length w)) as [Hlen|]; cbn [negb]; [|discriminate].
  destruct (Z.ltb_spec m 0); [discriminate|].
  intros [= <-]. repeat split; try assumption. now apply has_negative.
Qed.

Lemma bincount_bins (x : list Z) (w : list Q) (m : Z) (b : list Q) :
  bincount x w m = Ok b ->
  length b = Z.to_nat (fold_right Z.max m (map (fun k => (k + 1)%Z) x)).
Proof.
  intros H. apply bincount_returns in H as (_ & _ & _ & ->).
  now rewrite scatter_add_length, repeat_length.
Qed.

Lemma broadcast_add_returns (x w y : list Q) :
  broadcast_add x w = Ok y ->
  (length w = length x \/ length w = 1%nat) /\ length y = length x.
Proof.
  unfold broadcast_add.
  destruct (Nat.eqb_spec (length w) (length x)) as [Hlen|Hne].
  - intros [= <-]. split; [now left|]. rewrite length_zip_with. lia.
  - destruct w as [|w0 [|? ?]]; try discriminate.
    intros [= <-]. split; [now right | apply length_map].
Qed.

(** Whenever the deposition returns on a mesh of two cells or more, every
    node index it has used is a node of the mesh. *)
Lemma deposit_indices pos Nx boxsize n0 w d w' :
  deposit pos Nx boxsize n0 w = (Ok d, w') ->
  (1 <= Nx)%Z /\
  Forall (fun k => (0 <= k)%Z) (j_ d) /\
  Forall (fun k => (0 <= k < Nx)%Z) (jp1_ d) /\
  ((2 <= Nx)%Z -> Forall (fun k => (0 <= k < Nx)%Z) (j_ d)).
Proof.
  intros Hrun.
  destruct (deposit_inversion _ _ _ _ _ _ _ Hrun)
    as (P & b & b' & b2 & _ & HNx & _ & _ & _ & Hjp1 & _ & _ & Hb & Hb' & Hb2 & _).
  pose proof (bincount_bins _ _ _ _ Hb) as Hlb.
  pose proof (bincount_bins _ _ _ _ Hb') as Hlb'.
  apply bincount_returns in Hb as (Hj0 & _ & HN0 & _).
  assert (HN : (1 <= Nx)%Z).
  { destruct (Z.eq_dec Nx 0) as [->|]; [|lia]. exfalso. apply HNx. reflexivity. }
  assert (Hr : Forall (fun k => (0 <= k < Nx)%Z) (jp1_ d)).
  { rewrite Hjp1. apply wrapped_indices_in_range. exact HN. }
  repeat split; try assumption.
  intros HN2.
  rewrite max_bins in Hlb' by (eapply Forall_impl; [exact Hr | cbv beta; intros; lia]).
  apply broadcast_add_returns in Hb2 as [[Hl|Hl] _]; [|lia].
  destruct (max_bins_lower (j_ d) Nx) as [Hge Hall].
  assert (Hfold : fold_right Z.max Nx (map (fun k => (k + 1)%Z) (j_ d)) = Nx) by lia.
  rewrite Hfold in Hall.
  apply Forall_and. split; [exact Hj0|].
  eapply Forall_impl; [exact Hall|]. cbv beta. intros; lia.
Qed.

(** X7.  With [Nx >= 2], whenever the deposition returns, both node indices
    of every particle are valid indices of the mesh, and [jp1] is [j + 1]
    wrapped around. *)
Theorem deposit_index_safety (pos : loc) (Nx : Z) (boxsize n0 : Q) (w w' : world)
    (d : deposited) :
  (2 <= Nx)%Z ->
  deposit pos Nx boxsize n0 w = (Ok d, w') ->
  Forall (fun k => (0 <= k < Nx)%Z) (j_ d) /\
  Forall (fun k => (0 <= k < Nx)%Z) (jp1_ d) /\
  jp1_ d = map (fun k => ((k + 1) mod Nx)%Z) (j_ d).
Proof.
  intros HN Hrun.
  destruct (deposit_indices _ _ _ _ _ _ _ Hrun) as (_ & _ & Hjp1 & Hj).
  split; [auto|]. split; [exact Hjp1|].
  destruct (deposit_inversion _ _ _ _ _ _ _ Hrun)
    as (P & b & b' & b2 & _ & _ & _ & _ & _ & -> & _).
  now rewrite map_map.
Qed.

Lemma deposit_index_safety_witness :
  (2 <= 4)%Z /\
  exists d w',
    deposit 0%nat 4 4 1 {| arrays := [[1 # 2; 7 # 2; 3]]; figures := [] |} = (Ok d, w') /\
    Forall (fun k => (0 <= k < 4)%Z) (j_ d) /\
    Forall (fun k => (0 <= k < 4)%Z) (jp1_ d) /\
    jp1_ d = map (fun k => ((k + 1) mod 4)%Z) (j_ d).
Proof.
  assert (HN : (2 <= 4)%Z) by lia.
  split; [exact HN|].
  let r := eval vm_compute in
    (deposit 0%nat 4 4 1 {| arrays := [[1 # 2; 7 # 2; 3]]; figures := [] |}) in
  lazymatch r with
  | (Ok ?d, ?w') =>
      assert (H : deposit 0%nat 4 4 1 {| arrays := [[1 # 2; 7 # 2; 3]]; figures := [] |}
                  = (Ok d, w')) by (vm_compute; reflexivity);
      exists d, w'; split; [exact H|];
      exact (deposit_index_safety 0%nat 4 4 1 _ w' d HN H)
  end.
Defined.

Lemma density_length pos Nx boxsize n0 w d w' :
  (2 <= Nx)%Z ->
  deposit pos Nx boxsize n0 w = (Ok d, w') ->
  exists n,
    w' = {| arrays := arrays w ++ [n]; figures := figures w |} /\
    n_ d = length (arrays w) /\
    length n = Z.to_nat Nx.
Proof.
  intros HN2 Hrun.
  destruct (deposit_indices _ _ _ _ _ _ _ Hrun) as (_ & _ & _ & Hj).
  specialize (Hj HN2).
  destruct (deposit_inversion _ _ _ _ _ _ _ Hrun)
    as (P & b & b' & b2 & _ & _ & _ & _ & _ & _ & _ & _ & Hbin & _ & Hb2 & Hn & ->).
  pose proof (bincount_bins _ _ _ _ Hbin) as Hlb.
  eexists. split; [reflexivity|]. split; [exact Hn|].
  rewrite length_map.
  apply broadcast_add_returns in Hb2 as [_ ->].
  rewrite Hlb.
  rewrite max_bins by (eapply Forall_impl; [exact Hj | cbv beta; intros; lia]).
  reflexivity.
Qed.

(** X8.  The deposition needs a particle and a box: on [Nx >= 1] cells it
    raises [ZeroDivisionError], in [n0 * boxsize / N], for the empty
    ensemble, and whenever it returns the ensemble is not empty and
    [boxsize] is not zero. *)
Theorem deposit_needs_particles (w : world) (pos : loc) (P : list Q) (Nx : Z)
    (boxsize n0 : Q) :
  arrays w !! pos = Some P -> (1 <= Nx)%Z ->
  (P = [] -> fst (deposit pos Nx boxsize n0 w) = Raise ZeroDivisionError) /\
  (forall d w', deposit pos Nx boxsize n0 w = (Ok d, w') ->
                P <> [] /\ ~ boxsize == 0 /\ length (j_ d) = length P).
Proof.
  intros Hpos HN. split.
  - intros ->. now apply deposit_empty.
  - intros d w' Hrun.
    destruct (deposit_inversion _ _ _ _ _ _ _ Hrun)
      as (P' & b & b' & b2 & Hpos' & _ & Hdx & HNp & Hj & _).
    rewrite Hpos in Hpos'. injection Hpos' as <-.
    split; [|split].
    + intros ->. apply HNp. reflexivity.
    + intros Hb. apply Hdx. now apply mesh_dx_zero.
    + rewrite Hj. apply length_map.
Qed.

Lemma deposit_needs_particles_witness :
  let w := {| arrays := [[]]; figures := [] |} in
  arrays w !! 0%nat = Some [] /\ (1 <= 4)%Z /\
  fst (deposit 0%nat 4 4 1 w) = Raise ZeroDivisionError.
Proof.
  intros w.
  assert (H1 : arrays w !! 0%nat = Some []) by reflexivity.
  assert (H2 : (1 <= 4)%Z) by lia.
  split; [exact H1|]. split; [exact H2|].
  exact (proj1 (deposit_needs_particles w 0%nat [] 4 4 1 H1 H2) eq_refl).
Defined.



Lemma sumQ_shift (c : Q) (l : list Q) :
  sumQ (map (fun v => v - c) l) == sumQ l - inject_Z (Z.of_nat (length l)) * c.
Proof.
  induction l as [|x l IH]; cbn [map sumQ length].
  - change (inject_Z (Z.of_nat 0)) with 0. ring.
  - rewrite IH, Nat2Z.inj_succ. unfold Z.succ. rewrite inject_Z_plus.
    change (inject_Z 1) with 1. ring.
Qed.

(** X10.  For an ensemble inside the box, the right-hand side [n - n0]
    handed to [spsolve] has [Nx] entries that sum to zero. *)
Theorem source_term_sums_to_zero (w : world) (pos : loc) (P : list Q)
    (Nx : Z) (boxsize n0 : Q) (d : deposited) (w' : world) :
  arrays w !! pos = Some P ->
  (1 <= Nx)%Z ->
  Forall (fun p => 0 <= p /\ p < boxsize) P ->
  deposit pos Nx boxsize n0 w = (Ok d, w') ->
  exists n,
    arrays w' !! n_ d = Some n /\
    Z.of_nat (length n) = Nx /\
    sumQ (map (fun v => v - n0) n) == 0.
Proof.
  intros Hpos HN HP Hrun.
  assert (Hne : P <> []).
  { intros ->. pose proof (deposit_empty w pos Nx boxsize n0 Hpos HN) as He.
    rewrite Hrun in He. discriminate. }
  pose proof (ensemble_box_positive P boxsize Hne HP) as Hb.
  destruct (deposit_in_range w pos P Nx boxsize n0 Hpos HN Hb Hne HP)
    as (d0 & n & Hrun0 & Hn & Hlen & Hsum).
  rewrite Hrun0 in Hrun. injection Hrun as <- <-.
  exists n. split; [rewrite Hn; cbn [arrays]; apply lookup_fresh|].
  split; [lia|].
  assert (HNx : ~ inject_Z Nx == 0) by (apply inject_Z_nonzero; lia).
  assert (HNp : ~ inject_Z (Z.of_nat (length P)) == 0).
  { apply inject_Z_nonzero. destruct P; [congruence | cbn; lia]. }
  rewrite sumQ_shift, Hsum, Hlen, Z2Nat.id by lia.
  field. repeat split; solve [exact HNx | exact HNp | lra].
Qed.

Lemma source_term_sums_to_zero_witness :
  let w := {| arrays := [[1 # 2; 7 # 2; 3]]; figures := [] |} in
  arrays w !! 0%nat = Some [1 # 2; 7 # 2; 3] /\ (1 <= 4)%Z /\
  Forall (fun p => 0 <= p /\ p < 4) [1 # 2; 7 # 2; 3] /\
  exists d w',
    deposit 0%nat 4 4 1 w = (Ok d, w') /\
    exists n,
      arrays w' !! n_ d = Some n /\
      Z.of_nat (length n) = 4%Z /\
      sumQ (map (fun v => v - 1) n) == 0.
Proof.
  intros w.
  assert (H1 : arrays w !! 0%nat = Some [1 # 2; 7 # 2; 3]) by reflexivity.
  assert (H2 : (1 <= 4)%Z) by lia.
  assert (H3 : Forall (fun p => 0 <= p /\ p < 4) [1 # 2; 7 # 2; 3]).
  { repeat constructor; discriminate. }
  repeat (split; [assumption|]).
  let r := eval vm_compute in (deposit 0%nat 4 4 1 w) in
  lazymatch r with
  | (Ok ?d, ?w') =>
      assert (H : deposit 0%nat 4 4 1 w = (Ok d, w')) by (vm_compute; reflexivity);
      exists d, w'; split; [exact H|];
      exact (source_term_sums_to_zero w 0%nat _ 4 4 1 d w' H1 H2 H3 H)
  end.
Defined.

Lemma getitem_in_range (x : list Q) (i : Z) :
  (0 <= i < Z.of_nat (length x))%Z -> exists v, getitem x i = Ok v /\ x !! Z.to_nat i = Some v.
Proof.
  intros Hi. unfold getitem.
  replace (i <? 0)%Z with false by lia.
  rewrite in_range_true by exact Hi.
  destruct (x !! Z.to_nat i) as [v|] eqn:Hv.
  - exists v. auto.
  - apply lookup_ge_None in Hv. lia.
Qed.

Lemma take_at_in_range (x : list Q) (idx : list Z) :
  Forall (fun k => (0 <= k < Z.of_nat (length x))%Z) idx ->
  exists vs, take_at x idx = Ok vs /\ length vs = length idx /\
             Forall (fun v => In v x) vs.
Proof.
  induction 1 as [|k idx Hk _ (vs & Hvs & Hl & Hin)]; cbn [take_at].
  - exists []. repeat split. constructor.
  - destruct (getitem_in_range x k Hk) as (v & -> & Hv). cbv [mbind result_bind].
    rewrite Hvs. exists (v :: vs). repeat split.
    + cbn [length]. now rewrite Hl.
    + constructor; [|exact Hin]. apply list_elem_of_In. eapply list_elem_of_lookup_2. exact Hv.
Qed.

(** X12.  With [Nx >= 2] and a gradient of shape [Nx], once the deposition
    and line 46 have returned, the gather of line 49 raises no IndexError
    and gives one acceleration for each particle. *)
Theorem gather_in_range (pos : loc) (Nx : Z) (boxsize n0 : Q) (w w' : world)
    (d : deposited) (Gmtx : spmatrix) (phi_grid E_grid : list Q) :
  (2 <= Nx)%Z -> shape Gmtx = Nx ->
  deposit pos Nx boxsize n0 w = (Ok d, w') ->
  electric_field Gmtx phi_grid = Ok E_grid ->
  exists a, interpolate d E_grid = Ok a /\ length a = length (j_ d).
Proof.
  intros HN Hshape Hrun HE.
  assert (HlE : Z.of_nat (length E_grid) = Nx).
  { unfold electric_field, matvec in HE. cbn [shape mneg] in HE.
    destruct (_ =? _)%Z; [|discriminate]. injection HE as <-.
    unfold zrange. rewrite !length_map, length_seq. lia. }
  destruct (deposit_indices _ _ _ _ _ _ _ Hrun) as (_ & _ & Hjp1 & Hj).
  specialize (Hj HN). rewrite <- HlE in Hj, Hjp1.
  destruct (take_at_in_range E_grid _ Hj) as (Ej & HEj & HlEj & _).
  destruct (take_at_in_range E_grid _ Hjp1) as (Ejp1 & HEjp1 & HlEjp1 & _).
  unfold interpolate. rewrite HEj, HEjp1. cbv [mbind result_bind].
  eexists. split; [reflexivity|].
  destruct (deposit_inversion _ _ _ _ _ _ _ Hrun)
    as (P & b & b' & b2 & _ & _ & _ & _ & HjP & Hjp1P & Hwj & Hwjp1 & _).
  rewrite length_map, !length_zip_with, HlEj, HlEjp1.
  rewrite Hwj, Hwjp1, Hjp1P, !length_zip_with, !length_map.
  rewrite HjP, length_map. lia.
Qed.

Lemma gather_in_range_witness :
  (2 <= 4)%Z /\ shape (gradient_of 4 1) = 4%Z /\
  exists d w' E_grid,
    deposit 0%nat 4 4 1 {| arrays := [[1 # 2; 7 # 2; 3]]; figures := [] |} = (Ok d, w') /\
    electric_field (gradient_of 4 1) [5; 7; 4; 9] = Ok E_grid /\
    exists a, interpolate d E_grid = Ok a /\ length a = length (j_ d).
Proof.
  assert (H1 : (2 <= 4)%Z) by lia.
  assert (H2 : shape (gradient_of 4 1) = 4%Z) by reflexivity.
  repeat (split; [assumption|]).
  let r := eval vm_compute in
    (deposit 0%nat 4 4 1 {| arrays := [[1 # 2; 7 # 2; 3]]; figures := [] |}) in
  let f := eval vm_compute in (electric_field (gradient_of 4 1) [5; 7; 4; 9]) in
  lazymatch r with
  | (Ok ?d, ?w') =>
      lazymatch f with
      | Ok ?E =>
          assert (H : deposit 0%nat 4 4 1
                        {| arrays := [[1 # 2; 7 # 2; 3]]; figures := [] |}
                      = (Ok d, w')) by (vm_compute; reflexivity);
          assert (HE : electric_field (gradient_of 4 1) [5; 7; 4; 9] = Ok E)
            by (vm_compute; reflexivity);
          exists d, w', E; split; [exact H|]; split; [exact HE|];
          exact (gather_in_range 0%nat 4 4 1 _ w' d (gradient_of 4 1) [5; 7; 4; 9] E
                   H1 H2 H HE)
      end
  end.
Defined.

Lemma interpolation_of_constant (e : Q) (wj : list Q) : forall wjp1 Ej Ejp1 : list Q,
  length wjp1 = length wj -> length Ej = length wj -> length Ejp1 = length wj ->
  Forall (fun a => a == 1) (zip_with Qplus wj wjp1) ->
  Forall (fun v => v = e) Ej -> Forall (fun v => v = e) Ejp1 ->
  Forall (fun v => v == - e)
         (map Qopp (zip_with Qplus (zip_with Qmult wj Ej) (zip_with Qmult wjp1 Ejp1))).
Proof.
  induction wj as [|a wj IH]; intros [|b wjp1] [|u Ej] [|v Ejp1] H1 H2 H3 Hsum HEj HEjp1;
    cbn [length] in *; try discriminate; cbn [zip_with map]; [constructor|].
  cbn [zip_with] in Hsum.
  apply Forall_cons in Hsum as [Hab Hsum].
  apply Forall_cons in HEj as [-> HEj].
  apply Forall_cons in HEjp1 as [-> HEjp1].
  constructor.
  - assert (E : - (a * e + b * e) == - ((a + b) * e)) by ring.
    rewrite E, Hab. ring.
  - apply IH; try assumption; lia.
Qed.

(** X13.  In a field that has the same value [e] on every node, lines 49-51
    give every particle the acceleration [-e]. *)
Theorem interpolate_constant_field (pos : loc) (Nx : Z) (boxsize n0 e : Q)
    (w w' : world) (d : deposited) :
  (2 <= Nx)%Z ->
  deposit pos Nx boxsize n0 w = (Ok d, w') ->
  exists a,
    interpolate d (repeat e (Z.to_nat Nx)) = Ok a /\
    length a = length (j_ d) /\
    Forall (fun v => v == - e) a.
Proof.
  intros HN Hrun.
  destruct (deposit_indices _ _ _ _ _ _ _ Hrun) as (_ & _ & Hjp1 & Hj).
  specialize (Hj HN).
  assert (Hlen : Z.of_nat (length (repeat e (Z.to_nat Nx))) = Nx).
  { rewrite repeat_length. lia. }
  rewrite <- Hlen in Hj, Hjp1.
  destruct (take_at_in_range _ _ Hj) as (Ej & HEj & HlEj & HinEj).
  destruct (take_at_in_range _ _ Hjp1) as (Ejp1 & HEjp1 & HlEjp1 & HinEjp1).
  unfold interpolate. rewrite HEj, HEjp1. cbv [mbind result_bind].
  eexists. split; [reflexivity|].
  destruct (weights_add_up _ _ _ _ _ _ _ Hrun) as (Hl1 & Hl2 & Hsum).
  destruct (deposit_inversion _ _ _ _ _ _ _ Hrun)
    as (P & b & b' & b2 & _ & _ & _ & _ & HjP & Hjp1P & _).
  assert (Hljp1 : length (jp1_ d) = length (j_ d)).
  { rewrite Hjp1P, !length_map. reflexivity. }
  split.
  - rewrite length_map, !length_zip_with. lia.
  - apply interpolation_of_constant; try assumption; try lia.
    + eapply Forall_impl; [exact HinEj|]. cbv beta. intros v Hv.
      now apply repeat_spec in Hv.
    + eapply Forall_impl; [exact HinEjp1|]. cbv beta. intros v Hv.
      now apply repeat_spec in Hv.
Qed.

Lemma interpolate_constant_field_witness :
  (2 <= 4)%Z /\
  exists d w',
    deposit 0%nat 4 4 1 {| arrays := [[1 # 2; 7 # 2; 3]]; figures := [] |} = (Ok d, w') /\
    exists a,
      interpolate d (repeat 5 (Z.to_nat 4)) = Ok a /\
      length a = length (j_ d) /\
      Forall (fun v => v == - 5) a.
Proof.
  assert (H1 : (2 <= 4)%Z) by lia.
  split; [exact H1|].
  let r := eval vm_compute in
    (deposit 0%nat 4 4 1 {| arrays := [[1 # 2; 7 # 2; 3]]; figures := [] |}) in
  lazymatch r with
  | (Ok ?d, ?w') =>
      assert (H : deposit 0%nat 4 4 1 {| arrays := [[1 # 2; 7 # 2; 3]]; figures := [] |}
                  = (Ok d, w')) by (vm_compute; reflexivity);
      exists d, w'; split; [exact H|];
      exact (interpolate_constant_field 0%nat 4 4 1 5 _ w' d H1 H)
  end.
Defined.

(** ** Further properties: the loop of [main] *)

Section TimestepRuns.

Variable spsolve : spmatrix -> list Q -> result (list Q).

(** The world one pass through the loop body leaves, written out. *)
Lemma timestep_run (c : config) (Gmtx Lmtx : spmatrix) (s : locals) (w : world)
    (P V n acc : list Q) :
  arrays w !! pos s = Some P ->
  arrays w !! vel s = Some V ->
  pos s <> vel s ->
  length P = length V ->
  length acc = length P ->
  getAcc spsolve (pos s) (Nx c) (boxsize c) (n0 c) Gmtx Lmtx w
  = (Ok (S (length (arrays w))),
     {| arrays := arrays w ++ [n; acc]; figures := figures w |}) ->
  let P1 := zip_with Qplus P (map (Qmult (dt c)) V) in
  let V1 := zip_with Qplus V (map (Qmult (dt c)) acc) in
  let P2 := map (fun x => npmod x (boxsize c)) P1 in
  timestep spsolve c Gmtx Lmtx s w
  = (Ok {| pos := S (S (length (arrays w))); vel := vel s; t := t s + dt c |},
     {| arrays := <[vel s := V1]> (<[pos s := P1]> (arrays w ++ [n; acc])) ++ [P2];
        figures := figures w
                   ++ (if plotRealTime c
                       then [(P2, V1, t s + dt c, boxsize c, Nx c)] else []) |}).
Proof.
  intros Hpos Hvel Hne Hlen Hlacc Hacc P1 V1 P2.
  pose proof (lookup_lt_Some _ _ _ Hpos) as Hp_lt.
  pose proof (lookup_lt_Some _ _ _ Hvel) as Hv_lt.
  unfold timestep. unfold mbind at 1, prog_bind at 1. rewrite Hacc.
  set (h1 := arrays w ++ [n; acc]).
  assert (H1p : h1 !! pos s = Some P) by (subst h1; rewrite lookup_app_l; assumption).
  assert (H1v : h1 !! vel s = Some V) by (subst h1; rewrite lookup_app_l; assumption).
  assert (H1a : h1 !! S (length (arrays w)) = Some acc).
  { subst h1. rewrite lookup_app_r by lia.
    replace (S (length (arrays w)) - length (arrays w))%nat with 1%nat by lia.
    reflexivity. }
  assert (Hl1 : length h1 = S (S (length (arrays w)))).
  { subst h1. rewrite length_app. cbn. lia. }
  clearbody h1.
  cbv [mbind prog_bind read iadd lift overwrite]. cbn [arrays figures].
  rewrite H1v. cbn [arrays figures]. rewrite H1p.
  rewrite broadcast_add_same_length by (rewrite length_map; lia).
  fold P1. cbn [arrays figures].
  rewrite (list_lookup_insert_ne h1 (pos s) (S (length (arrays w)))) by lia.
  rewrite H1a. cbn [arrays figures].
  rewrite (list_lookup_insert_ne h1 (pos s) (vel s)) by exact Hne. rewrite H1v.
  rewrite broadcast_add_same_length by (rewrite length_map; lia).
  fold V1. cbn [arrays figures].
  rewrite (list_lookup_insert_ne _ (vel s) (pos s)) by congruence.
  rewrite (list_lookup_insert_eq h1 (pos s)) by lia.
  fold P2. cbv [new_array]. cbn [arrays figures].
  set (h2 := <[vel s := V1]> (<[pos s := P1]> h1)).
  assert (Hv2 : h2 !! vel s = Some V1).
  { subst h2. apply list_lookup_insert_eq. rewrite length_insert. lia. }
  assert (Hl2 : length h2 = S (S (length (arrays w)))).
  { subst h2. rewrite !length_insert. lia. }
  clearbody h2. rewrite Hl2.
  destruct (plotRealTime c).
  - cbv [plot_data mbind prog_bind read render]. cbn [arrays figures].
    rewrite <- Hl2, lookup_fresh. cbn [arrays figures].
    rewrite lookup_app_l by lia. rewrite Hv2. reflexivity.
  - cbv [mret prog_ret]. rewrite app_nil_r. reflexivity.
Qed.

(** What a returning pass through the loop body has done. *)
Lemma timestep_returns (c : config) (Gmtx Lmtx : spmatrix) (s s' : locals) (w w' : world)
    (P V : list Q) :
  arrays w !! pos s = Some P ->
  arrays w !! vel s = Some V ->
  pos s <> vel s ->
  length P = length V ->
  timestep spsolve c Gmtx Lmtx s w = (Ok s', w') ->
  exists n acc,
    length acc = length P /\
    s' = {| pos := S (S (length (arrays w))); vel := vel s; t := t s + dt c |} /\
    arrays w'
    = <[vel s := zip_with Qplus V (map (Qmult (dt c)) acc)]>
        (<[pos s := zip_with Qplus P (map (Qmult (dt c)) V)]> (arrays w ++ [n; acc]))
      ++ [map (fun x => npmod x (boxsize c)) (zip_with Qplus P (map (Qmult (dt c)) V))] /\
    length (figures w')
    = (length (figures w) + (if plotRealTime c then 1 else 0))%nat.
Proof.
  intros Hpos Hvel Hne Hlen Hstep.
  pose proof Hstep as Hstep'. unfold timestep in Hstep'.
  apply bind_returns in Hstep' as (a & w1 & Hacc & _).
  destruct (getAcc_returns spsolve _ _ _ _ _ _ _ _ _ _ Hpos Hacc)
    as (n & acc & -> & -> & Hlacc).
  rewrite (timestep_run c Gmtx Lmtx s w P V n acc Hpos Hvel Hne Hlen Hlacc Hacc) in Hstep.
  injection Hstep as <- <-.
  exists n, acc. split; [exact Hlacc|]. split; [reflexivity|]. split; [reflexivity|].
  cbn [figures]. rewrite length_app. now destruct (plotRealTime c).
Qed.

End TimestepRuns.

Lemma npmod_inside (x b : Q) : 0 < b -> 0 <= x -> x < b -> npmod x b == x.
Proof.
  intros Hb H0 H1. unfold npmod.
  assert (Hy0 : 0 <= x / b) by (apply Qle_shift_div_l; [exact Hb | lra]).
  assert (Hy1 : x / b < 1) by (apply Qlt_shift_div_r; [exact Hb | lra]).
  pose proof (Qfloor_le (x / b)) as Hlo.
  pose proof (Qlt_floor (x / b)) as Hhi.
  assert (Hf : Qfloor (x / b) = 0%Z).
  { assert (Hf1 : (Qfloor (x / b) < 1)%Z).
    { rewrite Zlt_Qlt. eapply Qle_lt_trans; eassumption. }
    assert (Hf0 : (0 < Qfloor (x / b) + 1)%Z).
    { rewrite Zlt_Qlt. eapply Qle_lt_trans; eassumption. }
    lia. }
  rewrite Hf. change (inject_Z 0) with 0. ring.
Qed.

Lemma wrap_of_positions (b : Q) (raw : list Q) :
  0 < b ->
  Forall2 (fun new x =>
             (exists k : Z, new == x - inject_Z k * b) /\
             (0 <= x -> x < b -> new == x))
          (map (fun x => npmod x b) raw) raw.
Proof.
  intros Hb. induction raw as [|x raw IH]; cbn [map]; constructor; [|exact IH].
  split.
  - exists (Qfloor (x / b)). reflexivity.
  - intros H0 H1. now apply npmod_inside.
Qed.

Lemma lookup_last_array (h : list (list Q)) (v : list Q) (i : nat) :
  i = length h -> (h ++ [v]) !! i = Some v.
Proof. intros ->. apply lookup_fresh. Qed.

Section TimestepFacts.

Variable spsolve : spmatrix -> list Q -> result (list Q).

(** X15.  With [boxsize > 0], the wrap of line 90 moves every raw position
    [pos + dt * vel] by a whole number of box lengths, and leaves it as it is
    when it already lies in [[0, boxsize)]. *)
Theorem timestep_wraps_by_box_lengths (c : config) (Gmtx Lmtx : spmatrix)
    (s s' : locals) (w w' : world) (P V : list Q) :
  0 < boxsize c ->
  arrays w !! pos s = Some P ->
  arrays w !! vel s = Some V ->
  pos s <> vel s ->
  length P = length V ->
  timestep spsolve c Gmtx Lmtx s w = (Ok s', w') ->
  exists P',
    arrays w' !! pos s' = Some P' /\
    Forall2 (fun new x =>
               (exists k : Z, new == x - inject_Z k * boxsize c) /\
               (0 <= x -> x < boxsize c -> new == x))
            P' (zip_with Qplus P (map (Qmult (dt c)) V)).
Proof.
  intros Hb Hpos Hvel Hne Hlen Hstep.
  destruct (timestep_returns spsolve c Gmtx Lmtx s s' w w' P V Hpos Hvel Hne Hlen Hstep)
    as (n & acc & Hlacc & -> & Hw' & _).
  eexists. split.
  - rewrite Hw'. cbn [pos]. apply lookup_last_array.
    rewrite !length_insert, length_app. cbn [length]. lia.
  - now apply wrap_of_positions.
Qed.

Lemma timestep_keeps_particles (c : config) (Gmtx Lmtx : spmatrix) (s s' : locals)
    (w w' : world) (n : nat) :
  particles n s w ->
  timestep spsolve c Gmtx Lmtx s w = (Ok s', w') ->
  particles n s' w' /\
  t s' = t s + dt c /\
  length (arrays w') = (length (arrays w) + 3)%nat /\
  length (figures w') = (length (figures w) + (if plotRealTime c then 1 else 0))%nat /\
  vel s' = vel s.
Proof.
  intros (P & V & Hpos & Hvel & Hne & HlP & HlV) Hstep.
  pose proof (lookup_lt_Some _ _ _ Hpos) as Hp_lt.
  pose proof (lookup_lt_Some _ _ _ Hvel) as Hv_lt.
  destruct (timestep_returns spsolve c Gmtx Lmtx s s' w w' P V Hpos Hvel Hne
              ltac:(congruence) Hstep) as (dens & acc & Hlacc & -> & Hw' & Hfig).
  assert (Hp' : arrays w' !! S (S (length (arrays w)))
                = Some (map (fun x => npmod x (boxsize c))
                            (zip_with Qplus P (map (Qmult (dt c)) V)))).
  { rewrite Hw'. apply lookup_last_array.
    rewrite !length_insert, length_app. cbn [length]. lia. }
  split; [|split; [|split; [|split]]].
  - eexists _, (zip_with Qplus V (map (Qmult (dt c)) acc)).
    cbn [pos vel]. split; [exact Hp'|]. split; [|split; [|split]].
    + rewrite Hw'.
      rewrite lookup_app_l by (rewrite !length_insert, length_app; cbn [length]; lia).
      apply list_lookup_insert_eq. rewrite length_insert, length_app. cbn [length]. lia.
    + lia.
    + rewrite length_map, length_zip_with, length_map. lia.
    + rewrite length_zip_with, length_map. lia.
  - reflexivity.
  - rewrite Hw', length_app, !length_insert, length_app. cbn [length]. lia.
  - exact Hfig.
  - reflexivity.
Qed.

End TimestepFacts.

Lemma plot_data_returns p v tm b n w r w' :
  plot_data p v tm b n w = (Ok r, w') ->
  arrays w' = arrays w /\ length (figures w') = S (length (figures w)).
Proof.
  unfold plot_data. cbv [mbind prog_bind read render].
  destruct (arrays w !! p); [|discriminate].
  destruct (arrays w !! v); [|discriminate].
  intros [= _ <-]. cbn [arrays figures]. rewrite length_app. cbn [length].
  split; [reflexivity | lia].
Qed.

Section DriverFacts.

Variable spsolve : spmatrix -> list Q -> result (list Q).
Variable uniform_samples : nat -> list Q.
Variable normal_samples : nat -> list Q.

(** The passes of the [while] loop, counted. *)
Lemma loop_steps (c : config) (Gmtx Lmtx : spmatrix) (n : nat) :
  forall fuel s w st s' w',
    particles n s w ->
    loop spsolve fuel c Gmtx Lmtx s w = (Ok (st, s'), w') ->
    exists k : nat,
      (k <= fuel)%nat /\
      t s' == t s + inject_Z (Z.of_nat k) * dt c /\
      length (arrays w') = (length (arrays w) + 3 * k)%nat /\
      length (figures w')
      = (length (figures w) + (if plotRealTime c then k else 0))%nat /\
      particles n s' w' /\
      (st = Finished -> tEnd c <= t s') /\
      (st = Running -> k = fuel /\ t s' < tEnd c) /\
      ((0 < k)%nat -> t s' - dt c < tEnd c) /\
      vel s' = vel s.
Proof.
  induction fuel as [|fuel IH]; intros s w st s' w' Hp; cbn [loop];
    destruct (Qlt_le_dec (t s) (tEnd c)) as [Hlt|Hge]; cbv [mret prog_ret].
  1, 2, 4: intros [= <- <- <-]; exists O;
    change (Z.of_nat 0) with 0%Z; change (inject_Z 0) with 0;
    (split; [lia|]); (split; [ring|]); (split; [lia|]);
    (split; [destruct (plotRealTime c); lia|]); (split; [exact Hp|]);
    (split; [intros; first [assumption | discriminate]|]);
    (split; [intros; first [discriminate | now split]|]);
    (split; [intros; lia | reflexivity]).
  intros H. apply bind_returns in H as (s1 & w1 & Hstep & Hloop).
  destruct (timestep_keeps_particles spsolve c Gmtx Lmtx s s1 w w1 n Hp Hstep)
    as (Hp1 & Ht1 & Ha1 & Hf1 & Hv1).
  destruct (IH s1 w1 st s' w' Hp1 Hloop)
    as (k & Hk & Ht & Ha & Hf & Hp' & Hfin & Hrun & Hlast & Hv).
  exists (S k). rewrite Ht1 in Ht.
  split; [lia|]. split; [|split; [|split; [|split; [|split; [|split; [|split]]]]]].
  - rewrite Ht. rewrite Nat2Z.inj_succ. unfold Z.succ. rewrite inject_Z_plus.
    change (inject_Z 1) with 1. ring.
  - lia.
  - rewrite Hf, Hf1. destruct (plotRealTime c); lia.
  - exact Hp'.
  - exact Hfin.
  - intros Hst. destruct (Hrun Hst) as [-> Hlt']. now split.
  - intros _. destruct k as [|k].
    + change (Z.of_nat 0) with 0%Z in Ht. change (inject_Z 0) with 0 in Ht.
      rewrite Ht. lra.
    + apply Hlast. lia.
  - congruence.
Qed.

(** With a positive timestep the loop is left after at most
    [tEnd - t] over [dt] passes. *)
Lemma loop_leaves (c : config) (Gmtx Lmtx : spmatrix) :
  0 < dt c ->
  forall fuel s w,
    tEnd c - t s <= inject_Z (Z.of_nat fuel) * dt c ->
    forall s' w', loop spsolve fuel c Gmtx Lmtx s w <> (Ok (Running, s'), w').
Proof.
  intros Hdt.
  induction fuel as [|fuel IH]; intros s w Hfuel s' w'; cbn [loop];
    destruct (Qlt_le_dec (t s) (tEnd c)) as [Hlt|Hge]; cbv [mret prog_ret];
    try congruence.
  - change (Z.of_nat 0) with 0%Z in Hfuel. change (inject_Z 0) with 0 in Hfuel. lra.
  - intros H. apply bind_returns in H as (s1 & w1 & Hstep & Hloop).
    apply timestep_time in Hstep.
    apply (IH s1 w1) in Hloop; [exact Hloop|].
    rewrite Hstep. rewrite Nat2Z.inj_succ in Hfuel. unfold Z.succ in Hfuel.
    rewrite inject_Z_plus in Hfuel. change (inject_Z 1) with 1 in Hfuel. lra.
Qed.

(** What [main] has done when it returns. *)
Lemma main_with_returns (fuel : nat) (c : config) (st : status) (s : locals) (w' : world) :
  main_with spsolve uniform_samples normal_samples fuel c empty_world = (Ok (st, s), w') ->
  (0 <= N c)%Z /\
  exists Gmtx Lmtx w1,
    create_matrices (Nx c) (boxsize c) = Ok (Gmtx, Lmtx) /\
    loop spsolve fuel c Gmtx Lmtx initial_locals
         (initial_world uniform_samples normal_samples c) = (Ok (st, s), w1) /\
    arrays w' = arrays w1 /\
    length (figures w')
    = (length (figures w1)
       + (match st with
          | Finished => if plotRealTime c then 0 else 1
          | Running => 0
          end))%nat.
Proof.
  unfold main_with, np_random. intros H.
  destruct (Z.ltb_spec (N c) 0) as [Hneg|HN]; [discriminate|].
  split; [exact HN|].
  destruct (create_matrices (Nx c) (boxsize c)) as [[Gmtx Lmtx]|e] eqn:Hm; [|discriminate].
  exists Gmtx, Lmtx.
  cbv [mbind prog_bind lift new_array empty_world] in H. cbn [arrays figures app length] in H.
  fold initial_locals in H.
  change {| arrays := _; figures := [] |}
    with (initial_world uniform_samples normal_samples c) in H.
  destruct (loop spsolve fuel c Gmtx Lmtx initial_locals _) as [[[st1 s1]|e] w1] eqn:Hloop;
    [|discriminate].
  exists w1. destruct st1.
  - destruct (plotRealTime c); cbn [negb] in H.
    + cbv [mret prog_ret] in H. injection H as <- <- <-.
      split; [reflexivity|]. split; [reflexivity|]. split; [reflexivity | lia].
    + destruct (plot_data (pos s1) (vel s1) (t s1) (boxsize c) (Nx c) w1)
        as [[u|e] w2] eqn:Hplot; [|discriminate].
      cbv [mret prog_ret] in H. injection H as <- <- <-.
      apply plot_data_returns in Hplot as [Ha Hf].
      split; [reflexivity|]. split; [reflexivity|]. split; [exact Ha | lia].
  - cbv [mret prog_ret] in H. injection H as <- <- <-.
    split; [reflexivity|]. split; [reflexivity|]. split; [reflexivity | lia].
Qed.

Lemma initial_particles (c : config) :
  length (uniform_samples (Z.to_nat (N c))) = Z.to_nat (N c) ->
  length (normal_samples (Z.to_nat (N c))) = Z.to_nat (N c) ->
  particles (Z.to_nat (N c)) initial_locals
            (initial_world uniform_samples normal_samples c).
Proof.
  intros Hu Hn. eexists _, _. cbn [initial_world initial_locals arrays pos vel].
  split; [reflexivity|]. split; [reflexivity|]. split; [discriminate|].
  rewrite !length_map. now split.
Qed.


(** X17.  The state [main] ends in holds [N] positions and [N] velocities
    in two different array objects; the velocities are still the array
    made at the set-up, updated in place. *)
Theorem main_ensemble (fuel : nat) (c : config) (st : status) (s : locals) (w' : world) :
  length (uniform_samples (Z.to_nat (N c))) = Z.to_nat (N c) ->
  length (normal_samples (Z.to_nat (N c))) = Z.to_nat (N c) ->
  main_with spsolve uniform_samples normal_samples fuel c empty_world = (Ok (st, s), w') ->
  exists P V,
    arrays w' !! pos s = Some P /\ arrays w' !! vel s = Some V /\
    pos s <> vel s /\
    Z.of_nat (length P) = N c /\ Z.of_nat (length V) = N c /\
    vel s = 1%nat.
Proof.
  intros Hu Hn Hmain.
  destruct (main_with_returns fuel c st s w' Hmain)
    as (HN & Gmtx & Lmtx & w1 & _ & Hloop & Ha' & _).
  pose proof (initial_particles c Hu Hn) as Hp0.
  destruct (loop_steps c Gmtx Lmtx _ fuel _ _ st s w1 Hp0 Hloop)
    as (k & _ & _ & _ & _ & (P & V & Hpos & Hvel & Hne & HlP & HlV) & _ & _ & _ & Hv).
  exists P, V. rewrite Ha'.
  split; [exact Hpos|]. split; [exact Hvel|]. split; [exact Hne|].
  split; [lia|]. split; [lia | exact Hv].
Qed.

(** X18.  With a positive integer timestep [d] (exact in binary64 too, up
    to [2^53]), [main] is never still inside the loop after [fuel] passes
    when [tEnd <= fuel * d]. *)
Theorem main_leaves_loop (fuel : nat) (c : config) (d : Z) :
  dt c == inject_Z d ->
  (0 < d)%Z ->
  (d * Z.of_nat fuel <= 2 ^ 53)%Z ->
  tEnd c <= inject_Z (Z.of_nat fuel * d) ->
  forall s w',
    main_with spsolve uniform_samples normal_samples fuel c empty_world
    <> (Ok (Running, s), w').
Proof.
  intros Hd Hpos _ Hfuel s w' Hmain.
  destruct (main_with_returns fuel c Running s w' Hmain)
    as (_ & Gmtx & Lmtx & w1 & _ & Hloop & _).
  revert Hloop. apply loop_leaves.
  - rewrite Hd. change 0 with (inject_Z 0). rewrite <- Zlt_Qlt. exact Hpos.
  - cbn [initial_locals t]. rewrite Hd. rewrite inject_Z_mult in Hfuel. lra.
Qed.

(** X19.  With [N = 0] (and [Nx >= 2], [boxsize <> 0], [tEnd > 0]) the
    first pass of the loop raises ZeroDivisionError, in [n0 * boxsize / N],
    before any figure is rendered. *)
Theorem main_no_particles (fuel : nat) (c : config) :
  N c = 0%Z -> (2 <= Nx c)%Z -> ~ boxsize c == 0 -> 0 < tEnd c ->
  length (uniform_samples (Z.to_nat (N c))) = Z.to_nat (N c) ->
  fst (main_with spsolve uniform_samples normal_samples (S fuel) c empty_world)
  = Raise ZeroDivisionError /\
  figures (snd (main_with spsolve uniform_samples normal_samples (S fuel) c empty_world))
  = [].
Proof.
  intros HN HNx Hb Hend Hu.
  rewrite HN in Hu. change (Z.to_nat 0) with O in Hu.
  apply nil_length_inv in Hu.
  unfold main_with, np_random. rewrite HN. change (Z.to_nat 0) with O.
  rewrite Hu. rewrite create_matrices_ok by assumption.
  cbv [mbind prog_bind lift new_array empty_world]. cbn [Z.ltb Z.compare arrays figures map app length].
  cbn [loop t].
  destruct (Qlt_le_dec 0 (tEnd c)) as [_|Hge]; [|lra].
  unfold timestep, getAcc. cbv [mbind prog_bind]. cbn [pos].
  set (w0 := {| arrays := _; figures := [] |}).
  pose proof (deposit_empty w0 0%nat (Nx c) (boxsize c) (n0 c) eq_refl ltac:(lia)) as Hd.
  pose proof (deposit_frame 0%nat (Nx c) (boxsize c) (n0 c) w0) as [_ Hfig].
  destruct (deposit 0%nat (Nx c) (boxsize c) (n0 c) w0) as [[d|e] w1].
  - discriminate.
  - cbn [fst snd] in *. injection Hd as ->. split; [reflexivity | exact Hfig].
Qed.

End DriverFacts.

Lemma timestep_wraps_witness :
  let s := {| pos := 0%nat; vel := 1%nat; t := 0 |} in
  let G := gradient_of 4 1 in
  let L := laplacian_of 4 1 in
  0 < boxsize small_config /\
  exists s' w',
    timestep zero_potential small_config G L s uniform_world = (Ok s', w') /\
    exists P',
      arrays w' !! pos s' = Some P' /\
      Forall2 (fun new x =>
                 (exists k : Z, new == x - inject_Z k * boxsize small_config) /\
                 (0 <= x -> x < boxsize small_config -> new == x))
              P' (zip_with Qplus [1 # 2; 3 # 2; 5 # 2; 7 # 2]
                           (map (Qmult (dt small_config)) [3; -11; 9; 3])).
Proof.
  intros s G L.
  assert (Hb : 0 < boxsize small_config) by reflexivity.
  split; [exact Hb|].
  let r := eval vm_compute in (timestep zero_potential small_config G L s uniform_world) in
  lazymatch r with
  | (Ok ?s', ?w') =>
      assert (Hstep : timestep zero_potential small_config G L s uniform_world
                      = (Ok s', w')) by (vm_compute; reflexivity);
      exists s', w'; split; [exact Hstep|];
      refine (timestep_wraps_by_box_lengths zero_potential small_config G L s s'
                uniform_world w' [1 # 2; 3 # 2; 5 # 2; 7 # 2] [3; -11; 9; 3]
                Hb _ _ _ _ Hstep);
      [reflexivity | reflexivity | discriminate | reflexivity]
  end.
Defined.

Lemma main_no_particles_witness :
  N empty_config = 0%Z /\ (2 <= Nx empty_config)%Z /\ ~ boxsize empty_config == 0 /\
  0 < tEnd empty_config /\
  length (grid_samples (Z.to_nat (N empty_config))) = Z.to_nat (N empty_config) /\
  fst (main_with zero_potential grid_samples zero_samples 1 empty_config empty_world)
  = Raise ZeroDivisionError /\
  figures (snd (main_with zero_potential grid_samples zero_samples 1 empty_config
                          empty_world))
  = [].
Proof.
  split; [reflexivity|]. split; [cbn; lia|]. split; [discriminate|].
  split; [reflexivity|]. split; [reflexivity|].
  apply (main_no_particles zero_potential grid_samples zero_samples 0 empty_config).
  - reflexivity.
  - cbn. lia.
  - discriminate.
  - reflexivity.
  - reflexivity.
Defined.


Lemma main_ensemble_witness :
  length (grid_samples (Z.to_nat (N small_config))) = Z.to_nat (N small_config) /\
  length (zero_samples (Z.to_nat (N small_config))) = Z.to_nat (N small_config) /\
  exists s w',
    main_with zero_potential grid_samples zero_samples 3 small_config empty_world
    = (Ok (Finished, s), w') /\
    exists P V,
      arrays w' !! pos s = Some P /\ arrays w' !! vel s = Some V /\
      pos s <> vel s /\
      Z.of_nat (length P) = N small_config /\ Z.of_nat (length V) = N small_config /\
      vel s = 1%nat.
Proof.
  assert (Hu : length (grid_samples (Z.to_nat (N small_config)))
               = Z.to_nat (N small_config)) by reflexivity.
  assert (Hn : length (zero_samples (Z.to_nat (N small_config)))
               = Z.to_nat (N small_config)) by reflexivity.
  split; [exact Hu|]. split; [exact Hn|].
  let r := eval vm_compute in
    (main_with zero_potential grid_samples zero_samples 3 small_config empty_world) in
  lazymatch r with
  | (Ok (Finished, ?s), ?w') =>
      assert (Hmain : main_with zero_potential grid_samples zero_samples 3 small_config
                                empty_world = (Ok (Finished, s), w'))
        by (vm_compute; reflexivity);
      exists s, w'; split; [exact Hmain|];
      exact (main_ensemble zero_potential grid_samples zero_samples 3 small_config
               Finished s w' Hu Hn Hmain)
  end.
Defined.

Lemma main_leaves_loop_witness :
  dt small_config == inject_Z 1 /\
  (0 < 1)%Z /\
  (1 * Z.of_nat 1 <= 2 ^ 53)%Z /\
  tEnd small_config <= inject_Z (Z.of_nat 1 * 1) /\
  forall s w',
    main_with zero_potential grid_samples zero_samples 1 small_config empty_world
    <> (Ok (Running, s), w').
Proof.
  assert (Hd : dt small_config == inject_Z 1) by reflexivity.
  assert (H0 : (0 < 1)%Z) by lia.
  assert (Hb : (1 * Z.of_nat 1 <= 2 ^ 53)%Z) by (vm_compute; discriminate).
  assert (He : tEnd small_config <= inject_Z (Z.of_nat 1 * 1)) by discriminate.
  split; [exact Hd|]. split; [exact H0|]. split; [exact Hb|]. split; [exact He|].
  exact (main_leaves_loop zero_potential grid_samples zero_samples 1 small_config 1
           Hd H0 Hb He).
Defined.

Lemma electric_field_length (Gmtx : spmatrix) (phi : list Q) :
  Z.of_nat (length phi) = shape Gmtx ->
  exists E, electric_field Gmtx phi = Ok E /\ length E = length phi.
Proof.
  intros Hl. unfold electric_field, matvec. cbn [mneg shape].
  rewrite Hl, Z.eqb_refl. eexists. split; [reflexivity|].
  rewrite length_map. unfold zrange. rewrite length_map, length_seq. lia.
Qed.

Section Runs.

Variable spsolve : spmatrix -> list Q -> result (list Q).

(** The rest of [getAcc] once the deposition has returned. *)
Lemma getAcc_after_deposit (pos : loc) (Nx : Z) (boxsize n0 : Q) (Gmtx Lmtx : spmatrix)
    (w : world) (P : list Q) (d : deposited) (n : list Q) :
  arrays w !! pos = Some P ->
  (2 <= Nx)%Z -> shape Gmtx = Nx -> solves spsolve Lmtx Nx ->
  deposit pos Nx boxsize n0 w
  = (Ok d, {| arrays := arrays w ++ [n]; figures := figures w |}) ->
  length n = Z.to_nat Nx ->
  exists acc,
    getAcc spsolve pos Nx boxsize n0 Gmtx Lmtx w
    = (Ok (S (length (arrays w))),
       {| arrays := arrays w ++ [n; acc]; figures := figures w |}) /\
    length acc = length P.
Proof.
  intros Hpos HNx HG Hsolve Hd Hln.
  destruct (deposit_indices _ _ _ _ _ _ _ Hd) as (_ & _ & Hjp1 & Hj).
  specialize (Hj HNx).
  destruct (deposit_returns _ _ _ _ _ _ _ _ Hpos Hd)
    as (n' & _ & Hnd & Hlj & Hljp1 & Hlw & Hlw').
  destruct (Hsolve (map (fun v => v - n0) n)) as (phi & Hphi & Hlphi).
  { rewrite length_map, Hln. lia. }
  destruct (electric_field_length Gmtx phi ltac:(lia)) as (E & HE & HlE).
  assert (HlE' : Z.of_nat (length E) = Nx) by lia.
  destruct (take_at_in_range E (j_ d)) as (Ej & HEj & HlEj & _).
  { now rewrite HlE'. }
  destruct (take_at_in_range E (jp1_ d)) as (Ejp1 & HEjp1 & HlEjp1 & _).
  { now rewrite HlE'. }
  unfold getAcc. unfold mbind at 1, prog_bind at 1. rewrite Hd.
  cbv [mbind prog_bind read lift new_array]. cbn [arrays figures].
  rewrite Hnd, lookup_fresh, Hphi, HE.
  unfold interpolate. rewrite HEj, HEjp1. cbn [mbind result_bind].
  eexists. split.
  - cbn [arrays figures]. rewrite length_app. cbn [length]. rewrite <- app_assoc.
    replace (length (arrays w) + 1)%nat with (S (length (arrays w))) by lia.
    reflexivity.
  - rewrite length_map, !length_zip_with. lia.
Qed.

(** X14.  On [Nx >= 2] cells, with a gradient of shape [Nx] and a solver
    that answers, [getAcc] returns exactly when its deposition returns:
    after the deposition no index is out of range and no division is by
    zero.  It has then allocated the density, of [Nx] entries, and the
    acceleration, one entry for each particle, and rendered nothing. *)
Theorem getAcc_returns_iff (pos : loc) (Nx : Z) (boxsize n0 : Q) (Gmtx Lmtx : spmatrix)
    (w : world) :
  (2 <= Nx)%Z -> shape Gmtx = Nx -> solves spsolve Lmtx Nx ->
  ((exists d w1, deposit pos Nx boxsize n0 w = (Ok d, w1)) <->
   (exists a w', getAcc spsolve pos Nx boxsize n0 Gmtx Lmtx w = (Ok a, w'))) /\
  (forall a w',
     getAcc spsolve pos Nx boxsize n0 Gmtx Lmtx w = (Ok a, w') ->
     exists P n acc,
       arrays w !! pos = Some P /\
       w' = {| arrays := arrays w ++ [n; acc]; figures := figures w |} /\
       a = S (length (arrays w)) /\
       Z.of_nat (length n) = Nx /\ length acc = length P).
Proof.
  intros HNx HG Hsolve.
  assert (Hfwd : forall d w1,
             deposit pos Nx boxsize n0 w = (Ok d, w1) ->
             exists P n acc,
               arrays w !! pos = Some P /\
               getAcc spsolve pos Nx boxsize n0 Gmtx Lmtx w
               = (Ok (S (length (arrays w))),
                  {| arrays := arrays w ++ [n; acc]; figures := figures w |}) /\
               Z.of_nat (length n) = Nx /\ length acc = length P).
  { intros d w1 Hd.
    destruct (deposit_inversion _ _ _ _ _ _ _ Hd) as (P & _ & _ & _ & Hpos & _).
    destruct (density_length pos Nx boxsize n0 w d w1 HNx Hd) as (n & -> & _ & Hln).
    destruct (getAcc_after_deposit pos Nx boxsize n0 Gmtx Lmtx w P d n
                Hpos HNx HG Hsolve Hd Hln) as (acc & Hacc & Hlacc).
    exists P, n, acc. split; [exact Hpos|]. split; [exact Hacc|]. split; [lia | exact Hlacc]. }
  assert (Hbwd : forall a w',
             getAcc spsolve pos Nx boxsize n0 Gmtx Lmtx w = (Ok a, w') ->
             exists d w1, deposit pos Nx boxsize n0 w = (Ok d, w1)).
  { intros a w'. unfold getAcc. intros H.
    apply bind_returns in H as (d & w1 & Hd & _). now exists d, w1. }
  split; [split|].
  - intros (d & w1 & Hd).
    destruct (Hfwd d w1 Hd) as (P & n & acc & _ & Hacc & _). eexists _, _. exact Hacc.
  - intros (a & w' & Hacc). exact (Hbwd a w' Hacc).
  - intros a w' Hacc.
    destruct (Hbwd a w' Hacc) as (d & w1 & Hd).
    destruct (Hfwd d w1 Hd) as (P & n & acc & Hpos & Hacc' & Hln & Hlacc).
    rewrite Hacc' in Hacc. injection Hacc as <- <-.
    exists P, n, acc. repeat split; assumption.
Qed.

End Runs.

Lemma zero_potential_solves (Lmtx : spmatrix) (Nx : Z) : solves zero_potential Lmtx Nx.
Proof.
  intros b Hb. eexists. split; [reflexivity|]. now rewrite length_map.
Qed.

Lemma getAcc_returns_iff_witness :
  let G := gradient_of 4 1 in
  let L := laplacian_of 4 1 in
  (2 <= 4)%Z /\ shape G = 4%Z /\ solves zero_potential L 4 /\
  (exists d w1, deposit 0%nat 4 4 1 uniform_world = (Ok d, w1)) /\
  (exists a w', getAcc zero_potential 0%nat 4 4 1 G L uniform_world = (Ok a, w')).
Proof.
  intros G L.
  assert (H1 : (2 <= 4)%Z) by lia.
  assert (H2 : shape G = 4%Z) by reflexivity.
  pose proof (zero_potential_solves L 4) as H3.
  assert (Hd : exists d w1, deposit 0%nat 4 4 1 uniform_world = (Ok d, w1)).
  { eexists _, _. vm_compute. reflexivity. }
  split; [exact H1|]. split; [exact H2|]. split; [exact H3|]. split; [exact Hd|].
  exact (proj1 (proj1 (getAcc_returns_iff zero_potential 0%nat 4 4 1 G L uniform_world
                         H1 H2 H3)) Hd).
Defined.

(** ** The configuration is not checked *)




Section Unchecked.

Variable spsolve : spmatrix -> list Q -> result (list Q).
Variable uniform_samples : nat -> list Q.
Variable normal_samples : nat -> list Q.




End Unchecked.


(** ** Properties of the project scaffold *)

Lemma dirname_shorter (p : list string) : p <> [] -> dirname p <> p.
Proof.
  intros Hp H. apply (f_equal length) in H. unfold dirname in H.
  rewrite removelast_firstn_len, length_firstn in H.
  destruct p; [congruence | cbn in H; lia].
Qed.

Lemma stat_lookup (f : tree) (p : list string) : p <> [] -> stat f p = f !! p.
Proof. now destruct p. Qed.

Lemma well_formed_child (f : tree) (a b : string) (l : list string) (n : node) :
  well_formed f -> f !! ([a] ++ b :: l) = Some n -> f !! [a] = Some Dir.
Proof.
  intros Hwf. revert b n. induction l as [|c l IH] using rev_ind; intros b n H.
  - apply Hwf in H as [_ H]. exact H.
  - apply Hwf in H as [_ H]. unfold dirname in H.
    change ([a] ++ b :: l ++ [c]) with ((a :: b :: l) ++ [c]) in H.
    rewrite removelast_last in H. eapply IH. exact H.
Qed.

Lemma stat_insert_ne (f : tree) (p q : list string) (n : node) :
  p <> q -> stat (<[p := n]> f) q = stat f q.
Proof. intros H. destruct q; [reflexivity|]. cbn [stat]. now apply lookup_insert_ne. Qed.

Lemma stat_insert_eq (f : tree) (p : list string) (n : node) :
  p <> [] -> stat (<[p := n]> f) p = Some n.
Proof. intros H. rewrite stat_lookup by exact H. apply lookup_insert_eq. Qed.

Lemma well_formed_insert (f : tree) (p : list string) (n : node) :
  well_formed f -> p <> [] -> stat f (dirname p) = Some Dir ->
  (n = Dir \/ f !! p <> Some Dir) ->
  well_formed (<[p := n]> f).
Proof.
  intros Hwf Hp Hpar Hn q m Hq.
  destruct (decide (q = p)) as [->|Hne].
  - split; [exact Hp|].
    rewrite stat_insert_ne by (apply not_eq_sym, dirname_shorter, Hp). exact Hpar.
  - rewrite lookup_insert_ne in Hq by congruence.
    destruct (Hwf q m Hq) as [Hq0 Hqp]. split; [exact Hq0|].
    destruct (decide (p = dirname q)) as [Heq|Hne'].
    + rewrite <- Heq in *. rewrite stat_insert_eq by exact Hp.
      rewrite stat_lookup in Hqp by exact Hp.
      destruct Hn as [->|Hn]; [reflexivity | contradiction].
    + rewrite stat_insert_ne by exact Hne'. exact Hqp.
Qed.

Lemma add_dir_lookup_ne (f : tree) (p q : list string) :
  p <> q -> add_dir p f !! q = f !! q.
Proof.
  intros H. unfold add_dir. destruct (f !! p); [reflexivity|].
  now apply lookup_insert_ne.
Qed.

Lemma add_dir_lookup_eq (f : tree) (p : list string) :
  add_dir p f !! p = Some (default Dir (f !! p)).
Proof.
  unfold add_dir. destruct (f !! p) eqn:E; cbn [default]; [exact E|].
  apply lookup_insert_eq.
Qed.

Lemma add_dir_is_dir (f : tree) (p : list string) :
  (forall c, f !! p <> Some (File c)) -> add_dir p f !! p = Some Dir.
Proof.
  intros H. rewrite add_dir_lookup_eq. destruct (f !! p) as [[|c]|] eqn:E; cbn; try reflexivity.
  now destruct (H c).
Qed.

Lemma make_missing_top (a : string) (f : tree) :
  make_missing [a] f = (Done tt, add_dir [a] f).
Proof.
  unfold make_missing, add_dir, path_exists, makedirs. cbv [mbind io_bind mret io_ret].
  cbn [stat length makedirs_from dirname removelast].
  cbv [mbind io_bind mret io_ret mkdir]. cbn [stat dirname removelast].
  destruct (f !! [a]) eqn:E; cbv beta iota; rewrite ?E; reflexivity.
Qed.

Lemma make_missing_sub (a b : string) (f : tree) :
  f !! [a] = Some Dir -> make_missing [a; b] f = (Done tt, add_dir [a; b] f).
Proof.
  intros Ha.
  unfold make_missing, add_dir, path_exists, makedirs. cbv [mbind io_bind mret io_ret].
  cbn [stat length makedirs_from dirname removelast].
  cbv [mbind io_bind mret io_ret path_exists mkdir]. cbn [stat dirname removelast].
  destruct (f !! [a; b]) eqn:E; cbv beta iota; rewrite ?Ha; cbv beta iota;
    rewrite ?E; reflexivity.
Qed.

Lemma make_missing_under_file (a b c : string) (f : tree) :
  f !! [a] = Some (File c) -> f !! [a; b] = None ->
  make_missing [a; b] f = (Failed NotADirectoryError, f).
Proof.
  intros Ha Hb.
  unfold make_missing, path_exists, makedirs. cbv [mbind io_bind mret io_ret].
  cbn [stat length makedirs_from dirname removelast].
  cbv [mbind io_bind mret io_ret path_exists mkdir]. cbn [stat dirname removelast].
  rewrite Hb. cbv beta iota. rewrite Ha. cbv beta iota. rewrite ?Ha, ?Hb. reflexivity.
Qed.

Lemma write_file_done (p : list string) (text : string) (f : tree) :
  p <> [] -> f !! p <> Some Dir -> stat f (dirname p) = Some Dir ->
  write_file p text f = (Done tt, <[p := File text]> f).
Proof.
  intros Hp Hnd Hpar. unfold write_file. destruct p as [|a p]; [congruence|].
  rewrite Hpar.
  destruct (f !! (a :: p)) as [[|c]|]; [contradiction | reflexivity | reflexivity].
Qed.

Lemma write_file_on_dir (p : list string) (text : string) (f : tree) :
  p <> [] -> f !! p = Some Dir ->
  write_file p text f = (Failed IsADirectoryError, f).
Proof.
  intros Hp Hd. unfold write_file. destruct p as [|a p]; [congruence|]. now rewrite Hd.
Qed.

Lemma write_file_under_file (p : list string) (text c : string) (f : tree) :
  p <> [] -> f !! p <> Some Dir -> stat f (dirname p) = Some (File c) ->
  write_file p text f = (Failed NotADirectoryError, f).
Proof.
  intros Hp Hnd Hpar. unfold write_file. destruct p as [|a p]; [congruence|].
  rewrite Hpar.
  destruct (f !! (a :: p)) as [[|c']|]; [contradiction | reflexivity | reflexivity].
Qed.

(** Lookups below the nested updates of a run, at a path none of them
    touches. *)
Ltac untouched :=
  rewrite ?lookup_insert_ne, ?add_dir_lookup_ne by congruence.

Ltac bind_step := unfold mbind at 1, io_bind at 1.

Lemma system_creator_run (f : tree) :
  can_scaffold f -> system_creator f = (Done tt, scaffold f).
Proof.
  intros (Hp & Hs & Hw).
  apply Forall_cons in Hw as [H1 Hw]. apply Forall_cons in Hw as [H2 Hw].
  apply Forall_cons in Hw as [H3 Hw]. apply Forall_cons in Hw as [H4 Hw].
  apply Forall_cons in Hw as [H5 _]. cbn [fst] in *.
  pose proof (add_dir_is_dir f [project_name] Hp) as Hroot.
  unfold system_creator, scaffold. cbn [dirs written foldl for_each fst snd].
  set (g0 := add_dir [project_name] f) in *.
  set (g1 := add_dir [project_name; "data"%string] g0).
  set (g2 := add_dir [project_name; "notebooks"%string] g1).
  set (g3 := add_dir [project_name; "scripts"%string] g2).
  assert (R1 : g1 !! [project_name] = Some Dir) by (subst g1; untouched; exact Hroot).
  assert (R2 : g2 !! [project_name] = Some Dir) by (subst g2; untouched; exact R1).
  assert (R3 : g3 !! [project_name] = Some Dir) by (subst g3; untouched; exact R2).
  assert (S3 : g3 !! [project_name; "scripts"%string] = Some Dir).
  { subst g3. apply add_dir_is_dir. intros c. subst g2 g1 g0. untouched. apply Hs. }
  assert (K : forall q, q <> [project_name] -> q <> [project_name; "data"%string] ->
                        q <> [project_name; "notebooks"%string] ->
                        q <> [project_name; "scripts"%string] ->
                        g3 !! q = f !! q).
  { intros q Q0 Q1 Q2 Q3. subst g3 g2 g1 g0. now untouched. }
  bind_step. rewrite make_missing_top. fold g0.
  bind_step. bind_step. rewrite (make_missing_sub _ _ g0 Hroot). fold g1.
  bind_step. rewrite (make_missing_sub _ _ g1 R1). fold g2.
  bind_step. rewrite (make_missing_sub _ _ g2 R2). fold g3.
  cbv [mret io_ret].
  clearbody g3. clear g0 g1 g2 Hroot R1 R2.
  bind_step. rewrite write_file_done;
    [| congruence | rewrite K by congruence; exact H1 | exact R3].
  bind_step. rewrite write_file_done;
    [| congruence | untouched; rewrite K by congruence; exact H2
     | cbn [dirname removelast stat]; untouched; exact R3].
  bind_step. rewrite write_file_done;
    [| congruence | untouched; rewrite K by congruence; exact H3
     | cbn [dirname removelast stat]; untouched; exact R3].
  bind_step. rewrite write_file_done;
    [| congruence | untouched; rewrite K by congruence; exact H4
     | cbn [dirname removelast stat]; untouched; exact R3].
  rewrite write_file_done;
    [| congruence | untouched; rewrite K by congruence; exact H5
     | cbn [dirname removelast stat]; untouched; exact S3].
  reflexivity.
Qed.

Lemma io_bind_returns {A B} (m : io A) (k : A -> io B) (f f' : tree) (b : B) :
  (m ≫= k) f = (Done b, f') ->
  exists a g, m f = (Done a, g) /\ k a g = (Done b, f').
Proof.
  unfold mbind, io_bind. destruct (m f) as [[a|e] g]; [|discriminate].
  intros H. now exists a, g.
Qed.

Lemma write_file_returns (p : list string) (text : string) (f f' : tree) :
  p <> [] -> write_file p text f = (Done tt, f') ->
  f !! p <> Some Dir /\ stat f (dirname p) = Some Dir /\ f' = <[p := File text]> f.
Proof.
  intros Hp. unfold write_file. destruct p as [|a p]; [congruence|].
  destruct (f !! (a :: p)) as [[|c]|]; [discriminate | |];
    (destruct (stat f (dirname (a :: p))) as [[|c']|]; [|discriminate|discriminate]);
    intros [= <-]; (split; [congruence|]); split; reflexivity.
Qed.

(** The lookups of the tree a run leaves. *)
Lemma scaffold_lookup (f : tree) :
  can_scaffold f ->
  scaffold f !! [project_name] = Some Dir /\
  scaffold f !! [project_name; "scripts"%string] = Some Dir /\
  Forall (fun d => scaffold f !! [project_name; d]
                   = Some (default Dir (f !! [project_name; d]))) dirs /\
  Forall (fun pt => scaffold f !! pt.1 = Some (File pt.2)) written /\
  (forall q, q <> [project_name] ->
             q ∉ map (fun d => [project_name; d]) dirs ->
             q ∉ map fst written ->
             scaffold f !! q = f !! q).
Proof.
  intros (Hp & Hs & Hw).
  unfold scaffold. cbn [dirs written foldl fst snd map].
  split; [|split; [|split; [|split]]].
  - untouched. now apply add_dir_is_dir.
  - untouched. apply add_dir_is_dir. intros c. untouched. apply Hs.
  - repeat constructor; untouched; rewrite add_dir_lookup_eq; untouched; reflexivity.
  - repeat constructor; cbn [fst snd]; untouched; apply lookup_insert_eq.
  - intros q Q0 Q1 Q2. rewrite !not_elem_of_cons in Q1. rewrite !not_elem_of_cons in Q2.
    destruct Q1 as (? & ? & ? & _). destruct Q2 as (? & ? & ? & ? & ? & _).
    untouched. reflexivity.
Qed.

Lemma add_dir_present (f : tree) (p : list string) (n : node) :
  f !! p = Some n -> add_dir p f = f.
Proof. intros H. unfold add_dir. now rewrite H. Qed.

Lemma project_is_file (f : tree) (c : string) :
  well_formed f -> f !! [project_name] = Some (File c) ->
  system_creator f = (Failed NotADirectoryError, f).
Proof.
  intros Hwf Hp.
  assert (Hd : f !! [project_name; "data"%string] = None).
  { destruct (f !! [project_name; "data"%string]) as [n|] eqn:E; [|reflexivity].
    apply (well_formed_child f project_name "data" [] n Hwf) in E. congruence. }
  unfold system_creator. bind_step. rewrite make_missing_top.
  rewrite (add_dir_present f _ _ Hp).
  bind_step. cbn [for_each dirs]. bind_step.
  rewrite (make_missing_under_file _ _ c f Hp Hd). reflexivity.
Qed.

Lemma system_creator_returns (f f' : tree) :
  well_formed f -> system_creator f = (Done tt, f') -> can_scaffold f.
Proof.
  intros Hwf Hrun.
  assert (Hp : forall c, f !! [project_name] <> Some (File c)).
  { intros c Hc. rewrite (project_is_file f c Hwf Hc) in Hrun. discriminate. }
  pose proof (add_dir_is_dir f [project_name] Hp) as Hroot.
  unfold system_creator in Hrun.
  apply io_bind_returns in Hrun as ([] & g0 & H0 & Hrun).
  rewrite make_missing_top in H0. injection H0 as <-.
  apply io_bind_returns in Hrun as ([] & g3 & Hdirs & Hrun).
  cbn [for_each dirs] in Hdirs.
  set (g0 := add_dir [project_name] f) in *.
  set (g1 := add_dir [project_name; "data"%string] g0).
  set (g2 := add_dir [project_name; "notebooks"%string] g1).
  assert (R1 : g1 !! [project_name] = Some Dir) by (subst g1; untouched; exact Hroot).
  assert (R2 : g2 !! [project_name] = Some Dir) by (subst g2; untouched; exact R1).
  apply io_bind_returns in Hdirs as ([] & g1' & H1 & Hdirs).
  rewrite (make_missing_sub _ _ g0 Hroot) in H1. injection H1 as <-. fold g1 in Hdirs.
  apply io_bind_returns in Hdirs as ([] & g2' & H2 & Hdirs).
  rewrite (make_missing_sub _ _ g1 R1) in H2. injection H2 as <-. fold g2 in Hdirs.
  apply io_bind_returns in Hdirs as ([] & g3' & H3 & Hdirs).
  rewrite (make_missing_sub _ _ g2 R2) in H3. injection H3 as <-.
  cbv [mret io_ret] in Hdirs. injection Hdirs as <-.
  set (g3 := add_dir [project_name; "scripts"%string] g2) in *.
  assert (K : forall q, q <> [project_name] -> q <> [project_name; "data"%string] ->
                        q <> [project_name; "notebooks"%string] ->
                        q <> [project_name; "scripts"%string] ->
                        g3 !! q = f !! q).
  { intros q Q0 Q1 Q2 Q3. subst g3 g2 g1 g0. untouched. reflexivity. }
  assert (S3 : g3 !! [project_name; "scripts"%string]
               = Some (default Dir (f !! [project_name; "scripts"%string]))).
  { subst g3. rewrite add_dir_lookup_eq. subst g2 g1 g0. untouched. reflexivity. }
  clearbody g3. clear g0 g1 g2 Hroot R1 R2.
  apply io_bind_returns in Hrun as ([] & h1 & W1 & Hrun).
  apply write_file_returns in W1 as (N1 & _ & ->); [|congruence].
  apply io_bind_returns in Hrun as ([] & h2 & W2 & Hrun).
  apply write_file_returns in W2 as (N2 & _ & ->); [|congruence].
  apply io_bind_returns in Hrun as ([] & h3 & W3 & Hrun).
  apply write_file_returns in W3 as (N3 & _ & ->); [|congruence].
  apply io_bind_returns in Hrun as ([] & h4 & W4 & Hrun).
  apply write_file_returns in W4 as (N4 & _ & ->); [|congruence].
  apply write_file_returns in Hrun as (N5 & P5 & _); [|congruence].
  cbn [dirname removelast stat] in P5.
  revert N1 N2 N3 N4 N5 P5. untouched. rewrite !K by congruence. rewrite S3.
  intros N1 N2 N3 N4 N5 P5.
  split; [exact Hp|]. split.
  - intros c Hc. rewrite Hc in P5. discriminate.
  - unfold written. repeat constructor; assumption.
Qed.

(** X21.  In a tree, the script returns exactly when the project name and
    [scripts] are not regular files and none of the five files it writes is
    a directory. *)
Theorem system_creator_returns_iff (f : tree) :
  well_formed f ->
  ((exists f', system_creator f = (Done tt, f')) <-> can_scaffold f).
Proof.
  intros Hwf. split.
  - intros [f' Hrun]. exact (system_creator_returns f f' Hwf Hrun).
  - intros Hc. exists (scaffold f). now apply system_creator_run.
Qed.

(** X22.  What a run that returns leaves: the project directory and
    [scripts] are directories; [data], [notebooks] and [scripts] hold what
    they held, or a new directory; the five files hold the texts of the
    script, whatever they held before; every other path is as it was. *)
Theorem system_creator_result (f f' : tree) :
  well_formed f ->
  system_creator f = (Done tt, f') ->
  f' !! [project_name] = Some Dir /\
  f' !! [project_name; "scripts"%string] = Some Dir /\
  Forall (fun d => f' !! [project_name; d]
                   = Some (default Dir (f !! [project_name; d]))) dirs /\
  Forall (fun pt => f' !! pt.1 = Some (File pt.2)) written /\
  (forall q, q <> [project_name] ->
             q ∉ map (fun d => [project_name; d]) dirs ->
             q ∉ map fst written ->
             f' !! q = f !! q).
Proof.
  intros Hwf Hrun.
  pose proof (system_creator_returns f f' Hwf Hrun) as Hc.
  rewrite (system_creator_run f Hc) in Hrun. injection Hrun as <-.
  now apply scaffold_lookup.
Qed.

Lemma scaffold_can_scaffold (f : tree) : can_scaffold f -> can_scaffold (scaffold f).
Proof.
  intros Hc. destruct (scaffold_lookup f Hc) as (HP & HS & _ & HW & _).
  split; [|split].
  - intros c. rewrite HP. discriminate.
  - intros c. rewrite HS. discriminate.
  - eapply Forall_impl; [exact HW|]. intros [p text] H. cbn [fst snd] in *.
    rewrite H. discriminate.
Qed.

Lemma scaffold_again (f : tree) : can_scaffold f -> scaffold (scaffold f) = scaffold f.
Proof.
  intros Hc. destruct (scaffold_lookup f Hc) as (HP & _ & HD & HW & _).
  apply Forall_cons in HD as [D1 HD]. apply Forall_cons in HD as [D2 HD].
  apply Forall_cons in HD as [D3 _].
  apply Forall_cons in HW as [W1 HW]. apply Forall_cons in HW as [W2 HW].
  apply Forall_cons in HW as [W3 HW]. apply Forall_cons in HW as [W4 HW].
  apply Forall_cons in HW as [W5 _]. cbn [fst snd] in *.
  set (g := scaffold f) in *.
  unfold scaffold at 1. cbn [dirs written foldl fst snd].
  rewrite (add_dir_present g _ _ HP), (add_dir_present g _ _ D1),
    (add_dir_present g _ _ D2), (add_dir_present g _ _ D3).
  rewrite (insert_id g _ _ W1), (insert_id g _ _ W2), (insert_id g _ _ W3),
    (insert_id g _ _ W4), (insert_id g _ _ W5).
  reflexivity.
Qed.

(** X23.  After a run that returned, a second run returns and changes
    nothing. *)
Theorem system_creator_idempotent (f f' : tree) :
  well_formed f ->
  system_creator f = (Done tt, f') ->
  system_creator f' = (Done tt, f').
Proof.
  intros Hwf Hrun.
  pose proof (system_creator_returns f f' Hwf Hrun) as Hc.
  rewrite (system_creator_run f Hc) in Hrun. injection Hrun as <-.
  rewrite (system_creator_run _ (scaffold_can_scaffold f Hc)).
  now rewrite scaffold_again.
Qed.

Lemma kept_refl (W : list (list string)) (f : tree) : kept W f f.
Proof. intros p n H. now left. Qed.

Lemma kept_trans (W : list (list string)) (f g h : tree) :
  kept W f g -> kept W g h -> kept W f h.
Proof.
  intros Hfg Hgh p n Hp.
  destruct (Hfg p n Hp) as [Hg|(Hin & c & c' & -> & Hg)].
  - exact (Hgh p n Hg).
  - destruct (Hgh p _ Hg) as [Hh|(_ & c1 & c2 & _ & Hh)].
    + right. split; [exact Hin|]. now exists c, c'.
    + right. split; [exact Hin|]. now exists c, c2.
Qed.

Lemma keeps_ret {A} (W : list (list string)) (a : A) : keeps W (mret a).
Proof. intros f Hwf. split; [exact Hwf | apply kept_refl]. Qed.

Lemma keeps_bind {A B} (W : list (list string)) (m : io A) (k : A -> io B) :
  keeps W m -> (forall a, keeps W (k a)) -> keeps W (m ≫= k).
Proof.
  intros Hm Hk f Hwf. unfold mbind, io_bind.
  destruct (Hm f Hwf) as [Hwf1 Hk1].
  destruct (m f) as [[a|e] g]; cbn [snd] in *.
  - destruct (Hk a g Hwf1) as [Hwf2 Hk2]. split; [exact Hwf2|].
    eapply kept_trans; eassumption.
  - now split.
Qed.

Lemma keeps_path_exists (W : list (list string)) (p : list string) :
  keeps W (path_exists p).
Proof. intros f Hwf. split; [exact Hwf | apply kept_refl]. Qed.

Lemma kept_insert_new (W : list (list string)) (f : tree) (p : list string) (n : node) :
  f !! p = None -> kept W f (<[p := n]> f).
Proof.
  intros Hnone q m Hq. left.
  rewrite lookup_insert_ne by congruence. exact Hq.
Qed.

Lemma keeps_mkdir (W : list (list string)) (p : list string) : keeps W (mkdir p).
Proof.
  intros f Hwf. unfold mkdir.
  destruct p as [|a p]; [split; [exact Hwf | apply kept_refl]|].
  destruct (stat f (dirname (a :: p))) as [[|c]|] eqn:Hpar;
    try (split; [exact Hwf | apply kept_refl]).
  destruct (f !! (a :: p)) eqn:E; cbn [snd].
  - split; [exact Hwf | apply kept_refl].
  - split.
    + apply well_formed_insert; [exact Hwf | discriminate | exact Hpar | now left].
    + now apply kept_insert_new.
Qed.

Lemma keeps_except_exists (W : list (list string)) (m : io unit) :
  keeps W m -> keeps W (except_exists m).
Proof.
  intros Hm f Hwf. unfold except_exists. specialize (Hm f Hwf).
  destruct (m f) as [[a|[]] g]; exact Hm.
Qed.

Lemma keeps_makedirs_from (W : list (list string)) (k : nat) :
  forall p, keeps W (makedirs_from k p).
Proof.
  induction k as [|k IH]; intros p; cbn [makedirs_from]; [apply keeps_mkdir|].
  apply keeps_bind; [|intros _; apply keeps_mkdir].
  destruct (dirname p); [apply keeps_ret|].
  apply keeps_bind; [apply keeps_path_exists|].
  intros [|]; [apply keeps_ret | apply keeps_except_exists, IH].
Qed.

Lemma keeps_make_missing (W : list (list string)) (p : list string) :
  keeps W (make_missing p).
Proof.
  unfold make_missing. apply keeps_bind; [apply keeps_path_exists|].
  intros [|]; [apply keeps_ret | apply keeps_makedirs_from].
Qed.

Lemma keeps_for_each {A} (W : list (list string)) (l : list A) (body : A -> io unit) :
  (forall x, keeps W (body x)) -> keeps W (for_each l body).
Proof.
  intros Hb. induction l as [|x l IH]; cbn [for_each]; [apply keeps_ret|].
  apply keeps_bind; [apply Hb | intros _; exact IH].
Qed.

Lemma keeps_write_file (W : list (list string)) (p : list string) (text : string) :
  p ∈ W -> keeps W (write_file p text).
Proof.
  intros Hin f Hwf. unfold write_file.
  destruct p as [|a p].
  { split; [exact Hwf | apply kept_refl]. }
  destruct (f !! (a :: p)) as [[|c]|] eqn:E;
    try (split; [exact Hwf | apply kept_refl]);
    (destruct (stat f (dirname (a :: p))) as [[|c']|] eqn:Hpar;
     try (split; [exact Hwf | apply kept_refl]); cbn [snd]; split;
     [apply well_formed_insert;
        [exact Hwf | discriminate | exact Hpar | right; rewrite E; discriminate]|]).
  - intros q m Hq. destruct (decide (q = a :: p)) as [->|Hne].
    + right. split; [exact Hin|]. exists c, text. split; [congruence|].
      apply lookup_insert_eq.
    + left. rewrite lookup_insert_ne by congruence. exact Hq.
  - now apply kept_insert_new.
Qed.

(** X24.  Whatever its outcome, the script keeps the tree a tree and removes
    nothing: every entry is still there and unchanged, but for the five
    files, whose text may be replaced. *)
Theorem system_creator_keeps (f : tree) :
  well_formed f ->
  well_formed (system_creator f).2 /\
  forall p n, f !! p = Some n ->
    (system_creator f).2 !! p = Some n \/
    (p ∈ map fst written /\
     exists c c', n = File c /\ (system_creator f).2 !! p = Some (File c')).
Proof.
  revert f. change (keeps (map fst written) system_creator).
  unfold system_creator.
  apply keeps_bind; [apply keeps_make_missing | intros _].
  apply keeps_bind; [apply keeps_for_each; intros d; apply keeps_make_missing | intros _].
  repeat (apply keeps_bind; [apply keeps_write_file; cbn; set_solver | intros _]).
  apply keeps_write_file. cbn. set_solver.
Qed.

Lemma dir_or_not (f : tree) (p : list string) :
  f !! p = Some Dir \/ f !! p <> Some Dir.
Proof. destruct (f !! p) as [[|c]|]; [now left | right; discriminate | right; discriminate]. Qed.

(** X25.  The errors the script can end in: the guards [os.path.exists]
    leave no FileExistsError and no FileNotFoundError.  When the project
    name is a regular file it raises NotADirectoryError and has changed
    nothing. *)
Theorem system_creator_errors (f : tree) :
  well_formed f ->
  ((system_creator f).1 = Done tt \/
   (system_creator f).1 = Failed NotADirectoryError \/
   (system_creator f).1 = Failed IsADirectoryError) /\
  (forall c, f !! [project_name] = Some (File c) ->
             system_creator f = (Failed NotADirectoryError, f)).
Proof.
  intros Hwf. split; [|intros c Hc; exact (project_is_file f c Hwf Hc)].
  enough (exists r g, system_creator f = (r, g) /\
                      (r = Done tt \/ r = Failed NotADirectoryError \/
                       r = Failed IsADirectoryError)) as (r & g & -> & H) by exact H.
  destruct (f !! [project_name]) as [[|c]|] eqn:EP;
    [| rewrite (project_is_file f c Hwf EP); eexists _, _; split; [reflexivity|];
       right; left; reflexivity |].
  all: assert (Hp : forall c, f !! [project_name] <> Some (File c))
         by (intros c; rewrite EP; discriminate).
  all: clear EP.
  all: pose proof (add_dir_is_dir f [project_name] Hp) as Hroot.
  all: unfold system_creator; cbn [dirs for_each].
  all: set (g0 := add_dir [project_name] f) in *.
  all: set (g1 := add_dir [project_name; "data"%string] g0).
  all: set (g2 := add_dir [project_name; "notebooks"%string] g1).
  all: set (g3 := add_dir [project_name; "scripts"%string] g2).
  all: assert (R1 : g1 !! [project_name] = Some Dir) by (subst g1; untouched; exact Hroot).
  all: assert (R2 : g2 !! [project_name] = Some Dir) by (subst g2; untouched; exact R1).
  all: assert (R3 : g3 !! [project_name] = Some Dir) by (subst g3; untouched; exact R2).
  all: assert (S3 : g3 !! [project_name; "scripts"%string]
                    = Some (default Dir (f !! [project_name; "scripts"%string])))
         by (subst g3; rewrite add_dir_lookup_eq; subst g2 g1 g0; untouched; reflexivity).
  all: assert (K : forall q, q <> [project_name] -> q <> [project_name; "data"%string] ->
                             q <> [project_name; "notebooks"%string] ->
                             q <> [project_name; "scripts"%string] ->
                             g3 !! q = f !! q)
         by (intros q Q0 Q1 Q2 Q3; subst g3 g2 g1 g0; untouched; reflexivity).
  all: bind_step; rewrite make_missing_top; fold g0.
  all: bind_step; bind_step; rewrite (make_missing_sub _ _ g0 Hroot); fold g1.
  all: bind_step; rewrite (make_missing_sub _ _ g1 R1); fold g2.
  all: bind_step; rewrite (make_missing_sub _ _ g2 R2); fold g3.
  all: cbv [mret io_ret].
  all: clearbody g3; clear g0 g1 g2 Hroot R1 R2.
  all: do 4 (bind_step;
             match goal with
             | |- context [write_file ?p ?text ?h] =>
                 let Hd := fresh "Hd" in let Hn := fresh "Hn" in
                 destruct (dir_or_not f p) as [Hd|Hn];
                 [ rewrite (write_file_on_dir p text h);
                   [ eexists _, _; split; [reflexivity|]; right; right; reflexivity | congruence
                   | untouched; rewrite K by congruence; exact Hd ]
                 | rewrite (write_file_done p text h);
                   [ | congruence | untouched; rewrite K by congruence; exact Hn
                     | cbn [dirname removelast stat]; untouched; exact R3 ] ]
             end).
  all: match goal with
       | |- context [write_file ?p ?text ?h] =>
           let Hd := fresh "Hd" in let Hn := fresh "Hn" in
                 destruct (dir_or_not f p) as [Hd|Hn];
           [ rewrite (write_file_on_dir p text h);
             [ eexists _, _; split; [reflexivity|]; right; right; reflexivity | congruence
             | untouched; rewrite K by congruence; exact Hd ]
           | destruct (f !! [project_name; "scripts"%string]) as [[|c]|] eqn:ES;
             cbn [default] in S3;
             [ rewrite (write_file_done p text h);
               [ eexists _, _; split; [reflexivity|]; left; reflexivity | congruence
               | untouched; rewrite K by congruence; exact Hn
               | cbn [dirname removelast stat]; untouched; exact S3 ]
             | rewrite (write_file_under_file p text c h);
               [ eexists _, _; split; [reflexivity|]; right; left; reflexivity | congruence
               | untouched; rewrite K by congruence; exact Hn
               | cbn [dirname removelast stat]; untouched; exact S3 ]
             | rewrite (write_file_done p text h);
               [ eexists _, _; split; [reflexivity|]; left; reflexivity | congruence
               | untouched; rewrite K by congruence; exact Hn
               | cbn [dirname removelast stat]; untouched; exact S3 ] ] ]
       end.
Qed.

(** Lookups in a tree given by its entries. *)
Ltac entries :=
  rewrite ?lookup_insert_eq, ?lookup_insert_ne, ?lookup_empty by congruence.

Lemma well_formed_empty : well_formed ∅.
Proof. intros p n H. rewrite lookup_empty in H. discriminate. Qed.

Lemma well_formed_edited_project : well_formed edited_project.
Proof.
  unfold edited_project.
  repeat (apply well_formed_insert;
          [| discriminate
           | cbn [dirname removelast stat]; entries; reflexivity
           | first [now left | right; entries; discriminate]]).
  apply well_formed_empty.
Qed.

Lemma well_formed_name_taken : well_formed name_taken.
Proof.
  apply well_formed_insert; [apply well_formed_empty|discriminate|reflexivity|].
  right. rewrite lookup_empty. discriminate.
Qed.

Lemma can_scaffold_empty : can_scaffold ∅.
Proof.
  split; [|split].
  - intros c. rewrite lookup_empty. discriminate.
  - intros c. rewrite lookup_empty. discriminate.
  - unfold written. repeat constructor; cbn [fst]; rewrite lookup_empty; discriminate.
Qed.

Lemma can_scaffold_edited_project : can_scaffold edited_project.
Proof.
  unfold edited_project. split; [|split].
  - intros c. entries. discriminate.
  - intros c. entries. discriminate.
  - unfold written. repeat constructor; cbn [fst]; entries; discriminate.
Qed.

Lemma system_creator_returns_iff_witness :
  well_formed name_taken /\
  ~ can_scaffold name_taken /\
  ~ (exists f', system_creator name_taken = (Done tt, f')).
Proof.
  assert (Hno : ~ can_scaffold name_taken).
  { intros (H & _). apply (H "notes"%string). apply lookup_insert_eq. }
  split; [apply well_formed_name_taken|]. split; [exact Hno|].
  intros H. apply Hno.
  now apply (system_creator_returns_iff name_taken well_formed_name_taken).
Defined.

Lemma system_creator_result_witness :
  well_formed edited_project /\
  exists f',
    system_creator edited_project = (Done tt, f') /\
    f' !! [project_name] = Some Dir /\
    f' !! [project_name; "scripts"%string] = Some Dir /\
    Forall (fun d => f' !! [project_name; d]
                     = Some (default Dir (edited_project !! [project_name; d]))) dirs /\
    Forall (fun pt => f' !! pt.1 = Some (File pt.2)) written /\
    (forall q, q <> [project_name] ->
               q ∉ map (fun d => [project_name; d]) dirs ->
               q ∉ map fst written ->
               f' !! q = edited_project !! q).
Proof.
  split; [apply well_formed_edited_project|].
  exists (scaffold edited_project).
  pose proof (system_creator_run edited_project can_scaffold_edited_project) as Hrun.
  split; [exact Hrun|].
  exact (system_creator_result edited_project _ well_formed_edited_project Hrun).
Defined.

Lemma system_creator_idempotent_witness :
  well_formed ∅ /\
  exists f',
    system_creator ∅ = (Done tt, f') /\ system_creator f' = (Done tt, f').
Proof.
  split; [apply well_formed_empty|].
  exists (scaffold ∅).
  pose proof (system_creator_run ∅ can_scaffold_empty) as Hrun.
  split; [exact Hrun|].
  exact (system_creator_idempotent ∅ _ well_formed_empty Hrun).
Defined.

Lemma system_creator_keeps_witness :
  well_formed edited_project /\
  well_formed (system_creator edited_project).2 /\
  forall p n, edited_project !! p = Some n ->
    (system_creator edited_project).2 !! p = Some n \/
    (p ∈ map fst written /\
     exists c c', n = File c /\ (system_creator edited_project).2 !! p = Some (File c')).
Proof.
  split; [apply well_formed_edited_project|].
  exact (system_creator_keeps edited_project well_formed_edited_project).
Defined.

Lemma system_creator_errors_witness :
  well_formed name_taken /\
  ((system_creator name_taken).1 = Done tt \/
   (system_creator name_taken).1 = Failed NotADirectoryError \/
   (system_creator name_taken).1 = Failed IsADirectoryError) /\
  (forall c, name_taken !! [project_name] = Some (File c) ->
             system_creator name_taken = (Failed NotADirectoryError, name_taken)).
Proof.
  split; [apply well_formed_name_taken|].
  exact (system_creator_errors name_taken well_formed_name_taken).
Defined.
